(** * ModificationSafeIterationVector and ModelCache: a shallow embedding

    The development follows [src/ModificationSafeIterationVector.h] and
    [src/ModelCache.cpp].

    - Addresses ([T*], [const_iterator*]) are integers.  Element pointers are
      counted in elements, so that pointer arithmetic is integer arithmetic;
      [nullptr] is [0].
    - The backing [std::vector<T>] is a record of its data pointer, its
      elements and its capacity.  Operations that may reallocate take the
      address [na] the allocator hands out if they do.
    - Handles are objects living at an address ([hid]); the registry
      [m_iterators] of a container stores such addresses, [None] standing for
      [nullptr].  Handles and containers live in a [world], because the
      registry aliases the handle objects the caller holds.
    - [assert] is active only when the flag [bc] (the macro
      [_MODIFICATION_SAFE_ITERATION_VECTOR_BOUNDS_CHECKING], defined unless
      [NDEBUG] is) is [true]. *)

From Stdlib Require Import ZArith Lia.
From stdpp Require Import gmap strings list fin_maps.

Local Open Scope Z_scope.

(** ** Outcomes of a call *)

Inductive failure : Set :=
| AssertionFailure      (* an [assert] of the header fired *)
| SubscriptOutOfRange   (* [m_base[i]] with [i >= m_base.size()] *)
| UndefinedBehaviour    (* any other broken precondition of std::vector or a wild pointer *)
| ModelNotFoundException.

Inductive outcome (A : Type) : Type :=
| Ok (a : A)
| Abort (f : failure).
Arguments Ok {A} a.
Arguments Abort {A} f.

#[global] Instance outcome_ret : MRet outcome := fun A a => Ok a.
#[global] Instance outcome_bind : MBind outcome :=
  fun A B k m => match m with Ok a => k a | Abort f => Abort f end.

Definition assert (bc cond : bool) : outcome unit :=
  if bc && negb cond then Abort AssertionFailure else Ok tt.

Definition need {A} (o : option A) : outcome A :=
  match o with Some a => Ok a | None => Abort UndefinedBehaviour end.

Definition ptr := Z.
Definition nullptr : ptr := 0.
Definition hid := positive.   (* address of a handle object *)
Definition vid := positive.   (* address of a container object *)

(** [size_type] is unsigned and [difference_type] signed, both 64 bits wide:
    [resize] subtracts two sizes as [size_type] and passes the result as a
    [difference_type]. *)
Definition size_type_sub (a b : nat) : Z := (Z.of_nat a - Z.of_nat b) mod 2 ^ 64.
Definition to_difference_type (x : Z) : Z := if x <? 2 ^ 63 then x else x - 2 ^ 64.

(** ** The backing store: std::vector<T> *)

Record stdvector (T : Type) : Type := mk_stdvector {
  sv_data : ptr;          (* data() *)
  sv_elems : list T;      (* the elements, size() = length *)
  sv_capacity : nat       (* capacity() *)
}.
Arguments mk_stdvector {T}.
Arguments sv_data {T}.
Arguments sv_elems {T}.
Arguments sv_capacity {T}.

Section StdVector.
Context {T : Type}.

Definition sv_empty_vector : stdvector T := mk_stdvector nullptr [] 0.

Definition sv_size (v : stdvector T) : nat := length (sv_elems v).

(** Storage for [need] elements: kept when the capacity suffices, otherwise
    moved to [na] with a geometrically grown capacity. *)
Definition sv_grow (na : ptr) (need : nat) (v : stdvector T) : stdvector T :=
  if (need <=? sv_capacity v)%nat then v
  else mk_stdvector na (sv_elems v) (Nat.max need (2 * sv_capacity v)).

Definition sv_reserve (na : ptr) (n : nat) (v : stdvector T) : stdvector T :=
  if (n <=? sv_capacity v)%nat then v
  else mk_stdvector na (sv_elems v) n.

(** shrink_to_fit: does nothing at minimal capacity; otherwise the storage
    is reallocated to fit (released altogether when there is no element). *)
Definition sv_shrink_to_fit (na : ptr) (v : stdvector T) : stdvector T :=
  if (sv_capacity v <=? sv_size v)%nat then v
  else mk_stdvector (if (0 <? sv_size v)%nat then na else nullptr)
                    (sv_elems v) (sv_size v).

Definition sv_clear (v : stdvector T) : stdvector T :=
  mk_stdvector (sv_data v) [] (sv_capacity v).

Definition sv_push_back (na : ptr) (x : T) (v : stdvector T) : stdvector T :=
  let g := sv_grow na (S (sv_size v)) v in
  mk_stdvector (sv_data g) (sv_elems v ++ [x]) (sv_capacity g).

(** insert(begin() + i, xs...): [i] must lie in [0, size()]. *)
Definition sv_insert (na : ptr) (i : Z) (xs : list T) (v : stdvector T)
  : option (stdvector T) :=
  if (0 <=? i) && (i <=? Z.of_nat (sv_size v)) then
    let g := sv_grow na (sv_size v + length xs) v in
    let k := Z.to_nat i in
    Some (mk_stdvector (sv_data g)
            (take k (sv_elems v) ++ xs ++ drop k (sv_elems v))
            (sv_capacity g))
  else None.

(** erase(begin() + i, begin() + j): needs [0 <= i <= j <= size()]; the
    storage never moves. *)
Definition sv_erase_range (i j : Z) (v : stdvector T) : option (stdvector T) :=
  if (0 <=? i) && (i <=? j) && (j <=? Z.of_nat (sv_size v)) then
    Some (mk_stdvector (sv_data v)
            (take (Z.to_nat i) (sv_elems v) ++ drop (Z.to_nat j) (sv_elems v))
            (sv_capacity v))
  else None.

(** erase(begin() + i): the position must be dereferenceable. *)
Definition sv_erase (i : Z) (v : stdvector T) : option (stdvector T) :=
  if i <? Z.of_nat (sv_size v) then sv_erase_range i (i + 1) v else None.

Definition sv_pop_back (v : stdvector T) : option (stdvector T) :=
  match sv_elems v with
  | [] => None
  | _ => Some (mk_stdvector (sv_data v) (removelast (sv_elems v)) (sv_capacity v))
  end.

Definition sv_resize (na : ptr) (count : nat) (value : T) (v : stdvector T)
  : stdvector T :=
  if (count <=? sv_size v)%nat then
    mk_stdvector (sv_data v) (take count (sv_elems v)) (sv_capacity v)
  else
    let g := sv_grow na count v in
    mk_stdvector (sv_data g)
      (sv_elems v ++ replicate (count - sv_size v) value) (sv_capacity g).

(** [&m_base[i]]: std::vector requires [i < size()], and the debug builds
    that compile the bounds checking in check it, as section 4.1 of the
    specification says of the backing store ("fails with an assertion
    failure in debug builds").  The result is the address of the element. *)
Definition sv_subscript (i : nat) (v : stdvector T) : outcome ptr :=
  if (i <? sv_size v)%nat then Ok (sv_data v + Z.of_nat i)
  else Abort SubscriptOutOfRange.

(** Reading through an element pointer: only addresses inside the live
    range [data(), data() + size()) hold an element. *)
Definition sv_load (a : ptr) (v : stdvector T) : option T :=
  if (sv_data v <=? a) then sv_elems v !! Z.to_nat (a - sv_data v) else None.
End StdVector.

(** ** Handles, containers and the world they live in *)

(** ModificationSafeIterationVectorConstIterator.  The mutable iterator class
    derives from it and adds no state.  The handle's own bounds shadow is
    [it_currentStart] (a copy, field [m_currentStart] of the iterator) and
    [it_currentEnd] (field [m_currentEnd] of the iterator: a pointer to the
    [m_currentEnd] field of a container, kept as that container's address). *)
Record iter : Set := mk_iter {
  m_pos : ptr;
  m_vec : vid;
  it_currentStart : ptr;
  it_currentEnd : vid
}.

Record msiv (T : Type) : Type := mk_msiv {
  m_base : stdvector T;
  m_iterators : list (option hid);
  m_currentStart : ptr;
  m_currentEnd : ptr
}.
Arguments mk_msiv {T}.
Arguments m_base {T}.
Arguments m_iterators {T}.
Arguments m_currentStart {T}.
Arguments m_currentEnd {T}.

Record world (T : Type) : Type := mk_world {
  vecs : gmap vid (msiv T);
  iters : gmap hid iter
}.
Arguments mk_world {T}.
Arguments vecs {T}.
Arguments iters {T}.

(** *** The registry (a [std::vector<const_iterator*>]) *)

Definition live (slot : option hid) : bool :=
  match slot with Some _ => true | None => false end.

(** liveCount() in the words of the specification: the number of registry
    slots that are not tombstones.  It is what the assertions of clear() and
    swap() are said to test; the loop the source has for it is
    [iteratorCount_loop] below. *)
Definition liveCount (reg : list (option hid)) : nat :=
  length (filter (fun s => live s = true) reg).

(** First loop of removeIterator: every slot equal to [it] becomes nullptr. *)
Definition tombstone (it : hid) (slot : option hid) : option hid :=
  if decide (slot = Some it) then None else slot.

(** Second loop of removeIterator:
    [while (!m_iterators.empty() && m_iterators.back() == nullptr) pop_back()].
    The lemmas [trim_trailing_snoc_None] and [trim_trailing_snoc_Some] are
    the two cases of one turn of that loop. *)
Fixpoint trim_trailing (reg : list (option hid)) : list (option hid) :=
  match reg with
  | [] => []
  | s :: rest =>
      match trim_trailing rest, s with
      | [], None => []
      | rest', _ => s :: rest'
      end
  end.

Definition removeIterator_slots (it : hid) (reg : list (option hid))
  : list (option hid) :=
  trim_trailing (map (tombstone it) reg).

(** *** rebase *)

(** The position update of rebase. *)
Definition rebase_pos (offset : Z) (insert_ptr : ptr) (insert_size : Z) (pos : ptr)
  : ptr :=
  let pos1 := pos + offset in
  if negb (insert_size =? 0) && (insert_ptr <=? pos1) then pos1 + insert_size
  else pos1.

Section Container.
Context {T : Type}.
Variable bc : bool.   (* _MODIFICATION_SAFE_ITERATION_VECTOR_BOUNDS_CHECKING *)

Definition get_vec (c : vid) (w : world T) : outcome (msiv T) :=
  need (vecs w !! c).
Definition get_iter (h : hid) (w : world T) : outcome iter :=
  need (iters w !! h).
Definition put_vec (c : vid) (v : msiv T) (w : world T) : world T :=
  mk_world (<[c := v]> (vecs w)) (iters w).
Definition put_iter (h : hid) (it : iter) (w : world T) : world T :=
  mk_world (vecs w) (<[h := it]> (iters w)).

Definition set_base (b : stdvector T) (v : msiv T) : msiv T :=
  mk_msiv b (m_iterators v) (m_currentStart v) (m_currentEnd v).
Definition set_iterators (reg : list (option hid)) (v : msiv T) : msiv T :=
  mk_msiv (m_base v) reg (m_currentStart v) (m_currentEnd v).
Definition set_bounds (s e : ptr) (v : msiv T) : msiv T :=
  mk_msiv (m_base v) (m_iterators v) s e.

(** [*m_currentEnd] of a handle: the bound kept by the container it refers to. *)
Definition read_currentEnd (it : iter) (w : world T) : outcome ptr :=
  v ← get_vec (it_currentEnd it) w; Ok (m_currentEnd v).

(** The members of a handle after rebase; the shadow start moves only when
    bounds checking is compiled in. *)
Definition rebase_iter (offset : Z) (insert_ptr : ptr) (insert_size : Z) (it : iter)
  : iter :=
  mk_iter (rebase_pos offset insert_ptr insert_size (m_pos it)) (m_vec it)
          (if bc then it_currentStart it + offset else it_currentStart it)
          (it_currentEnd it).

(** ModificationSafeIterationVectorConstIterator::rebase, on the handle at
    address [h]. *)
Definition rebase (offset : Z) (insert_ptr : ptr) (insert_size : Z)
    (h : hid) (w : world T) : outcome (world T) :=
  it ← get_iter h w;
  let it' := rebase_iter offset insert_ptr insert_size it in
  let w' := put_iter h it' w in
  if bc then
    _ ← assert bc (it_currentStart it' <=? m_pos it');
    e ← read_currentEnd it' w';
    _ ← assert bc (m_pos it' <=? e);
    Ok w'
  else Ok w'.

(** The loop of completeRealloc over the registry. *)
Fixpoint broadcastRebase (offset : Z) (insert_ptr : ptr) (insert_size : Z)
    (reg : list (option hid)) (w : world T) : outcome (world T) :=
  match reg with
  | [] => Ok w
  | None :: rest => broadcastRebase offset insert_ptr insert_size rest w
  | Some h :: rest =>
      w' ← rebase offset insert_ptr insert_size h w;
      broadcastRebase offset insert_ptr insert_size rest w'
  end.

(** [newSize > 0 ? m_base.data() : nullptr], the start completeRealloc works
    with. *)
Definition newStart_of (b : stdvector T) : ptr :=
  if (0 <? sv_size b)%nat then sv_data b else nullptr.

(** ModificationSafeIterationVector::completeRealloc on the container at [c]. *)
Definition completeRealloc (c : vid) (preStart : ptr) (insert_pos insert_size : Z)
    (w : world T) : outcome (world T) :=
  v ← get_vec c w;
  let newSize := sv_size (m_base v) in
  let newStart := newStart_of (m_base v) in
  let offset := newStart - preStart in
  if (offset =? 0) && (insert_size =? 0) then Ok w
  else
    let v' :=
      if bc then
        let v1 := if negb (offset =? 0)
                  then set_bounds newStart (newStart + Z.of_nat newSize) v
                  else v in
        set_bounds (m_currentStart v1) (m_currentEnd v1 + insert_size) v1
      else v in
    let insert_ptr := newStart + insert_pos in
    broadcastRebase offset insert_ptr insert_size (m_iterators v) (put_vec c v' w).

Definition addIterator (c : vid) (it : hid) (w : world T) : outcome (world T) :=
  v ← get_vec c w;
  Ok (put_vec c (set_iterators (m_iterators v ++ [Some it]) v) w).

Definition removeIterator (c : vid) (it : hid) (w : world T) : outcome (world T) :=
  v ← get_vec c w;
  Ok (put_vec c (set_iterators (removeIterator_slots it (m_iterators v)) v) w).

(** The loop of iteratorCount, [for (auto i : m_iterators) if (A) ++s;] with
    [*i != nullptr] for [A]: the slot is dereferenced, where the loop of
    completeRealloc tests the slot [i] itself.  At a tombstone that is the
    dereference of a null pointer.  At a live slot the handle object is
    read and compared with nullptr, a comparison the handle class does not
    declare; an object that exists is taken to differ from nullptr, so the
    slot is counted. *)
Fixpoint iteratorCount_loop (w : world T) (reg : list (option hid)) (s : nat)
  : outcome nat :=
  match reg with
  | [] => Ok s
  | None :: _ => Abort UndefinedBehaviour
  | Some h :: rest => _ ← get_iter h w; iteratorCount_loop w rest (S s)
  end.

Definition iteratorCount (c : vid) (w : world T) : outcome nat :=
  v ← get_vec c w; iteratorCount_loop w (m_iterators v) 0%nat.
End Container.

(** ** Handle life cycle and handle operations *)

Section Handles.
Context {T : Type}.
Variable bc : bool.

(** The protected constructor of const_iterator (a position and a pointer
    to the container), building the object at address [h].  With bounds
    checking the shadow start is [&vector->m_base[0]]. *)
Definition construct (h : hid) (pos : ptr) (c : vid) (w : world T)
  : outcome (world T) :=
  v ← get_vec c w;
  start ← (if bc then sv_subscript 0 (m_base v) else Ok nullptr);
  addIterator c h (put_iter h (mk_iter pos c start c) w).

(** Copy construction.  The class declares a copy assignment operator and a
    destructor but no copy constructor, so the implicitly defined one is
    used: it copies the members and calls nothing. *)
Definition copy_construct (h other : hid) (w : world T) : outcome (world T) :=
  o ← get_iter other w;
  Ok (put_iter h o w).

(** [operator=] of the handle at [this]. *)
Definition assign (this other : hid) (w : world T) : outcome (world T) :=
  o ← get_iter other w;
  t ← get_iter this w;
  let t1 := mk_iter (m_pos o) (m_vec t) (it_currentStart t) (it_currentEnd t) in
  let w1 := put_iter this t1 w in
  w2 ← (if decide (m_vec t = m_vec o) then Ok w1
        else
          w' ← removeIterator (m_vec t) this w1;
          addIterator (m_vec o) this
            (put_iter this
               (mk_iter (m_pos o) (m_vec o) (it_currentStart t) (it_currentEnd t)) w'));
  if bc then
    t2 ← get_iter this w2;
    Ok (put_iter this
          (mk_iter (m_pos t2) (m_vec t2) (it_currentStart o) (it_currentEnd o)) w2)
  else Ok w2.

(** The destructor; the object at [h] is gone afterwards. *)
Definition destroy (h : hid) (w : world T) : outcome (world T) :=
  it ← get_iter h w;
  w' ← removeIterator (m_vec it) h w;
  Ok (mk_world (vecs w') (delete h (iters w'))).

(** [operator*]: the element stored at [m_pos]. *)
Definition deref (h : hid) (w : world T) : outcome T :=
  it ← get_iter h w;
  _ ← (if bc then
         _ ← assert bc (it_currentStart it <=? m_pos it);
         e ← read_currentEnd it w;
         assert bc (m_pos it <? e)
       else Ok tt);
  v ← get_vec (m_vec it) w;
  need (sv_load (m_pos it) (m_base v)).

(** [operator+=]. *)
Definition advance (h : hid) (offset : Z) (w : world T) : outcome (world T) :=
  it ← get_iter h w;
  let pos := m_pos it + offset in
  let w' := put_iter h (mk_iter pos (m_vec it) (it_currentStart it) (it_currentEnd it)) w in
  if bc then
    _ ← assert bc (it_currentStart it <=? pos);
    e ← read_currentEnd it w';
    _ ← assert bc (pos <=? e);
    Ok w'
  else Ok w'.

(** [operator==]. *)
Definition iter_eq (a b : hid) (w : world T) : outcome bool :=
  x ← get_iter a w;
  y ← get_iter b w;
  _ ← assert bc (bool_decide (m_vec y = m_vec x));
  Ok (m_pos x =? m_pos y).
End Handles.

(** ** Container operations

    Handles are returned by value: [ret] is the address of the object the
    caller receives.  The source builds a returned iterator from the
    position alone, [iterator(m_base.data() + (rv - m_base.begin()))]; the
    embedding gives the constructor the container as well, as its only
    declaration requires.  A [const_iterator] passed by value ([pos],
    [first], [last]) is given by its members; only [m_pos] is read (the
    source writes [last.pos] in the range erase).  The parameter object is
    an implicitly made copy and so is in no registry; its destruction leaves
    a registry that does not end in a tombstone as it is
    ([removeIterator_slots_absent]). *)

Section Operations.
Context {T : Type}.
Variable bc : bool.

(** A default-constructed container.  No constructor initialises the
    bounds shadow: [s] and [e] are whatever the fields happen to hold. *)
Definition new_vector (s e : ptr) : msiv T := mk_msiv sv_empty_vector [] s e.

Definition begin (ret : hid) (c : vid) (w : world T) : outcome (world T) :=
  v ← get_vec c w;
  construct bc ret (sv_data (m_base v)) c w.

Definition end_ (ret : hid) (c : vid) (w : world T) : outcome (world T) :=
  v ← get_vec c w;
  construct bc ret (sv_data (m_base v) + Z.of_nat (sv_size (m_base v))) c w.

Definition reserve (na : ptr) (cap : nat) (c : vid) (w : world T)
  : outcome (world T) :=
  v ← get_vec c w;
  let pre := sv_data (m_base v) in
  completeRealloc bc c pre 0 0 (put_vec c (set_base (sv_reserve na cap (m_base v)) v) w).

Definition shrink_to_fit (na : ptr) (c : vid) (w : world T) : outcome (world T) :=
  v ← get_vec c w;
  let pre := sv_data (m_base v) in
  completeRealloc bc c pre 0 0 (put_vec c (set_base (sv_shrink_to_fit na (m_base v)) v) w).

(** [assert(iteratorCount() == 0)]: the call of iteratorCount is compiled
    with bounds checking only. *)
Definition assert_no_iterators (c : vid) (w : world T) : outcome unit :=
  if bc then n ← iteratorCount c w; assert bc (n =? 0)%nat else Ok tt.

Definition clear (c : vid) (w : world T) : outcome (world T) :=
  _ ← assert_no_iterators c w;
  v ← get_vec c w;
  Ok (put_vec c (set_base (sv_clear (m_base v)) v) w).

(** The common shape of every insert overload: [xs] are the inserted
    elements and [insert_size] is what the overload passes to
    completeRealloc. *)
Definition insert_with (na : ptr) (pos : iter) (xs : list T) (insert_size : Z)
    (ret : hid) (c : vid) (w : world T) : outcome (world T) :=
  v ← get_vec c w;
  let offset := m_pos pos - sv_data (m_base v) in
  let pre := sv_data (m_base v) in
  b ← need (sv_insert na offset xs (m_base v));
  w1 ← completeRealloc bc c pre offset insert_size (put_vec c (set_base b v) w);
  v1 ← get_vec c w1;
  construct bc ret (sv_data (m_base v1) + offset) c w1.

(** insert(pos, val), both overloads, and emplace(pos, args).  The source
    calls [m_base.insert(val)] without a position; the embedding inserts at
    [m_base.begin() + offset] as the other overloads do. *)
Definition insert (na : ptr) (pos : iter) (val : T) :=
  insert_with na pos [val] 1.

(** insert(pos, count, value): completeRealloc is called with the literal 1. *)
Definition insert_fill (na : ptr) (pos : iter) (count : nat) (value : T) :=
  insert_with na pos (replicate count value) 1.

(** insert(pos, start, last) and insert(pos, ilist): [xs] is the range. *)
Definition insert_range (na : ptr) (pos : iter) (xs : list T) :=
  insert_with na pos xs (Z.of_nat (length xs)).

Definition erase (pos : iter) (ret : hid) (c : vid) (w : world T)
  : outcome (world T) :=
  v ← get_vec c w;
  let offset := m_pos pos - sv_data (m_base v) in
  b ← need (sv_erase offset (m_base v));
  w1 ← completeRealloc bc c (sv_data b) offset (-1) (put_vec c (set_base b v) w);
  v1 ← get_vec c w1;
  construct bc ret (sv_data (m_base v1) + offset) c w1.

(** erase(first, last); [first - last] is the handles' [operator-]. *)
Definition erase_range (first last : iter) (ret : hid) (c : vid) (w : world T)
  : outcome (world T) :=
  v ← get_vec c w;
  let offset := m_pos first - sv_data (m_base v) in
  b ← need (sv_erase_range offset (m_pos last - sv_data (m_base v)) (m_base v));
  _ ← assert bc (bool_decide (m_vec last = m_vec first));
  w1 ← completeRealloc bc c (sv_data b) offset (m_pos first - m_pos last)
         (put_vec c (set_base b v) w);
  v1 ← get_vec c w1;
  construct bc ret (sv_data (m_base v1) + offset) c w1.

(** push_back, both overloads, and emplace_back. *)
Definition push_back (na : ptr) (value : T) (c : vid) (w : world T)
  : outcome (world T) :=
  v ← get_vec c w;
  let offset := Z.of_nat (sv_size (m_base v)) in
  let pre := sv_data (m_base v) in
  completeRealloc bc c pre offset 1
    (put_vec c (set_base (sv_push_back na value (m_base v)) v) w).

Definition pop_back (c : vid) (w : world T) : outcome (world T) :=
  v ← get_vec c w;
  _ ← assert bc (negb (sv_size (m_base v) =? 0)%nat);
  let pre := sv_data (m_base v) in
  b ← need (sv_pop_back (m_base v));
  completeRealloc bc c pre (Z.of_nat (sv_size b)) (-1) (put_vec c (set_base b v) w).

(** resize(count) and resize(count, value); for the former [value] is the
    value-initialised element.  Both branches of the source pass the same
    arguments to completeRealloc: the offset is the smaller of the two
    sizes. *)
Definition resize (na : ptr) (count : nat) (value : T) (c : vid) (w : world T)
  : outcome (world T) :=
  v ← get_vec c w;
  let initial_size := sv_size (m_base v) in
  if (count =? initial_size)%nat then Ok w
  else
    let pre := sv_data (m_base v) in
    let b := sv_resize na count value (m_base v) in
    let offset :=
      if (initial_size <? count)%nat then Z.of_nat initial_size
      else Z.of_nat (sv_size b) in
    completeRealloc bc c pre offset
      (to_difference_type (size_type_sub (sv_size b) initial_size))
      (put_vec c (set_base b v) w).

(** The template [swap(v &other)] at [v = std::vector<T>]: the storage is
    exchanged with [other], whose new contents are returned. *)
Definition swap_storage (other : stdvector T) (c : vid) (w : world T)
  : outcome (world T * stdvector T) :=
  _ ← assert_no_iterators c w;
  v ← get_vec c w;
  let v1 := set_base other v in
  let v2 := if bc
            then set_bounds (m_currentStart v1)
                   (sv_data other + Z.of_nat (sv_size other)) v1
            else v1 in
  Ok (put_vec c v2 w, m_base v).

(** [swap(ModificationSafeIterationVector<T> &other)], which runs
    [other.swap(m_base)]. *)
Definition swap (other : vid) (c : vid) (w : world T) : outcome (world T) :=
  _ ← assert_no_iterators c w;
  v ← get_vec c w;
  '(w1, b) ← swap_storage (m_base v) other w;
  v1 ← get_vec c w1;
  let v2 := set_base b v1 in
  let v3 := if bc
            then set_bounds (m_currentStart v2)
                   (sv_data b + Z.of_nat (sv_size b)) v2
            else v2 in
  Ok (put_vec c v3 w1).
End Operations.

(** ** ModelCache *)

Section ModelCache.
(** [SceneGraph::NModel*]: the instance a lookup hands out. *)
Variable NModel : Type.
(** [SceneGraph::Loader::LoadModel], which lives outside the cache.  Its
    result may depend on the calls made so far; [None] stands for a thrown
    [SceneGraph::LoadingError]. *)
Variable LoadModel : list string -> string -> option NModel.

(** [m_models] is the cache's map; [loaded] is the trace of the names
    LoadModel has been called with, kept to tell when the loader runs. *)
Record ModelCache : Type := mk_ModelCache {
  m_models : gmap string NModel;
  loaded : list string
}.

Definition FindModel (name : string) (st : ModelCache)
  : outcome NModel * ModelCache :=
  match m_models st !! name with
  | None =>
      match LoadModel (loaded st) name with
      | Some m =>
          (Ok m, mk_ModelCache (<[name := m]> (m_models st)) (loaded st ++ [name]))
      | None =>
          (Abort ModelNotFoundException,
           mk_ModelCache (m_models st) (loaded st ++ [name]))
      end
  | Some m => (Ok m, st)
  end.

(** A run of lookups whose results are dropped. *)
Definition lookups (names : list string) (st : ModelCache) : ModelCache :=
  foldl (fun s n => snd (FindModel n s)) st names.
End ModelCache.
Arguments m_models {NModel}.
Arguments loaded {NModel}.
Arguments mk_ModelCache {NModel}.
Arguments FindModel {NModel}.
Arguments lookups {NModel}.

(** ** Further handle operations *)

Section HandleOperators.
Context {T : Type}.
Variable bc : bool.

(** [operator->]: the position itself, checked like [operator*]. *)
Definition arrow (h : hid) (w : world T) : outcome ptr :=
  it ← get_iter h w;
  _ ← (if bc then
         _ ← assert bc (it_currentStart it <=? m_pos it);
         e ← read_currentEnd it w;
         assert bc (m_pos it <? e)
       else Ok tt);
  Ok (m_pos it).

(** Prefix [operator++]. *)
Definition increment (h : hid) (w : world T) : outcome (world T) :=
  it ← get_iter h w;
  _ ← (if bc then e ← read_currentEnd it w; assert bc (m_pos it <? e) else Ok tt);
  Ok (put_iter h (mk_iter (m_pos it + 1) (m_vec it) (it_currentStart it) (it_currentEnd it)) w).

(** Prefix [operator--]. *)
Definition decrement (h : hid) (w : world T) : outcome (world T) :=
  it ← get_iter h w;
  _ ← assert bc (it_currentStart it <? m_pos it);
  Ok (put_iter h (mk_iter (m_pos it - 1) (m_vec it) (it_currentStart it) (it_currentEnd it)) w).

(** [operator-] between two handles. *)
Definition iter_diff (a b : hid) (w : world T) : outcome Z :=
  x ← get_iter a w;
  y ← get_iter b w;
  _ ← assert bc (bool_decide (m_vec y = m_vec x));
  Ok (m_pos x - m_pos y).

(** [operator[]] of the const iterator. *)
Definition iter_subscript (h : hid) (offset : Z) (w : world T) : outcome T :=
  it ← get_iter h w;
  _ ← (if bc then
         _ ← assert bc (it_currentStart it <=? m_pos it + offset);
         e ← read_currentEnd it w;
         assert bc (m_pos it + offset <? e)
       else Ok tt);
  v ← get_vec (m_vec it) w;
  need (sv_load (m_pos it + offset) (m_base v)).

(** [operator[]] of the mutable iterator, whose first assertion is strict. *)
Definition iter_subscript_mutable (h : hid) (offset : Z) (w : world T) : outcome T :=
  it ← get_iter h w;
  _ ← (if bc then
         _ ← assert bc (it_currentStart it <? m_pos it + offset);
         e ← read_currentEnd it w;
         assert bc (m_pos it + offset <? e)
       else Ok tt);
  v ← get_vec (m_vec it) w;
  need (sv_load (m_pos it + offset) (m_base v)).

(** The comparison operators of the branch compiled without [_HAS_CXX20]. *)
Definition iter_ne (a b : hid) (w : world T) : outcome bool :=
  x ← get_iter a w;
  y ← get_iter b w;
  _ ← assert bc (bool_decide (m_vec y = m_vec x));
  Ok (negb (m_pos x =? m_pos y)).

Definition iter_lt (a b : hid) (w : world T) : outcome bool :=
  x ← get_iter a w;
  y ← get_iter b w;
  _ ← assert bc (bool_decide (m_vec y = m_vec x));
  Ok (m_pos x <? m_pos y).

Definition iter_gt (a b : hid) (w : world T) : outcome bool :=
  x ← get_iter a w;
  y ← get_iter b w;
  _ ← assert bc (bool_decide (m_vec y = m_vec x));
  Ok (m_pos y <? m_pos x).

Definition iter_le (a b : hid) (w : world T) : outcome bool :=
  x ← get_iter a w;
  y ← get_iter b w;
  _ ← assert bc (bool_decide (m_vec y = m_vec x));
  Ok (m_pos x <=? m_pos y).

(** [operator>=] asserts [other.m_pos == m_pos], not the containers. *)
Definition iter_ge (a b : hid) (w : world T) : outcome bool :=
  x ← get_iter a w;
  y ← get_iter b w;
  _ ← assert bc (m_pos y =? m_pos x);
  Ok (m_pos y <=? m_pos x).

(** The loop [for (; it != e; ++it) out.push_back( *it )] over two handles;
    [None] when [fuel] turns of the loop were not enough. *)
Fixpoint collect (fuel : nat) (it e : hid) (out : list T) (w : world T)
  : option (outcome (list T * world T)) :=
  match fuel with
  | O => None
  | S fuel' =>
      match iter_ne it e w with
      | Abort f => Some (Abort f)
      | Ok false => Some (Ok (out, w))
      | Ok true =>
          match deref bc it w with
          | Abort f => Some (Abort f)
          | Ok x =>
              match increment it w with
              | Abort f => Some (Abort f)
              | Ok w' => collect fuel' it e (out ++ [x]) w'
              end
          end
      end
  end.
End HandleOperators.

(** ** Element access of the container *)

Section ElementAccess.
Context {T : Type}.
Variable bc : bool.

(** [operator[]], both overloads ([pos >= 0] always holds of a size_type). *)
Definition subscript (pos : nat) (c : vid) (w : world T) : outcome T :=
  v ← get_vec c w;
  _ ← assert bc (pos <? sv_size (m_base v))%nat;
  need (sv_elems (m_base v) !! pos).

(** at(pos), both overloads: [m_base.at] throws std::out_of_range where
    [m_base[pos]] is undefined. *)
Definition at_ (pos : nat) (c : vid) (w : world T) : outcome T :=
  v ← get_vec c w;
  _ ← assert bc (pos <? sv_size (m_base v))%nat;
  match sv_elems (m_base v) !! pos with
  | Some x => Ok x
  | None => Abort SubscriptOutOfRange
  end.

(** front() and back(): undefined on an empty backing store. *)
Definition front (c : vid) (w : world T) : outcome T :=
  v ← get_vec c w; need (head (sv_elems (m_base v))).

Definition back (c : vid) (w : world T) : outcome T :=
  v ← get_vec c w; need (last (sv_elems (m_base v))).

Definition data (c : vid) (w : world T) : outcome ptr :=
  v ← get_vec c w; Ok (sv_data (m_base v)).

Definition size (c : vid) (w : world T) : outcome nat :=
  v ← get_vec c w; Ok (sv_size (m_base v)).

Definition empty (c : vid) (w : world T) : outcome bool :=
  v ← get_vec c w; Ok (sv_size (m_base v) =? 0)%nat.

Definition capacity (c : vid) (w : world T) : outcome nat :=
  v ← get_vec c w; Ok (sv_capacity (m_base v)).
End ElementAccess.

(** ** ModelCache::Flush *)

(** Flush deletes every cached instance and clears the map; the destructor
    of the cache is a call of Flush.  The result lists the deleted
    instances (the order of the deletions is not kept). *)
Definition Flush {NModel : Type} (st : ModelCache NModel)
  : list NModel * ModelCache NModel :=
  (snd <$> map_to_list (m_models st), mk_ModelCache ∅ (loaded st)).

(** A call of the cache: a lookup or a flush. *)
Inductive cache_call : Set :=
| CallFind (name : string)
| CallFlush.

Definition cache_step {NModel : Type} (LoadModel : list string -> string -> option NModel)
    (st : ModelCache NModel) (call : cache_call) : ModelCache NModel :=
  match call with
  | CallFind name => snd (FindModel LoadModel name st)
  | CallFlush => snd (Flush st)
  end.

Definition cache_run {NModel : Type} (LoadModel : list string -> string -> option NModel)
    (calls : list cache_call) (st : ModelCache NModel) : ModelCache NModel :=
  foldl (cache_step LoadModel) st calls.

(** Every cached instance is what the loader returned for its name at some
    earlier point of the loader's trace. *)
Definition cached_from_loader {NModel : Type}
    (LoadModel : list string -> string -> option NModel) (st : ModelCache NModel) : Prop :=
  forall name m, m_models st !! name = Some m ->
    exists earlier later,
      loaded st = earlier ++ name :: later /\ LoadModel earlier name = Some m.

(** ** Worlds the header can produce

    [api_step] is one successful call of the header: the construction of a
    container, an operation of a container or of a handle.  A handle object
    is only ever built at an address where no handle lives.  [prim_step]
    lists the few kinds of change these calls are made of. *)

Inductive prim_step {T : Type} (bc : bool) : world T -> world T -> Prop :=
| prim_new c s e w :
    vecs w !! c = None -> prim_step bc w (put_vec c (new_vector s e) w)
| prim_store c v v' w :
    vecs w !! c = Some v -> m_iterators v' = m_iterators v ->
    prim_step bc w (put_vec c v' w)
| prim_move h it it' w :
    iters w !! h = Some it -> m_vec it' = m_vec it ->
    prim_step bc w (put_iter h it' w)
| prim_construct h pos c w w' :
    iters w !! h = None -> construct bc h pos c w = Ok w' -> prim_step bc w w'
| prim_copy h other w w' :
    iters w !! h = None -> copy_construct h other w = Ok w' -> prim_step bc w w'
| prim_assign this other w w' :
    assign bc this other w = Ok w' -> prim_step bc w w'
| prim_destroy h w w' :
    destroy h w = Ok w' -> prim_step bc w w'.

Inductive api_step {T : Type} (bc : bool) : world T -> world T -> Prop :=
| api_new c s e w :
    vecs w !! c = None -> api_step bc w (put_vec c (new_vector s e) w)
| api_begin ret c w w' :
    iters w !! ret = None -> begin bc ret c w = Ok w' -> api_step bc w w'
| api_end ret c w w' :
    iters w !! ret = None -> end_ bc ret c w = Ok w' -> api_step bc w w'
| api_copy h other w w' :
    iters w !! h = None -> copy_construct h other w = Ok w' -> api_step bc w w'
| api_assign this other w w' :
    assign bc this other w = Ok w' -> api_step bc w w'
| api_destroy h w w' :
    destroy h w = Ok w' -> api_step bc w w'
| api_advance h offset w w' :
    advance bc h offset w = Ok w' -> api_step bc w w'
| api_increment h w w' :
    increment bc h w = Ok w' -> api_step bc w w'
| api_decrement h w w' :
    decrement bc h w = Ok w' -> api_step bc w w'
| api_reserve na cap c w w' :
    reserve bc na cap c w = Ok w' -> api_step bc w w'
| api_shrink_to_fit na c w w' :
    shrink_to_fit bc na c w = Ok w' -> api_step bc w w'
| api_clear c w w' :
    clear bc c w = Ok w' -> api_step bc w w'
| api_insert na pos val ret c w w' :
    iters w !! ret = None -> insert bc na pos val ret c w = Ok w' -> api_step bc w w'
| api_insert_fill na pos count value ret c w w' :
    iters w !! ret = None -> insert_fill bc na pos count value ret c w = Ok w' ->
    api_step bc w w'
| api_insert_range na pos xs ret c w w' :
    iters w !! ret = None -> insert_range bc na pos xs ret c w = Ok w' ->
    api_step bc w w'
| api_erase pos ret c w w' :
    iters w !! ret = None -> erase bc pos ret c w = Ok w' -> api_step bc w w'
| api_erase_range first last ret c w w' :
    iters w !! ret = None -> erase_range bc first last ret c w = Ok w' ->
    api_step bc w w'
| api_push_back na value c w w' :
    push_back bc na value c w = Ok w' -> api_step bc w w'
| api_pop_back c w w' :
    pop_back bc c w = Ok w' -> api_step bc w w'
| api_resize na count value c w w' :
    resize bc na count value c w = Ok w' -> api_step bc w w'
| api_swap_storage other other' c w w' :
    swap_storage bc other c w = Ok (w', other') -> api_step bc w w'
| api_swap other c w w' :
    swap bc other c w = Ok w' -> api_step bc w w'.

(** No registry ends in a tombstone. *)
Definition registries_trimmed {T : Type} (w : world T) : Prop :=
  forall c v, vecs w !! c = Some v -> last (m_iterators v) <> Some None.

(** The index a handle stands on, counted from the start of the storage of
    the container at [c], and the elements of that container. *)
Definition handle_index {T : Type} (w : world T) (c : vid) (h : hid) : option Z :=
  v ← vecs w !! c; it ← iters w !! h; Some (m_pos it - sv_data (m_base v)).

Definition contents {T : Type} (w : world T) (c : vid) : option (list T) :=
  v ← vecs w !! c; Some (sv_elems (m_base v)).

Definition registry {T : Type} (w : world T) (c : vid) : option (list (option hid)) :=
  v ← vecs w !! c; Some (m_iterators v).

(** ** Where a handle points

    The vocabulary of the statements about handles that follow their
    elements. *)

Section Pointing.
Context {T : Type}.

(** The handle at [h] is registered with the container at [c], whose
    registry lists no handle twice, and points at the element of index [k]. *)
Definition on_element (w : world T) (c : vid) (h : hid) (k : nat) : Prop :=
  exists v it,
    vecs w !! c = Some v /\ iters w !! h = Some it
    /\ Some h ∈ m_iterators v /\ NoDup (omap id (m_iterators v))
    /\ (k < sv_size (m_base v))%nat
    /\ m_pos it = sv_data (m_base v) + Z.of_nat k.

Definition element (w : world T) (c : vid) (k : nat) : option T :=
  v ← vecs w !! c; sv_elems (m_base v) !! k.

(** The by-value iterator argument [pos] denotes index [i] of the container. *)
Definition pos_index (w : world T) (c : vid) (pos : iter) (i : nat) : Prop :=
  exists v, vecs w !! c = Some v /\ m_pos pos = sv_data (m_base v) + Z.of_nat i.
End Pointing.

(** The registry invariant: a registry lists no handle twice, and every
    handle it lists exists and refers to the container of that registry. *)
Definition registry_ok {T : Type} (w : world T) : Prop :=
  forall c v, vecs w !! c = Some v ->
    NoDup (omap id (m_iterators v))
    /\ forall h, Some h ∈ m_iterators v ->
         exists it, iters w !! h = Some it /\ m_vec it = c.

(** The handle at [h] is in no registry. *)
Definition unregistered {T : Type} (h : hid) (w : world T) : Prop :=
  forall c v, vecs w !! c = Some v -> Some h ∉ m_iterators v.

(** ** Concrete worlds

    The runs below start from a default-constructed container and grow it
    with the public operations. *)

(** Addresses of the containers and of the handle objects used below. *)
Definition vec1 : vid := 1%positive.
Definition vec2 : vid := 2%positive.
Definition h_it : hid := 10%positive.      (* the handle the scenarios watch *)
Definition h_begin : hid := 11%positive.   (* a handle made by begin() *)
Definition h_ret : hid := 12%positive.     (* the iterator an operation returns *)
Definition h_copy : hid := 20%positive.    (* a copy-constructed handle *)
Definition h5 : hid := 5%positive.
Definition h6 : hid := 6%positive.
Definition h7 : hid := 7%positive.

(** A run of operations, stopping at the first that aborts. *)
Definition run {T : Type} (ops : list (world T -> outcome (world T))) (w : world T)
  : outcome (world T) :=
  foldl (fun acc op => w' ← acc; op w') (Ok w) ops.

Definition position_of {T : Type} (h : hid) (w : world T) : outcome ptr :=
  it ← get_iter h w; Ok (m_pos it).

Definition registry_of {T : Type} (c : vid) (w : world T) : outcome (list (option hid)) :=
  v ← get_vec c w; Ok (m_iterators v).

Definition elements_of {T : Type} (c : vid) (w : world T) : outcome (list T) :=
  v ← get_vec c w; Ok (sv_elems (m_base v)).

Definition data_of {T : Type} (c : vid) (w : world T) : outcome ptr :=
  v ← get_vec c w; Ok (sv_data (m_base v)).

Definition fresh_world : world Z := mk_world {[ vec1 := new_vector 0 0 ]} ∅.

Definition holed_vector : msiv Z :=
  mk_msiv (mk_stdvector 100 [7; 8] 2)
          [Some h5; None; Some h6; Some h7] 100 102.

(** A registry with a tombstone in the middle. *)
Definition holed_world : world Z :=
  mk_world {[ vec1 := holed_vector ]}
           {[ h5 := mk_iter 100 vec1 100 vec1;
              h6 := mk_iter 101 vec1 100 vec1;
              h7 := mk_iter 102 vec1 100 vec1 ]}.

(** Passing the handle at [h] by value: the callee sees a copy of its members. *)
Definition with_pos {T : Type} (h : hid) (op : iter -> world T -> outcome (world T))
    (w : world T) : outcome (world T) :=
  p ← get_iter h w; op p w.

(** Two containers; the second holds one element and one registered handle. *)
Definition two_vectors (bc : bool) : outcome (world Z) :=
  run [push_back bc 100 5 vec2; begin bc h_it vec2]
      (mk_world {[ vec1 := new_vector 0 0; vec2 := new_vector 0 0 ]} ∅).

(** [10; 20; 30], grown by push_back (storage at 100, 200, then 300 with
    capacity 4); handle 10 is moved to the element 20 and handle 11 is
    [begin()]. *)
Definition scenario_A (bc : bool) : outcome (world Z) :=
  run [push_back bc 100 10 vec1; push_back bc 200 20 vec1;
       push_back bc 300 30 vec1;
       begin bc h_it vec1; advance bc h_it 1;
       begin bc h_begin vec1] fresh_world.

(** [1; 2; 3; 4] with handle 10 on the element 3 (index 2). *)
Definition scenario_B (bc : bool) : outcome (world Z) :=
  run [push_back bc 100 1 vec1; push_back bc 200 2 vec1;
       push_back bc 300 3 vec1; push_back bc 400 4 vec1;
       begin bc h_it vec1; advance bc h_it 2] fresh_world.

(** [1; 2] at capacity 2 with handle 10 on index 0. *)
Definition scenario_C (bc : bool) : outcome (world Z) :=
  run [push_back bc 100 1 vec1; push_back bc 200 2 vec1;
       begin bc h_it vec1] fresh_world.

(** [7; 8] with three handles made by begin(), the second of which has been
    destroyed again: the registry is [h5; tombstone; h6]. *)
Definition scenario_E (bc : bool) : outcome (world Z) :=
  run [push_back bc 100 7 vec1; push_back bc 200 8 vec1;
       begin bc h5 vec1; begin bc h_begin vec1; begin bc h6 vec1;
       destroy h_begin] fresh_world.

(** An empty container with room for four elements and [begin()] as handle
    10, in a build without bounds checking. *)
Definition reserved_empty : outcome (world Z) :=
  run [reserve false 100 4 vec1; begin false h_it vec1] fresh_world.

(** A container without handles next to the container of [holed_world]. *)
Definition plain_and_holed : world Z :=
  mk_world {[ vec1 := new_vector 0 0; vec2 := holed_vector ]}
           (iters holed_world).

(** [7] with [begin()] as handle 10, as push_back and begin() leave the
    default-constructed container. *)
Definition one_element_vector : msiv Z :=
  mk_msiv (mk_stdvector 100 [7] 1) [Some h_it] 100 102.

Definition one_element_world : world Z :=
  mk_world {[ vec1 := one_element_vector ]}
           {[ h_it := mk_iter 100 vec1 100 vec1 ]}.

(** [1; 2; 3; 4] watched by handle 10 on index 2 and handle 11 at begin(),
    beside a second container [5] with handle 5 at its begin(). *)
Definition watched_vector : msiv Z :=
  mk_msiv (mk_stdvector 300 [1; 2; 3; 4] 4) [Some h_it; Some h_begin] 300 305.

Definition spare_vector : msiv Z :=
  mk_msiv (mk_stdvector 500 [5] 1) [Some h5] 500 502.

Definition watched_world : world Z :=
  mk_world {[ vec1 := watched_vector; vec2 := spare_vector ]}
           {[ h_it := mk_iter 302 vec1 300 vec1;
              h_begin := mk_iter 300 vec1 300 vec1;
              h5 := mk_iter 500 vec2 500 vec2 ]}.

(** Two containers without handles. *)
Definition pair_vector_a : msiv Z := mk_msiv (mk_stdvector 100 [1; 2] 2) [] 100 103.
Definition pair_vector_b : msiv Z := mk_msiv (mk_stdvector 500 [5] 1) [] 500 502.

Definition unwatched_pair : world Z :=
  mk_world {[ vec1 := pair_vector_a; vec2 := pair_vector_b ]} ∅.

(** A loader that answers every name with its length. *)
Definition length_loader (_ : list string) (name : string) : option nat :=
  Some (String.length name).

(** * Properties *)

(** ** The registry *)

Lemma trim_trailing_snoc_None (reg : list (option hid)) :
  trim_trailing (reg ++ [None]) = trim_trailing reg.
Proof.
  induction reg as [|s rest IH]; simpl; [done|].
  by rewrite IH.
Qed.

Lemma trim_trailing_snoc_Some (reg : list (option hid)) (h : hid) :
  trim_trailing (reg ++ [Some h]) = reg ++ [Some h].
Proof.
  induction reg as [|s rest IH]; simpl; [done|].
  rewrite IH. destruct rest; simpl; by destruct s.
Qed.

Lemma trim_trailing_split (reg : list (option hid)) :
  exists tail, reg = trim_trailing reg ++ tail /\ Forall (fun s => s = None) tail.
Proof.
  induction reg as [|s rest (tail & Hsplit & Hnone)]; simpl.
  - by exists [].
  - destruct (trim_trailing rest) as [|x rest'] eqn:Htrim.
    + destruct s as [h|].
      * exists tail. simpl in *. split; [by f_equal | done].
      * exists (None :: tail). simpl in *. split; [by f_equal | by constructor].
    + exists tail. split; [|done]. simpl. by rewrite Hsplit at 1.
Qed.

Lemma trim_trailing_last (reg : list (option hid)) :
  last (trim_trailing reg) <> Some None.
Proof.
  induction reg as [|s rest IH]; simpl; [done|].
  destruct (trim_trailing rest) as [|x rest'] eqn:Htrim.
  - by destruct s.
  - by destruct s.
Qed.

Lemma trim_trailing_fixed (reg : list (option hid)) :
  last reg <> Some None -> trim_trailing reg = reg.
Proof.
  induction reg as [|s rest IH] using rev_ind; [done|].
  rewrite last_snoc. destruct s as [h|]; [|done].
  intros _. apply trim_trailing_snoc_Some.
Qed.

Lemma tombstone_absent (it : hid) (reg : list (option hid)) :
  Some it ∉ reg -> map (tombstone it) reg = reg.
Proof.
  induction reg as [|s rest IH]; [done|].
  rewrite not_elem_of_cons. intros [Hne Hrest]. simpl.
  rewrite IH by done. unfold tombstone. by rewrite decide_False.
Qed.

Lemma tombstone_gone (it : hid) (reg : list (option hid)) :
  Some it ∉ map (tombstone it) reg.
Proof.
  induction reg as [|s rest IH]; simpl; [apply not_elem_of_nil|].
  apply not_elem_of_cons. split; [|done].
  unfold tombstone. case_decide; [done | congruence].
Qed.

(** Destroying a handle that was never registered (a copy) leaves a registry
    without trailing tombstone as it is. *)
Lemma removeIterator_slots_absent (it : hid) (reg : list (option hid)) :
  Some it ∉ reg -> last reg <> Some None -> removeIterator_slots it reg = reg.
Proof.
  intros Habs Hlast. unfold removeIterator_slots.
  rewrite tombstone_absent by done. by apply trim_trailing_fixed.
Qed.



(** ** ModelCache::FindModel *)

Section ModelCacheProperties.
Context {NModel : Type}.
Variable LoadModel : list string -> string -> option NModel.

Lemma FindModel_keeps (name n : string) (m : NModel) (st : ModelCache NModel) :
  m_models st !! name = Some m ->
  m_models (snd (FindModel LoadModel n st)) !! name = Some m.
Proof.
  intros Hhit. unfold FindModel.
  destruct (m_models st !! n) as [m'|] eqn:Hn; simpl; [done|].
  destruct (LoadModel (loaded st) n) as [m'|]; simpl; [|done].
  rewrite lookup_insert_ne; [done|]. intros ->. congruence.
Qed.

Lemma lookups_keeps (names : list string) (name : string) (m : NModel)
    (st : ModelCache NModel) :
  m_models st !! name = Some m ->
  m_models (lookups LoadModel names st) !! name = Some m.
Proof.
  revert st. induction names as [|n names IH]; intros st Hhit; simpl; [done|].
  apply IH. by apply FindModel_keeps.
Qed.

Lemma FindModel_hit (name : string) (m : NModel) (st : ModelCache NModel) :
  m_models st !! name = Some m -> FindModel LoadModel name st = (Ok m, st).
Proof. intros Hhit. unfold FindModel. by rewrite Hhit. Qed.

(** C9: a lookup of a name that is cached returns the cached instance and
    leaves the cache and the loader alone, whatever lookups ran in between;
    a lookup of a name that is not cached calls the loader once: when the
    load succeeds the instance is stored and every later lookup returns it
    without loading, when it fails the lookup throws ModelNotFoundException,
    the map is unchanged and the next lookup of the name calls the loader
    again. *)
Theorem FindModel_loads_on_first_lookup (name : string) (st : ModelCache NModel) :
  match m_models st !! name with
  | Some m =>
      forall names,
        let st' := lookups LoadModel names st in
        FindModel LoadModel name st' = (Ok m, st')
  | None =>
      match LoadModel (loaded st) name with
      | Some m =>
          FindModel LoadModel name st
            = (Ok m, mk_ModelCache (<[name := m]> (m_models st)) (loaded st ++ [name]))
          /\ forall names,
               let st' := lookups LoadModel names (snd (FindModel LoadModel name st)) in
               FindModel LoadModel name st' = (Ok m, st')
      | None =>
          let st1 := mk_ModelCache (m_models st) (loaded st ++ [name]) in
          FindModel LoadModel name st = (Abort ModelNotFoundException, st1)
          /\ loaded (snd (FindModel LoadModel name st1)) = loaded st1 ++ [name]
      end
  end.
Proof.
  destruct (m_models st !! name) as [m|] eqn:Hname.
  - intros names st'. apply FindModel_hit. by apply lookups_keeps.
  - destruct (LoadModel (loaded st) name) as [m|] eqn:Hload.
    + assert (Hfirst : FindModel LoadModel name st
        = (Ok m, mk_ModelCache (<[name := m]> (m_models st)) (loaded st ++ [name]))).
      { unfold FindModel. by rewrite Hname, Hload. }
      split; [done|]. intros names st'.
      apply FindModel_hit, lookups_keeps.
      rewrite Hfirst. simpl. apply lookup_insert_eq.
    + intros st1. split.
      * unfold FindModel. by rewrite Hname, Hload.
      * unfold FindModel, st1. simpl. rewrite Hname.
        by destruct (LoadModel (loaded st ++ [name]) name).
Qed.
End ModelCacheProperties.

(** ** rebase and its broadcast *)

Lemma rebase_pos_shifted (offset : Z) (insert_ptr : ptr) (insert_size : Z) (pos : ptr) :
  insert_size <> 0 -> insert_ptr <= pos + offset ->
  rebase_pos offset insert_ptr insert_size pos = pos + offset + insert_size.
Proof.
  intros Hsize Hge. unfold rebase_pos.
  destruct (Z.eqb_spec insert_size 0); [done|].
  destruct (Z.leb_spec insert_ptr (pos + offset)); [done | lia].
Qed.

Lemma rebase_pos_offset_only (offset : Z) (insert_ptr : ptr) (insert_size : Z) (pos : ptr) :
  insert_size = 0 \/ pos + offset < insert_ptr ->
  rebase_pos offset insert_ptr insert_size pos = pos + offset.
Proof.
  intros Hcase. unfold rebase_pos.
  destruct (Z.eqb_spec insert_size 0); [done|].
  destruct (Z.leb_spec insert_ptr (pos + offset)); [lia | done].
Qed.

Lemma rebase_iter_id (bc : bool) (insert_ptr : ptr) (it : iter) :
  rebase_iter bc 0 insert_ptr 0 it = it.
Proof.
  destruct it as [p v s e]. unfold rebase_iter, rebase_pos. simpl.
  rewrite !Z.add_0_r. by destruct bc.
Qed.

Section Broadcast.
Context {T : Type}.
Variable bc : bool.
Variables (offset : Z) (insert_ptr : ptr) (insert_size : Z).

Lemma rebase_Ok (h : hid) (w w' : world T) :
  rebase bc offset insert_ptr insert_size h w = Ok w' ->
  exists it, iters w !! h = Some it
             /\ w' = put_iter h (rebase_iter bc offset insert_ptr insert_size it) w.
Proof.
  unfold rebase, get_iter. destruct (iters w !! h) as [it|]; simpl; [|done].
  intros Hres. exists it. split; [done|].
  destruct bc; simpl in Hres; [|by inversion Hres].
  destruct (assert true _); simpl in Hres; [|done].
  destruct (read_currentEnd _ _); simpl in Hres; [|done].
  destruct (assert true _); simpl in Hres; [|done].
  by inversion Hres.
Qed.

Lemma broadcastRebase_Ok (reg : list (option hid)) (w w' : world T) :
  NoDup (omap id reg) ->
  broadcastRebase bc offset insert_ptr insert_size reg w = Ok w' ->
  vecs w' = vecs w
  /\ (forall h it, Some h ∈ reg -> iters w !! h = Some it ->
        iters w' !! h = Some (rebase_iter bc offset insert_ptr insert_size it))
  /\ (forall h, Some h ∉ reg -> iters w' !! h = iters w !! h).
Proof.
  revert w. induction reg as [|[h0|] rest IH]; intros w Hnodup Hres; simpl in *.
  - inversion Hres; subst. split_and!; [done | | done].
    intros h it Hin. by apply elem_of_nil in Hin.
  - apply NoDup_cons in Hnodup as [Hfresh Hnodup].
    destruct (rebase bc offset insert_ptr insert_size h0 w) as [w1|] eqn:Hstep;
      simpl in Hres; [|done].
    apply rebase_Ok in Hstep as (it0 & Hit0 & ->).
    destruct (IH _ Hnodup Hres) as (Hvecs & Hin & Hout).
    assert (Hh0 : Some h0 ∉ rest).
    { intros Hin0. apply Hfresh. apply list_elem_of_omap. by exists (Some h0). }
    split_and!.
    + by rewrite Hvecs.
    + intros h it Hh Hit. apply elem_of_cons in Hh as [Heq | Hh].
      * inversion Heq; subst h0. rewrite (Hout h Hh0). simpl.
        rewrite lookup_insert_eq. congruence.
      * apply Hin; [done|]. simpl. rewrite lookup_insert_ne; [done|].
        intros ->. by apply Hh0.
    + intros h Hh. apply not_elem_of_cons in Hh as [Hne Hh].
      rewrite (Hout h Hh). simpl. rewrite lookup_insert_ne; [done | congruence].
  - destruct (IH _ Hnodup Hres) as (Hvecs & Hin & Hout). split_and!; [done | |].
    + intros h it Hh Hit. apply elem_of_cons in Hh as [Heq | Hh]; [done|]. by apply Hin.
    + intros h Hh. apply not_elem_of_cons in Hh as [_ Hh]. by apply Hout.
Qed.
End Broadcast.

(** Without bounds checking the broadcast cannot fail as long as every
    registered handle is a live object. *)
Lemma broadcastRebase_release {T : Type} (offset : Z) (insert_ptr : ptr)
    (insert_size : Z) (reg : list (option hid)) (w : world T) :
  (forall h, Some h ∈ reg -> is_Some (iters w !! h)) ->
  exists w', broadcastRebase false offset insert_ptr insert_size reg w = Ok w'.
Proof.
  revert w. induction reg as [|[h0|] rest IH]; intros w Hlive; simpl.
  - by exists w.
  - destruct (Hlive h0) as [it0 Hit0]; [apply elem_of_cons; by left|].
    unfold rebase, get_iter. rewrite Hit0. simpl.
    apply IH. intros h Hh. simpl.
    destruct (decide (h0 = h)) as [->|Hne].
    + rewrite lookup_insert_eq. by eexists.
    + rewrite lookup_insert_ne by done. apply Hlive, elem_of_cons. by right.
  - apply IH. intros h Hh. apply Hlive, elem_of_cons. by right.
Qed.

(** What a completed completeRealloc has done: the handles of the registry
    are rebased, all others and the storage are left alone. *)
Lemma completeRealloc_Ok {T : Type} (bc : bool) (c : vid) (preStart : ptr)
    (insert_pos insert_size : Z) (w w' : world T) (v : msiv T) :
  vecs w !! c = Some v ->
  NoDup (omap id (m_iterators v)) ->
  completeRealloc bc c preStart insert_pos insert_size w = Ok w' ->
  let newStart := newStart_of (m_base v) in
  (forall h it, Some h ∈ m_iterators v -> iters w !! h = Some it ->
     iters w' !! h
       = Some (rebase_iter bc (newStart - preStart) (newStart + insert_pos) insert_size it))
  /\ (forall h, Some h ∉ m_iterators v -> iters w' !! h = iters w !! h)
  /\ (exists v', vecs w' !! c = Some v'
                 /\ m_base v' = m_base v /\ m_iterators v' = m_iterators v)
  /\ (forall c', c' <> c -> vecs w' !! c' = vecs w !! c').
Proof.
  intros Hc Hnodup Hres newStart.
  unfold completeRealloc, get_vec in Hres. rewrite Hc in Hres. simpl in Hres.
  fold newStart in Hres.
  destruct ((newStart - preStart =? 0) && (insert_size =? 0)) eqn:Hearly.
  - inversion Hres; subst w'.
    apply andb_true_iff in Hearly as [Hoff Hsize].
    apply Z.eqb_eq in Hoff, Hsize. rewrite Hoff, Hsize.
    split_and!; [| done | by exists v | done].
    intros h it _ Hit. by rewrite rebase_iter_id.
  - apply broadcastRebase_Ok in Hres as (Hvecs & Hin & Hout); [|done].
    simpl in *. split_and!; [done | done | |].
    + rewrite Hvecs, lookup_insert_eq. eexists. split; [done|].
      destruct bc; [|done]. by destruct (negb _).
    + intros c' Hne. by rewrite Hvecs, lookup_insert_ne.
Qed.

Lemma completeRealloc_release {T : Type} (c : vid) (preStart : ptr)
    (insert_pos insert_size : Z) (w : world T) (v : msiv T) :
  vecs w !! c = Some v ->
  (forall h, Some h ∈ m_iterators v -> is_Some (iters w !! h)) ->
  exists w', completeRealloc false c preStart insert_pos insert_size w = Ok w'.
Proof.
  intros Hc Hlive. unfold completeRealloc, get_vec. rewrite Hc. simpl.
  destruct (_ && _); [by exists w|].
  by apply broadcastRebase_release.
Qed.

(** C3: the rebase broadcast of completeRealloc runs with
    offset = newStart - preStart and insertionPoint = newStart + insert_pos.
    It moves every registered handle by offset, and by insert_size on top
    exactly when insert_size is not zero and the shifted position is at or
    after insertionPoint; a handle whose shifted position is before
    insertionPoint gets the offset only.  Without bounds checking the
    broadcast always completes. *)
Theorem completeRealloc_rebases_every_handle {T : Type} (bc : bool) (c : vid)
    (preStart : ptr) (insert_pos insertionSize : Z) (w : world T) (v : msiv T) :
  vecs w !! c = Some v ->
  NoDup (omap id (m_iterators v)) ->
  (forall h, Some h ∈ m_iterators v -> is_Some (iters w !! h)) ->
  let offset := newStart_of (m_base v) - preStart in
  let insertionPoint := newStart_of (m_base v) + insert_pos in
  (exists w', completeRealloc false c preStart insert_pos insertionSize w = Ok w')
  /\ forall w', completeRealloc bc c preStart insert_pos insertionSize w = Ok w' ->
       forall h it, Some h ∈ m_iterators v -> iters w !! h = Some it ->
         exists it', iters w' !! h = Some it'
           /\ (insertionSize <> 0 /\ insertionPoint <= m_pos it + offset ->
                 m_pos it' = m_pos it + offset + insertionSize)
           /\ (insertionSize = 0 \/ m_pos it + offset < insertionPoint ->
                 m_pos it' = m_pos it + offset).
Proof.
  intros Hc Hnodup Hlive offset insertionPoint. split.
  - by apply (completeRealloc_release c preStart insert_pos insertionSize w v).
  - intros w' Hres h it Hh Hit.
    destruct (completeRealloc_Ok bc c preStart insert_pos insertionSize w w' v
                Hc Hnodup Hres) as (Hin & _).
    eexists. split; [by apply Hin|]. simpl. split.
    + intros [Hsize Hge]. by apply rebase_pos_shifted.
    + intros Hcase. by apply rebase_pos_offset_only.
Qed.

Lemma completeRealloc_rebases_every_handle_witness :
  let offset := newStart_of (m_base holed_vector) - 60 in
  let insertionPoint := newStart_of (m_base holed_vector) + 1 in
  (exists w', completeRealloc false vec1 60 1 1 holed_world = Ok w')
  /\ forall w', completeRealloc true vec1 60 1 1 holed_world = Ok w' ->
       forall h it, Some h ∈ m_iterators holed_vector -> iters holed_world !! h = Some it ->
         exists it', iters w' !! h = Some it'
           /\ (1 <> 0 /\ insertionPoint <= m_pos it + offset ->
                 m_pos it' = m_pos it + offset + 1)
           /\ (1 = 0 \/ m_pos it + offset < insertionPoint ->
                 m_pos it' = m_pos it + offset).
Proof.
  apply (completeRealloc_rebases_every_handle true vec1 60 1 1
           holed_world holed_vector).
  - reflexivity.
  - apply (bool_decide_unpack _). vm_compute. exact I.
  - intros h Hh. simpl in Hh.
    repeat (apply elem_of_cons in Hh as [Hh | Hh]);
      try (inversion Hh; subst h; vm_compute; eauto); try done;
      try by apply elem_of_nil in Hh.
Defined.

(** ** clear and swap *)

Lemma iteratorCount_loop_tombstone {T : Type} (w : world T)
    (reg : list (option hid)) (s : nat) :
  None ∈ reg -> Forall (fun x => forall h, x = Some h -> is_Some (iters w !! h)) reg ->
  iteratorCount_loop w reg s = Abort UndefinedBehaviour.
Proof.
  revert s. induction reg as [|[h|] rest IH]; intros s Hin Hlive.
  - by apply elem_of_nil in Hin.
  - apply elem_of_cons in Hin as [Hin | Hin]; [done|].
    inversion Hlive as [|x l Hh Hrest]; subst.
    destruct (Hh h eq_refl) as [it Hit]. simpl. unfold get_iter. rewrite Hit. simpl.
    by apply IH.
  - done.
Qed.

(** C5: three handles are made by begin() and the second is destroyed, so
    the registry is [h5; tombstone; h6] with two live handles.  The spec's
    liveCount is 2, and clear() and both swap() forms should fail the
    assertion.  The loop of iteratorCount dereferences every slot, so with
    bounds checking all three calls reach the dereference of the tombstone,
    a null pointer, before the assertion is tested.  The loop of
    completeRealloc, which tests the slot itself, passes over the same
    registry, as push_back shows. *)
Theorem clear_swap_dereference_tombstones :
  (w ← scenario_E true; registry_of vec1 w) = Ok [Some h5; None; Some h6]
  /\ liveCount [Some h5; None; Some h6] = 2%nat
  /\ (w ← scenario_E true; iteratorCount vec1 w) = Abort UndefinedBehaviour
  /\ (w ← scenario_E true; clear true vec1 w) = Abort UndefinedBehaviour
  /\ (w ← scenario_E true;
      r ← swap_storage true (mk_stdvector 500 [1; 2] 2) vec1 w; Ok (fst r))
     = Abort UndefinedBehaviour
  /\ (w ← scenario_E true;
      swap true vec2 vec1 (put_vec vec2 (new_vector 0 0) w))
     = Abort UndefinedBehaviour
  /\ (w ← scenario_E true; w' ← push_back true 300 9 vec1 w; registry_of vec1 w')
     = Ok [Some h5; None; Some h6].
Proof. split_and!; reflexivity. Qed.

(** ** Handles follow their elements *)

Lemma lookup_spliced {A : Type} (l xs : list A) (i k : nat) :
  (i <= length l)%nat ->
  (take i l ++ xs ++ drop i l) !! (if (i <=? k)%nat then (k + length xs)%nat else k)
    = l !! k.
Proof.
  intros Hi. destruct (Nat.leb_spec i k).
  - rewrite lookup_app_r by (rewrite length_take; lia).
    rewrite lookup_app_r by (rewrite length_take; lia).
    rewrite lookup_drop, length_take. f_equal. lia.
  - rewrite lookup_app_l by (rewrite length_take; lia).
    by apply lookup_take_lt.
Qed.

Lemma lookup_cut {A : Type} (l : list A) (i j k : nat) :
  (i <= j)%nat -> (j <= length l)%nat -> (k < i \/ j <= k)%nat ->
  (take i l ++ drop j l) !! (if (j <=? k)%nat then (k - (j - i))%nat else k) = l !! k.
Proof.
  intros Hij Hj Hout. destruct (Nat.leb_spec j k).
  - rewrite lookup_app_r by (rewrite length_take; lia).
    rewrite lookup_drop, length_take. f_equal. lia.
  - rewrite lookup_app_l by (rewrite length_take; lia).
    apply lookup_take_lt. lia.
Qed.

Section Tracking.
Context {T : Type}.
Variable bc : bool.

(** The backing store was changed from [m_base v] to [b'] and
    completeRealloc has run: a handle that was on index [k] is on index [k]
    of the new storage, moved by [insert_size] when [insert_pos <= k]. *)
Lemma rebase_after_mutation (c : vid) (h : hid) (k : nat) (w w' : world T)
    (v : msiv T) (it : iter) (b' : stdvector T) (insert_pos insert_size : Z) :
  vecs w !! c = Some v -> iters w !! h = Some it ->
  Some h ∈ m_iterators v -> NoDup (omap id (m_iterators v)) ->
  m_pos it = sv_data (m_base v) + Z.of_nat k ->
  (0 < sv_size b')%nat ->
  completeRealloc bc c (sv_data (m_base v)) insert_pos insert_size
    (put_vec c (set_base b' v) w) = Ok w' ->
  exists v' it',
    vecs w' !! c = Some v' /\ m_base v' = b' /\ m_iterators v' = m_iterators v
    /\ iters w' !! h = Some it'
    /\ m_pos it' = sv_data b' + Z.of_nat k
         + (if negb (insert_size =? 0) && (insert_pos <=? Z.of_nat k)
            then insert_size else 0).
Proof.
  intros Hc Hit Hreg Hnodup Hpos Hsize Hres.
  eapply (completeRealloc_Ok bc c _ _ _ _ w' (set_base b' v)) in Hres
    as (Hin & _ & (v' & Hv' & Hbase & Hregs) & _);
    [| by apply lookup_insert_eq | done].
  specialize (Hin h it Hreg Hit). simpl in *.
  exists v', (rebase_iter bc (newStart_of b' - sv_data (m_base v))
               (newStart_of b' + insert_pos) insert_size it).
  split_and!; try done.
  simpl. unfold rebase_pos, newStart_of.
  apply Nat.ltb_lt in Hsize. rewrite Hsize, Hpos.
  replace (sv_data (m_base v) + Z.of_nat k + (sv_data b' - sv_data (m_base v)))
    with (sv_data b' + Z.of_nat k) by lia.
  destruct (insert_size =? 0); simpl; [lia|].
  destruct (Z.leb_spec (sv_data b' + insert_pos) (sv_data b' + Z.of_nat k));
    destruct (Z.leb_spec insert_pos (Z.of_nat k)); lia.
Qed.

(** The constructor adds the new handle to the world and to the end of the
    registry and touches nothing else. *)
Lemma construct_Ok (ret : hid) (pos : ptr) (c : vid) (w w' : world T) :
  construct bc ret pos c w = Ok w' ->
  exists v start,
    vecs w !! c = Some v
    /\ w' = put_vec c (set_iterators (m_iterators v ++ [Some ret]) v)
              (put_iter ret (mk_iter pos c start c) w).
Proof.
  unfold construct, get_vec. destruct (vecs w !! c) as [v|] eqn:Hc; simpl; [|done].
  destruct (if bc then _ else _) as [start|]; simpl; [|done].
  unfold addIterator, get_vec. simpl. rewrite Hc. simpl.
  intros Hres. inversion Hres. by exists v, start.
Qed.

Lemma on_element_construct (ret : hid) (pos : ptr) (c : vid) (h : hid) (k : nat)
    (w w' : world T) :
  on_element w c h k ->
  (forall v, vecs w !! c = Some v -> Some ret ∉ m_iterators v) ->
  construct bc ret pos c w = Ok w' ->
  on_element w' c h k /\ element w' c k = element w c k.
Proof.
  intros (v & it & Hc & Hit & Hreg & Hnodup & Hk & Hpos) Hfresh Hres.
  apply construct_Ok in Hres as (v0 & start & Hc0 & ->).
  rewrite Hc in Hc0. inversion Hc0; subst v0.
  specialize (Hfresh v Hc).
  assert (Hne : ret <> h) by (intros ->; done).
  split.
  - exists (set_iterators (m_iterators v ++ [Some ret]) v), it. simpl.
    rewrite lookup_insert_eq, lookup_insert_ne by done.
    split_and!; try done.
    + apply elem_of_app. by left.
    + rewrite omap_app. simpl. apply NoDup_app. split_and!; [done | | ].
      * intros x Hx Hx'. apply list_elem_of_singleton in Hx'. subst x.
        apply list_elem_of_omap in Hx as (y & Hy & Hyx). simpl in Hyx. by subst y.
      * apply NoDup_singleton.
  - unfold element. simpl. by rewrite lookup_insert_eq, Hc.
Qed.

(** push_back: every handle on an element stays on it. *)
Lemma push_back_tracks (na : ptr) (x : T) (c : vid) (h : hid) (k : nat)
    (w w' : world T) :
  on_element w c h k ->
  push_back bc na x c w = Ok w' ->
  on_element w' c h k /\ element w' c k = element w c k.
Proof.
  intros (v & it & Hc & Hit & Hreg & Hnodup & Hk & Hpos) Hres.
  unfold push_back, get_vec in Hres. rewrite Hc in Hres. simpl in Hres.
  eapply rebase_after_mutation in Hres
    as (v' & it' & Hc' & Hbase & Hregs & Hit' & Hpos'); try done;
    [| unfold sv_size; simpl; rewrite length_app; simpl; lia].
  unfold sv_size in *.
  destruct (Z.leb_spec (Z.of_nat (length (sv_elems (m_base v)))) (Z.of_nat k));
    [lia|]. rewrite andb_false_r, Z.add_0_r in Hpos'.
  split.
  - exists v', it'. rewrite Hbase, Hregs. simpl.
    split_and!; try done. unfold sv_size. simpl. rewrite length_app. simpl. lia.
  - unfold element. rewrite Hc, Hc'. simpl. rewrite Hbase. simpl.
    by rewrite lookup_app_l.
Qed.

(** Every insert overload: the elements [xs] are spliced in at [pos] and a
    handle that was on index [k] is rebased with the [insert_size] the
    overload passes on. *)
Lemma insert_with_rebased (na : ptr) (pos : iter) (xs : list T) (insert_size : Z)
    (ret : hid) (c : vid) (h : hid) (i k : nat) (w w' : world T) :
  on_element w c h k ->
  pos_index w c pos i ->
  (forall v, vecs w !! c = Some v -> Some ret ∉ m_iterators v) ->
  insert_with bc na pos xs insert_size ret c w = Ok w' ->
  exists v v' it',
    vecs w !! c = Some v /\ vecs w' !! c = Some v' /\ iters w' !! h = Some it'
    /\ Some h ∈ m_iterators v' /\ NoDup (omap id (m_iterators v'))
    /\ (i <= sv_size (m_base v))%nat
    /\ sv_elems (m_base v')
         = take i (sv_elems (m_base v)) ++ xs ++ drop i (sv_elems (m_base v))
    /\ m_pos it' = sv_data (m_base v') + Z.of_nat k
         + (if negb (insert_size =? 0) && (i <=? k)%nat then insert_size else 0).
Proof.
  intros (v & it & Hc & Hit & Hreg & Hnodup & Hk & Hpos) (v0 & Hc0 & Hi) Hfresh Hres.
  rewrite Hc in Hc0. inversion Hc0; subst v0. clear Hc0.
  unfold insert_with, get_vec in Hres. rewrite Hc in Hres. simpl in Hres.
  replace (m_pos pos - sv_data (m_base v)) with (Z.of_nat i) in Hres by lia.
  unfold sv_insert in Hres.
  destruct ((0 <=? Z.of_nat i) && (Z.of_nat i <=? Z.of_nat (sv_size (m_base v))))
    eqn:Hrange; simpl in Hres; [|done].
  apply andb_true_iff in Hrange as [_ Hle]. apply Z.leb_le in Hle.
  rewrite Nat2Z.id in Hres.
  destruct (completeRealloc _ _ _ _ _ _) as [w1|] eqn:Hrealloc; simpl in Hres; [|done].
  eapply rebase_after_mutation in Hrealloc
    as (v' & it' & Hc' & Hbase & Hregs & Hit' & Hpos'); try done;
    [| unfold sv_size in *; simpl; rewrite !length_app, length_take, length_drop; lia].
  unfold get_vec in Hres. rewrite Hc' in Hres. simpl in Hres.
  apply construct_Ok in Hres as (v1 & start & Hc1 & ->).
  rewrite Hc' in Hc1. inversion Hc1; subst v1. clear Hc1.
  specialize (Hfresh v Hc).
  assert (Hne : ret <> h) by (intros ->; done).
  exists v, (set_iterators (m_iterators v' ++ [Some ret]) v'), it'. simpl.
  rewrite lookup_insert_eq, lookup_insert_ne, Hbase, Hregs by done. simpl.
  split_and!; try done.
  - apply elem_of_app. by left.
  - rewrite omap_app. simpl. apply NoDup_app. split_and!; [done | | ].
    + intros x Hx Hx'. apply list_elem_of_singleton in Hx'. subst x.
      apply list_elem_of_omap in Hx as (y & Hy & Hyx). simpl in Hyx. by subst y.
    + apply NoDup_singleton.
  - lia.
  - rewrite Hpos'. f_equal.
    destruct (Nat.leb_spec i k); destruct (Z.leb_spec (Z.of_nat i) (Z.of_nat k));
      try lia; done.
Qed.

(** insert(pos, start, last), insert(pos, ilist) and, with one element,
    insert(pos, val): a handle on an element at or after [pos] moves on by
    the number of inserted elements, one before [pos] stays. *)
Lemma insert_range_tracks (na : ptr) (pos : iter) (xs : list T) (ret : hid)
    (c : vid) (h : hid) (i k : nat) (w w' : world T) :
  on_element w c h k ->
  pos_index w c pos i ->
  (forall v, vecs w !! c = Some v -> Some ret ∉ m_iterators v) ->
  insert_range bc na pos xs ret c w = Ok w' ->
  let k' := if (i <=? k)%nat then (k + length xs)%nat else k in
  on_element w' c h k' /\ element w' c k' = element w c k.
Proof.
  intros Hon Hi Hfresh Hres k'.
  pose proof Hon as (v0 & it & Hc0 & _ & _ & _ & Hk & _).
  destruct (insert_with_rebased na pos xs _ ret c h i k w w' Hon Hi Hfresh Hres)
    as (v & v' & it' & Hc & Hc' & Hit' & Hreg' & Hnodup' & Hile & Helems & Hpos').
  rewrite Hc0 in Hc. inversion Hc; subst v0. clear Hc.
  split.
  - exists v', it'. split_and!; try done.
    + unfold sv_size in *. rewrite Helems.
      rewrite !length_app, length_take, length_drop. unfold k'.
      destruct (i <=? k)%nat; lia.
    + rewrite Hpos'. unfold k'.
      destruct (Nat.leb_spec i k);
        destruct (Z.eqb_spec (Z.of_nat (length xs)) 0); simpl; lia.
  - unfold element. rewrite Hc0, Hc'. simpl. rewrite Helems.
    by apply lookup_spliced.
Qed.

(** insert(pos, count, value): the element a handle was on moves on by
    [count], the handle by one. *)
Lemma insert_fill_moves_handle_by_one (na : ptr) (pos : iter) (count : nat) (value : T)
    (ret : hid) (c : vid) (h : hid) (i k : nat) (w w' : world T) :
  on_element w c h k ->
  pos_index w c pos i ->
  (forall v, vecs w !! c = Some v -> Some ret ∉ m_iterators v) ->
  (i <= k)%nat ->
  insert_fill bc na pos count value ret c w = Ok w' ->
  element w' c (k + count) = element w c k
  /\ exists v' it', vecs w' !! c = Some v' /\ iters w' !! h = Some it'
       /\ m_pos it' = sv_data (m_base v') + Z.of_nat (k + 1).
Proof.
  intros Hon Hi Hfresh Hik Hres.
  pose proof Hon as (v0 & it & Hc0 & _).
  destruct (insert_with_rebased na pos _ _ ret c h i k w w' Hon Hi Hfresh Hres)
    as (v & v' & it' & Hc & Hc' & Hit' & Hreg' & Hnodup' & Hile & Helems & Hpos').
  rewrite Hc0 in Hc. inversion Hc; subst v0. clear Hc.
  apply Nat.leb_le in Hik. rewrite Hik in Hpos'. simpl in Hpos'.
  split.
  - unfold element. rewrite Hc0, Hc'. simpl. rewrite Helems.
    pose proof (lookup_spliced (sv_elems (m_base v)) (replicate count value) i k Hile)
      as Hlookup.
    by rewrite Hik, length_replicate in Hlookup.
  - exists v', it'. split_and!; [done | done | lia].
Qed.

(** erase(first, last): a handle on an element outside the erased range
    follows it. *)
Lemma erase_range_tracks (first last : iter) (ret : hid)
    (c : vid) (h : hid) (i j k : nat) (w w' : world T) :
  on_element w c h k ->
  pos_index w c first i -> pos_index w c last j ->
  (forall v, vecs w !! c = Some v -> Some ret ∉ m_iterators v) ->
  (k < i \/ j <= k)%nat ->
  erase_range bc first last ret c w = Ok w' ->
  let k' := if (j <=? k)%nat then (k - (j - i))%nat else k in
  on_element w' c h k' /\ element w' c k' = element w c k.
Proof.
  intros (v & it & Hc & Hit & Hreg & Hnodup & Hk & Hpos) (v0 & Hc0 & Hi) (v1 & Hc1 & Hj)
    Hfresh Hout Hres k'.
  rewrite Hc in Hc0, Hc1. inversion Hc0; subst v0. inversion Hc1; subst v1. clear Hc0 Hc1.
  unfold erase_range, get_vec in Hres. rewrite Hc in Hres. simpl in Hres.
  replace (m_pos first - sv_data (m_base v)) with (Z.of_nat i) in Hres by lia.
  replace (m_pos last - sv_data (m_base v)) with (Z.of_nat j) in Hres by lia.
  replace (m_pos first - m_pos last) with (Z.of_nat i - Z.of_nat j) in Hres by lia.
  unfold sv_erase_range in Hres.
  destruct ((0 <=? Z.of_nat i) && (Z.of_nat i <=? Z.of_nat j)
            && (Z.of_nat j <=? Z.of_nat (sv_size (m_base v)))) eqn:Hrange;
    simpl in Hres; [|done].
  apply andb_true_iff in Hrange as [Hrange Hjle].
  apply andb_true_iff in Hrange as [_ Hij].
  apply Z.leb_le in Hjle, Hij. rewrite !Nat2Z.id in Hres.
  destruct (assert bc _); simpl in Hres; [|done].
  destruct (completeRealloc _ _ _ _ _ _) as [w1|] eqn:Hrealloc; simpl in Hres; [|done].
  eapply rebase_after_mutation in Hrealloc
    as (v' & it' & Hc' & Hbase & Hregs & Hit' & Hpos'); try done;
    [| unfold sv_size in *; simpl; rewrite !length_app, length_take, length_drop; lia].
  unfold get_vec in Hres. rewrite Hc' in Hres. simpl in Hres.
  assert (Hon : on_element w1 c h k' /\ element w1 c k' = element w c k).
  { split.
    - exists v', it'. rewrite Hbase, Hregs. simpl. split_and!; try done.
      + unfold sv_size in *. simpl.
        rewrite !length_app, length_take, length_drop. unfold k'.
        destruct (Nat.leb_spec j k); lia.
      + rewrite Hpos'. unfold k'.
        destruct (Nat.leb_spec j k); destruct (Z.leb_spec (Z.of_nat i) (Z.of_nat k));
          try lia; destruct (Z.eqb_spec (Z.of_nat i - Z.of_nat j) 0); simpl; lia.
    - unfold element. rewrite Hc, Hc'. simpl. rewrite Hbase. simpl.
      by apply lookup_cut; unfold sv_size in *; lia. }
  destruct Hon as [Hon Helem]. rewrite <- Helem.
  eapply on_element_construct; [done | | done].
  intros v1 Hv1. rewrite Hc' in Hv1. inversion Hv1; subst v1. rewrite Hregs. by apply Hfresh.
Qed.

(** insert(pos, val) is the range insert of one element. *)
Lemma insert_tracks (na : ptr) (pos : iter) (val : T) (ret : hid)
    (c : vid) (h : hid) (i k : nat) (w w' : world T) :
  on_element w c h k ->
  pos_index w c pos i ->
  (forall v, vecs w !! c = Some v -> Some ret ∉ m_iterators v) ->
  insert bc na pos val ret c w = Ok w' ->
  let k' := if (i <=? k)%nat then (k + 1)%nat else k in
  on_element w' c h k' /\ element w' c k' = element w c k.
Proof.
  intros Hon Hpos Hfresh Hres.
  by apply (insert_range_tracks na pos [val] ret c h i k w w').
Qed.

(** erase(pos): a handle on any other element follows it. *)
Lemma erase_tracks (pos : iter) (ret : hid)
    (c : vid) (h : hid) (i k : nat) (w w' : world T) :
  on_element w c h k ->
  pos_index w c pos i ->
  (forall v, vecs w !! c = Some v -> Some ret ∉ m_iterators v) ->
  k <> i ->
  erase bc pos ret c w = Ok w' ->
  let k' := if (i <? k)%nat then (k - 1)%nat else k in
  on_element w' c h k' /\ element w' c k' = element w c k.
Proof.
  intros Hon Hi Hfresh Hne Hres k'.
  pose (last := mk_iter (m_pos pos + 1) (m_vec pos) (it_currentStart pos) (it_currentEnd pos)).
  assert (Hlast : pos_index w c last (S i)).
  { destruct Hi as (v & Hc & Hi). exists v. split; [done|]. simpl. lia. }
  assert (Hres' : erase_range bc pos last ret c w = Ok w').
  { destruct Hi as (v & Hc & Hi).
    unfold erase, erase_range, get_vec in *. rewrite Hc in *. simpl in *.
    unfold sv_erase in Hres.
    destruct (_ <? _); simpl in Hres; [|done].
    replace (m_pos pos + 1 - sv_data (m_base v))
      with (m_pos pos - sv_data (m_base v) + 1) by lia.
    destruct (sv_erase_range _ _ _); simpl in *; [|done].
    replace (m_pos pos - (m_pos pos + 1)) with (-1) by lia.
    unfold assert. rewrite bool_decide_eq_true_2 by done.
    rewrite andb_false_r. by simpl. }
  destruct (erase_range_tracks pos last ret c h i (S i) k w w' Hon Hi Hlast Hfresh)
    as [Hon' Helem]; [lia | done |].
  replace k' with (if (S i <=? k)%nat then (k - (S i - i))%nat else k); [done|].
  unfold k'. destruct (Nat.leb_spec (S i) k); destruct (Nat.ltb_spec i k); lia.
Qed.

(** pop_back: a handle on an element other than the last stays on it. *)
Lemma pop_back_tracks (c : vid) (h : hid) (k : nat) (w w' : world T) :
  on_element w c h k ->
  (forall v, vecs w !! c = Some v -> (S k < sv_size (m_base v))%nat) ->
  pop_back bc c w = Ok w' ->
  on_element w' c h k /\ element w' c k = element w c k.
Proof.
  intros (v & it & Hc & Hit & Hreg & Hnodup & Hk & Hpos) Hnotlast Hres.
  specialize (Hnotlast v Hc).
  assert (Hlen : length (removelast (sv_elems (m_base v)))
                 = (length (sv_elems (m_base v)) - 1)%nat).
  { rewrite removelast_firstn_len, length_take. lia. }
  assert (Hpop : sv_pop_back (m_base v)
                 = Some (mk_stdvector (sv_data (m_base v))
                           (removelast (sv_elems (m_base v))) (sv_capacity (m_base v)))).
  { unfold sv_pop_back, sv_size in *.
    destruct (sv_elems (m_base v)); [simpl in Hk; lia | done]. }
  unfold pop_back, get_vec in Hres. rewrite Hc in Hres. simpl in Hres.
  destruct (assert bc _); simpl in Hres; [|done].
  rewrite Hpop in Hres. simpl in Hres. unfold sv_size in *.
  eapply rebase_after_mutation in Hres
    as (v' & it' & Hc' & Hbase & Hregs & Hit' & Hpos'); try done;
    [| unfold sv_size; cbn [sv_elems]; rewrite Hlen; lia].
  unfold sv_size in Hpos'. cbn [sv_elems] in Hpos'. rewrite Hlen in Hpos'.
  destruct (Z.leb_spec (Z.of_nat (length (sv_elems (m_base v)) - 1)) (Z.of_nat k)); [lia|].
  rewrite andb_false_r, Z.add_0_r in Hpos'.
  split.
  - exists v', it'. rewrite Hbase, Hregs. split_and!; try done.
    unfold sv_size. cbn [sv_elems]. rewrite Hlen. lia.
  - unfold element. rewrite Hc, Hc'. simpl. rewrite Hbase. cbn [sv_elems].
    rewrite removelast_firstn_len. apply lookup_take_lt. lia.
Qed.

(** resize: a handle on an element that survives stays on it. *)
Lemma resize_tracks (na : ptr) (count : nat) (value : T)
    (c : vid) (h : hid) (k : nat) (w w' : world T) :
  on_element w c h k ->
  (k < count)%nat ->
  resize bc na count value c w = Ok w' ->
  on_element w' c h k /\ element w' c k = element w c k.
Proof.
  intros Hon Hsurvives Hres.
  pose proof Hon as (v & it & Hc & Hit & Hreg & Hnodup & Hk & Hpos).
  unfold resize, get_vec in Hres. rewrite Hc in Hres. simpl in Hres.
  destruct (Nat.eqb_spec count (sv_size (m_base v))) as [Heq | Hne].
  { inversion Hres; subst w'. done. }
  assert (Hsize : sv_size (sv_resize na count value (m_base v)) = count).
  { unfold sv_resize, sv_size in *.
    destruct (Nat.leb_spec count (length (sv_elems (m_base v)))); simpl.
    - rewrite length_take. lia.
    - rewrite length_app, length_replicate. lia. }
  eapply rebase_after_mutation in Hres
    as (v' & it' & Hc' & Hbase & Hregs & Hit' & Hpos'); try done;
    [| rewrite Hsize; lia].
  rewrite Hsize in Hpos'.
  assert (Hnoshift : ((if (sv_size (m_base v) <? count)%nat
                       then Z.of_nat (sv_size (m_base v)) else Z.of_nat count)
                      <=? Z.of_nat k) = false).
  { destruct (Nat.ltb_spec (sv_size (m_base v)) count); apply Z.leb_gt; lia. }
  rewrite Hnoshift, andb_false_r, Z.add_0_r in Hpos'.
  split.
  - exists v', it'. rewrite Hbase, Hregs, Hsize. by split_and!.
  - unfold element. rewrite Hc, Hc'. simpl. rewrite Hbase.
    unfold sv_resize, sv_size in *.
    destruct (Nat.leb_spec count (length (sv_elems (m_base v)))); simpl.
    + by apply lookup_take_lt.
    + by apply lookup_app_l.
Qed.

(** reserve and shrink_to_fit: every handle on an element stays on it,
    whether the storage moves or not. *)
Lemma reserve_tracks (na : ptr) (cap : nat) (c : vid) (h : hid) (k : nat)
    (w w' : world T) :
  on_element w c h k ->
  reserve bc na cap c w = Ok w' ->
  on_element w' c h k /\ element w' c k = element w c k.
Proof.
  intros (v & it & Hc & Hit & Hreg & Hnodup & Hk & Hpos) Hres.
  unfold reserve, get_vec in Hres. rewrite Hc in Hres. simpl in Hres.
  assert (Helems : sv_elems (sv_reserve na cap (m_base v)) = sv_elems (m_base v)).
  { unfold sv_reserve. by destruct (_ <=? _)%nat. }
  eapply rebase_after_mutation in Hres
    as (v' & it' & Hc' & Hbase & Hregs & Hit' & Hpos'); try done;
    [| unfold sv_size in *; rewrite Helems; lia].
  simpl in Hpos'. rewrite Z.add_0_r in Hpos'.
  split.
  - exists v', it'. rewrite Hbase, Hregs. unfold sv_size in *. rewrite Helems.
    by split_and!.
  - unfold element. rewrite Hc, Hc'. simpl. by rewrite Hbase, Helems.
Qed.

Lemma shrink_to_fit_tracks (na : ptr) (c : vid) (h : hid) (k : nat)
    (w w' : world T) :
  on_element w c h k ->
  shrink_to_fit bc na c w = Ok w' ->
  on_element w' c h k /\ element w' c k = element w c k.
Proof.
  intros (v & it & Hc & Hit & Hreg & Hnodup & Hk & Hpos) Hres.
  unfold shrink_to_fit, get_vec in Hres. rewrite Hc in Hres. simpl in Hres.
  assert (Helems : sv_elems (sv_shrink_to_fit na (m_base v)) = sv_elems (m_base v)).
  { unfold sv_shrink_to_fit. by destruct (_ <=? _)%nat. }
  eapply rebase_after_mutation in Hres
    as (v' & it' & Hc' & Hbase & Hregs & Hit' & Hpos'); try done;
    [| unfold sv_size in *; rewrite Helems; lia].
  simpl in Hpos'. rewrite Z.add_0_r in Hpos'.
  split.
  - exists v', it'. rewrite Hbase, Hregs. unfold sv_size in *. rewrite Helems.
    by split_and!.
  - unfold element. rewrite Hc, Hc'. simpl. by rewrite Hbase, Helems.
Qed.
End Tracking.

Section HandleMoves.
Context {T : Type}.
Variable bc : bool.

(** erase(pos) with a handle on the erased element itself: the returned
    iterator is on the next element, the registered handle one before it. *)
Lemma erase_moves_own_handle_back (pos : iter) (ret : hid) (c : vid) (h : hid)
    (k : nat) (w w' : world T) :
  on_element w c h k ->
  pos_index w c pos k ->
  (forall v, vecs w !! c = Some v ->
     (Some ret ∉ m_iterators v) /\ (1 < sv_size (m_base v))%nat) ->
  erase bc pos ret c w = Ok w' ->
  exists v' it' itr,
    vecs w' !! c = Some v' /\ iters w' !! h = Some it' /\ iters w' !! ret = Some itr
    /\ m_pos itr = sv_data (m_base v') + Z.of_nat k
    /\ m_pos it' = sv_data (m_base v') + Z.of_nat k - 1.
Proof.
  intros (v & it & Hc & Hit & Hreg & Hnodup & Hk & Hpos) (v0 & Hc0 & Hi) Hfresh Hres.
  rewrite Hc in Hc0. inversion Hc0; subst v0. clear Hc0.
  destruct (Hfresh v Hc) as [Hret Hsize].
  unfold erase, get_vec in Hres. rewrite Hc in Hres. simpl in Hres.
  replace (m_pos pos - sv_data (m_base v)) with (Z.of_nat k) in Hres by lia.
  unfold sv_erase, sv_erase_range in Hres.
  destruct (_ <? _); simpl in Hres; [|done].
  destruct (_ && _); simpl in Hres; [|done].
  destruct (completeRealloc _ _ _ _ _ _) as [w1|] eqn:Hrealloc; simpl in Hres; [|done].
  eapply rebase_after_mutation in Hrealloc
    as (v' & it' & Hc' & Hbase & Hregs & Hit' & Hpos'); try done;
    [| unfold sv_size in *; simpl; rewrite !length_app, length_take, length_drop; lia].
  unfold get_vec in Hres. rewrite Hc' in Hres. simpl in Hres.
  apply construct_Ok in Hres as (v1 & start & Hc1 & ->).
  rewrite Hc' in Hc1. inversion Hc1; subst v1. clear Hc1.
  assert (Hne : ret <> h) by (intros ->; done).
  exists (set_iterators (m_iterators v' ++ [Some ret]) v'), it',
    (mk_iter (sv_data (m_base v') + Z.of_nat k) c start c). simpl.
  rewrite !lookup_insert_eq, lookup_insert_ne by done.
  split_and!; try done.
  rewrite Hpos', Hbase. simpl.
  destruct (Z.leb_spec (Z.of_nat k) (Z.of_nat k)); simpl; lia.
Qed.

(** Copy assignment from a handle of another container: the handle leaves
    the registry of its old container and is appended to that of the new
    one. *)
Lemma assign_from_other_container (this other : hid) (w : world T)
    (t o : iter) (vt vo : msiv T) :
  iters w !! this = Some t -> iters w !! other = Some o ->
  m_vec t <> m_vec o ->
  vecs w !! m_vec t = Some vt -> vecs w !! m_vec o = Some vo ->
  exists w' t',
    assign bc this other w = Ok w'
    /\ iters w' !! this = Some t'
    /\ m_pos t' = m_pos o /\ m_vec t' = m_vec o
    /\ m_iterators <$> vecs w' !! m_vec t
       = Some (removeIterator_slots this (m_iterators vt))
    /\ m_iterators <$> vecs w' !! m_vec o = Some (m_iterators vo ++ [Some this]).
Proof.
  intros Ht Ho Hne Hvt Hvo.
  unfold assign, get_iter. rewrite Ho, Ht. simpl.
  rewrite decide_False by done.
  unfold removeIterator, addIterator, get_vec. simpl. rewrite Hvt. simpl.
  rewrite lookup_insert_ne, Hvo by done. simpl.
  destruct bc; simpl.
  - unfold get_iter. simpl. rewrite lookup_insert_eq. simpl.
    eexists _, _. split; [done|]. simpl.
    rewrite !lookup_insert_eq, lookup_insert_ne, lookup_insert_eq by done.
    by split_and!.
  - eexists _, _. split; [done|]. simpl.
    rewrite !lookup_insert_eq, lookup_insert_ne, lookup_insert_eq by done.
    by split_and!.
Qed.

(** Copy assignment between handles of one container leaves the registries
    alone. *)
Lemma assign_within_container (this other : hid) (w : world T) (t o : iter) :
  iters w !! this = Some t -> iters w !! other = Some o ->
  m_vec t = m_vec o ->
  exists w' t',
    assign bc this other w = Ok w' /\ vecs w' = vecs w
    /\ iters w' !! this = Some t' /\ m_pos t' = m_pos o /\ m_vec t' = m_vec o.
Proof.
  intros Ht Ho Heq.
  unfold assign, get_iter. rewrite Ho, Ht. simpl.
  rewrite decide_True by done.
  destruct bc; simpl.
  - unfold get_iter. simpl. rewrite lookup_insert_eq. simpl.
    eexists _, _. split; [done|]. simpl. rewrite lookup_insert_eq. by split_and!.
  - eexists _, _. split; [done|]. simpl. rewrite lookup_insert_eq. by split_and!.
Qed.

Lemma set_base_same (v : msiv T) : set_base (m_base v) v = v.
Proof. by destruct v. Qed.

Lemma put_vec_same (c : vid) (v : msiv T) (w : world T) :
  vecs w !! c = Some v -> put_vec c v w = w.
Proof. intros Hc. destruct w as [vs its]. unfold put_vec. simpl in *. by rewrite insert_id. Qed.

(** reserve within the capacity and shrink_to_fit at minimal capacity leave
    a container that has elements, and every handle, exactly as they were. *)
Lemma reserve_within_capacity_nonempty (na : ptr) (cap : nat) (c : vid)
    (w : world T) (v : msiv T) :
  vecs w !! c = Some v ->
  (cap <= sv_capacity (m_base v))%nat ->
  (0 < sv_size (m_base v))%nat ->
  reserve bc na cap c w = Ok w.
Proof.
  intros Hc Hcap Hsize. unfold reserve, get_vec. rewrite Hc. simpl.
  unfold sv_reserve. apply Nat.leb_le in Hcap. rewrite Hcap.
  rewrite set_base_same, put_vec_same by done.
  unfold completeRealloc, get_vec. rewrite Hc. simpl.
  unfold newStart_of. apply Nat.ltb_lt in Hsize. rewrite Hsize.
  by rewrite Z.sub_diag.
Qed.

Lemma shrink_to_fit_minimal_nonempty (na : ptr) (c : vid) (w : world T) (v : msiv T) :
  vecs w !! c = Some v ->
  (sv_capacity (m_base v) <= sv_size (m_base v))%nat ->
  (0 < sv_size (m_base v))%nat ->
  shrink_to_fit bc na c w = Ok w.
Proof.
  intros Hc Hcap Hsize. unfold shrink_to_fit, get_vec. rewrite Hc. simpl.
  unfold sv_shrink_to_fit. apply Nat.leb_le in Hcap. rewrite Hcap.
  rewrite set_base_same, put_vec_same by done.
  unfold completeRealloc, get_vec. rewrite Hc. simpl.
  unfold newStart_of. apply Nat.ltb_lt in Hsize. rewrite Hsize.
  by rewrite Z.sub_diag.
Qed.

(** The same on an empty container whose storage pointer is null. *)
Lemma reserve_within_capacity_null (na : ptr) (cap : nat) (c : vid)
    (w : world T) (v : msiv T) :
  vecs w !! c = Some v ->
  (cap <= sv_capacity (m_base v))%nat ->
  sv_data (m_base v) = nullptr ->
  reserve bc na cap c w = Ok w.
Proof.
  intros Hc Hcap Hnull. unfold reserve, get_vec. rewrite Hc. simpl.
  unfold sv_reserve. apply Nat.leb_le in Hcap. rewrite Hcap.
  rewrite set_base_same, put_vec_same by done.
  unfold completeRealloc, get_vec. rewrite Hc. simpl.
  unfold newStart_of. rewrite Hnull. by destruct (0 <? _)%nat.
Qed.
End HandleMoves.

(** begin() and end() without bounds checking: both handles are built, and
    they compare equal exactly when the container has no element. *)
Lemma begin_equals_end_iff_empty {T : Type} (a b : hid) (c : vid)
    (w : world T) (v : msiv T) :
  vecs w !! c = Some v -> a <> b ->
  exists w',
    (w1 ← begin false a c w; end_ false b c w1) = Ok w'
    /\ iter_eq false a b w' = Ok (sv_size (m_base v) =? 0)%nat.
Proof.
  intros Hc Hne.
  unfold begin, end_, construct, addIterator, get_vec. simpl. rewrite Hc. simpl.
  rewrite !lookup_insert_eq. simpl.
  eexists. split; [done|].
  unfold iter_eq, get_iter. simpl.
  assert (Hne' : b <> a) by (intros ->; done).
  rewrite (lookup_insert_ne _ b a) by done. rewrite !lookup_insert_eq. simpl.
  f_equal. destruct (Nat.eqb_spec (sv_size (m_base v)) 0) as [Hz | Hnz].
  - rewrite Hz. apply Z.eqb_eq. lia.
  - apply Z.eqb_neq. lia.
Qed.

(** With bounds checking the two constructors succeed exactly on containers
    that have an element. *)
Lemma begin_end_checked {T : Type} (ret : hid) (c : vid) (w : world T) (v : msiv T) :
  vecs w !! c = Some v ->
  if (0 <? sv_size (m_base v))%nat
  then (exists w', begin true ret c w = Ok w') /\ (exists w', end_ true ret c w = Ok w')
  else begin true ret c w = Abort SubscriptOutOfRange
       /\ end_ true ret c w = Abort SubscriptOutOfRange.
Proof.
  intros Hc. unfold begin, end_, construct, addIterator, get_vec, sv_subscript.
  simpl. rewrite Hc. simpl.
  destruct (0 <? sv_size (m_base v))%nat; simpl; [|done].
  split; by eexists.
Qed.

(** ** The registry invariant

    In every world built with the operations of the header, a registry
    lists a handle at most once, and only handles that exist and refer to
    the container of that registry. *)

Lemma tombstone_omap (it : hid) (reg : list (option hid)) :
  omap id (map (tombstone it) reg) = filter (fun h => h <> it) (omap id reg).
Proof.
  induction reg as [|[h|] rest IH]; [done | | done].
  change (omap id (tombstone it (Some h) :: map (tombstone it) rest)
          = filter (fun h => h <> it) (h :: omap id rest)).
  unfold tombstone. destruct (decide (h = it)) as [->|Hne].
  - rewrite decide_True by done.
    rewrite filter_cons_False by (by intros ?). exact IH.
  - rewrite decide_False by congruence.
    rewrite filter_cons_True by done.
    change (h :: omap id (map (tombstone it) rest)
            = h :: filter (fun h => h <> it) (omap id rest)).
    by rewrite IH.
Qed.

Lemma tombstone_elem (it h : hid) (reg : list (option hid)) :
  Some h ∈ map (tombstone it) reg -> Some h ∈ reg /\ h <> it.
Proof.
  intros Hin. apply list_elem_of_fmap in Hin as (s & Hs & Hin).
  unfold tombstone in Hs. case_decide; [done|]. subst s. split; [done|].
  intros ->. done.
Qed.

Lemma removeIterator_slots_NoDup (it : hid) (reg : list (option hid)) :
  NoDup (omap id reg) -> NoDup (omap id (removeIterator_slots it reg)).
Proof.
  intros Hnodup.
  destruct (trim_trailing_split (map (tombstone it) reg)) as (tail & Hsplit & _).
  assert (Hall : NoDup (omap id (map (tombstone it) reg))).
  { rewrite tombstone_omap. by apply NoDup_filter. }
  rewrite Hsplit, omap_app in Hall. by apply NoDup_app in Hall as [Hres _].
Qed.

Lemma removeIterator_slots_elem (it h : hid) (reg : list (option hid)) :
  Some h ∈ removeIterator_slots it reg -> Some h ∈ reg /\ h <> it.
Proof.
  intros Hin. apply (tombstone_elem it h reg).
  destruct (trim_trailing_split (map (tombstone it) reg)) as (tail & Hsplit & _).
  rewrite Hsplit. apply elem_of_app. by left.
Qed.

Section RegistryInvariant.
Context {T : Type}.
Variable bc : bool.

Lemma registry_ok_put_iter (h : hid) (it : iter) (w : world T) :
  registry_ok w ->
  (forall it0, iters w !! h = Some it0 -> m_vec it = m_vec it0) ->
  (iters w !! h = None ->
   forall c v, vecs w !! c = Some v -> Some h ∈ m_iterators v -> m_vec it = c) ->
  registry_ok (put_iter h it w).
Proof.
  intros Hok Hsame Hnew c v Hc. simpl in Hc.
  destruct (Hok c v Hc) as [Hnodup Hreg]. split; [done|].
  intros h' Hh'. simpl. destruct (decide (h = h')) as [<-|Hne].
  - rewrite lookup_insert_eq. exists it. split; [done|].
    destruct (Hreg h Hh') as (it0 & Hit0 & Hvec). rewrite <- Hvec. by apply Hsame.
  - rewrite lookup_insert_ne by done. by apply Hreg.
Qed.

Lemma registry_ok_set_base (c : vid) (b : stdvector T) (v : msiv T) (w : world T) :
  registry_ok w -> vecs w !! c = Some v ->
  registry_ok (put_vec c (set_base b v) w).
Proof.
  intros Hok Hc c' v' Hc'. simpl in Hc'.
  destruct (decide (c = c')) as [<-|Hne].
  - rewrite lookup_insert_eq in Hc'. inversion Hc'; subst v'. simpl. by apply Hok.
  - rewrite lookup_insert_ne in Hc' by done. by apply Hok.
Qed.

Lemma registry_ok_set_bounds (c : vid) (s e : ptr) (v : msiv T) (w : world T) :
  registry_ok w -> vecs w !! c = Some v ->
  registry_ok (put_vec c (set_bounds s e v) w).
Proof.
  intros Hok Hc c' v' Hc'. simpl in Hc'.
  destruct (decide (c = c')) as [<-|Hne].
  - rewrite lookup_insert_eq in Hc'. inversion Hc'; subst v'. simpl. by apply Hok.
  - rewrite lookup_insert_ne in Hc' by done. by apply Hok.
Qed.

Lemma registry_ok_construct (h : hid) (pos : ptr) (c : vid) (w w' : world T) :
  registry_ok w -> iters w !! h = None ->
  construct bc h pos c w = Ok w' -> registry_ok w'.
Proof.
  intros Hok Hfresh Hres. apply construct_Ok in Hres as (v & start & Hc & ->).
  assert (Hunreg : forall c' v', vecs w !! c' = Some v' -> Some h ∉ m_iterators v').
  { intros c' v' Hc' Hin. destruct (Hok c' v' Hc') as [_ Hreg].
    destruct (Hreg h Hin) as (it & Hit & _). congruence. }
  intros c' v' Hc'. simpl in Hc'.
  destruct (decide (c = c')) as [<-|Hne].
  - rewrite lookup_insert_eq in Hc'. inversion Hc'; subst v'. simpl.
    destruct (Hok c v Hc) as [Hnodup Hreg]. split.
    + rewrite omap_app. simpl. apply NoDup_app. split_and!; [done | | apply NoDup_singleton].
      intros x Hx Hx'. apply list_elem_of_singleton in Hx'. subst x.
      apply list_elem_of_omap in Hx as (y & Hy & Hyx). simpl in Hyx. subst y.
      by apply (Hunreg c v).
    + intros h' Hh'. apply elem_of_app in Hh' as [Hh' | Hh'].
      * rewrite lookup_insert_ne; [by apply Hreg|]. intros <-. by apply (Hunreg c v).
      * apply list_elem_of_singleton in Hh'. inversion Hh'; subst h'.
        rewrite lookup_insert_eq. by eexists.
  - rewrite lookup_insert_ne in Hc' by done.
    destruct (Hok c' v' Hc') as [Hnodup Hreg]. split; [done|].
    intros h' Hh'. simpl. rewrite lookup_insert_ne; [by apply Hreg|].
    intros <-. by apply (Hunreg c' v').
Qed.

Lemma registry_ok_copy_construct (h other : hid) (w w' : world T) :
  registry_ok w -> iters w !! h = None ->
  copy_construct h other w = Ok w' -> registry_ok w'.
Proof.
  intros Hok Hfresh Hres. unfold copy_construct, get_iter in Hres.
  destruct (iters w !! other) as [o|]; simpl in Hres; [|done].
  inversion Hres; subst w'. clear Hres.
  intros c v Hc. simpl in Hc. destruct (Hok c v Hc) as [Hnodup Hreg]. split; [done|].
  intros h' Hh'. simpl. destruct (Hreg h' Hh') as (it & Hit & Hvec).
  rewrite lookup_insert_ne; [by exists it|]. intros <-. congruence.
Qed.

Lemma registry_ok_destroy (h : hid) (w w' : world T) :
  registry_ok w -> destroy h w = Ok w' -> registry_ok w'.
Proof.
  intros Hok Hres. unfold destroy, get_iter in Hres.
  destruct (iters w !! h) as [it|] eqn:Hit; simpl in Hres; [|done].
  unfold removeIterator, get_vec in Hres.
  destruct (vecs w !! m_vec it) as [v|] eqn:Hv; simpl in Hres; [|done].
  inversion Hres; subst w'. clear Hres.
  intros c v' Hc. simpl in Hc.
  destruct (decide (m_vec it = c)) as [<-|Hne].
  - rewrite lookup_insert_eq in Hc. inversion Hc; subst v'. simpl.
    destruct (Hok _ v Hv) as [Hnodup Hreg]. split.
    + by apply removeIterator_slots_NoDup.
    + intros h' Hh'. apply removeIterator_slots_elem in Hh' as [Hh' Hne].
      rewrite lookup_delete_ne by done. by apply Hreg.
  - rewrite lookup_insert_ne in Hc by done.
    destruct (Hok c v' Hc) as [Hnodup Hreg]. split; [done|].
    intros h' Hh'. simpl. destruct (Hreg h' Hh') as (it' & Hit' & Hvec).
    rewrite lookup_delete_ne; [by exists it'|]. intros <-. congruence.
Qed.

Lemma registry_ok_rebase (offset : Z) (insert_ptr : ptr) (insert_size : Z)
    (h : hid) (w w' : world T) :
  registry_ok w ->
  rebase bc offset insert_ptr insert_size h w = Ok w' -> registry_ok w'.
Proof.
  intros Hok Hres. apply rebase_Ok in Hres as (it & Hit & ->).
  apply registry_ok_put_iter; [done | |].
  - intros it0 Hit0. rewrite Hit in Hit0. by inversion Hit0.
  - intros Hnone. congruence.
Qed.

Lemma registry_ok_broadcastRebase (offset : Z) (insert_ptr : ptr) (insert_size : Z)
    (reg : list (option hid)) (w w' : world T) :
  registry_ok w ->
  broadcastRebase bc offset insert_ptr insert_size reg w = Ok w' -> registry_ok w'.
Proof.
  revert w. induction reg as [|[h|] rest IH]; intros w Hok Hres; simpl in Hres.
  - by inversion Hres; subst.
  - destruct (rebase bc offset insert_ptr insert_size h w) as [w1|] eqn:Hstep;
      simpl in Hres; [|done].
    eapply IH; [|done]. by eapply registry_ok_rebase.
  - by eapply IH.
Qed.

Lemma registry_ok_completeRealloc (c : vid) (preStart : ptr)
    (insert_pos insert_size : Z) (w w' : world T) :
  registry_ok w ->
  completeRealloc bc c preStart insert_pos insert_size w = Ok w' -> registry_ok w'.
Proof.
  intros Hok Hres. unfold completeRealloc, get_vec in Hres.
  destruct (vecs w !! c) as [v|] eqn:Hc; simpl in Hres; [|done].
  destruct (_ && _); [by inversion Hres; subst|].
  eapply registry_ok_broadcastRebase; [|done].
  destruct bc; [|by rewrite put_vec_same].
  destruct (negb _).
  - replace (set_bounds _ _ (set_bounds _ _ v))
      with (set_bounds (newStart_of (m_base v))
              (newStart_of (m_base v) + Z.of_nat (sv_size (m_base v)) + insert_size) v)
      by done.
    by apply registry_ok_set_bounds.
  - by apply registry_ok_set_bounds.
Qed.

(** Every mutation of the container is a change of the backing store
    followed by completeRealloc. *)
Lemma registry_ok_mutation (c : vid) (b : stdvector T) (v : msiv T)
    (preStart : ptr) (insert_pos insert_size : Z) (w w' : world T) :
  registry_ok w -> vecs w !! c = Some v ->
  completeRealloc bc c preStart insert_pos insert_size (put_vec c (set_base b v) w)
    = Ok w' ->
  registry_ok w'.
Proof.
  intros Hok Hc Hres. eapply registry_ok_completeRealloc; [|done].
  by apply registry_ok_set_base.
Qed.

Lemma registry_ok_push_back (na : ptr) (x : T) (c : vid) (w w' : world T) :
  registry_ok w -> push_back bc na x c w = Ok w' -> registry_ok w'.
Proof.
  intros Hok Hres. unfold push_back, get_vec in Hres.
  destruct (vecs w !! c) as [v|] eqn:Hc; simpl in Hres; [|done].
  by eapply registry_ok_mutation.
Qed.

Lemma registry_ok_insert_with (na : ptr) (pos : iter) (xs : list T) (insert_size : Z)
    (ret : hid) (c : vid) (w w' : world T) :
  registry_ok w -> iters w !! ret = None ->
  insert_with bc na pos xs insert_size ret c w = Ok w' -> registry_ok w'.
Proof.
  intros Hok Hfresh Hres. unfold insert_with, get_vec in Hres.
  destruct (vecs w !! c) as [v|] eqn:Hc; simpl in Hres; [|done].
  destruct (sv_insert _ _ _ _) as [b|]; simpl in Hres; [|done].
  destruct (completeRealloc _ _ _ _ _ _) as [w1|] eqn:Hrealloc; simpl in Hres; [|done].
  destruct (vecs w1 !! c) as [v1|] eqn:Hc1; simpl in Hres; [|done].
  eapply registry_ok_construct; [| | done].
  - by eapply registry_ok_mutation.
  - assert (Hret : Some ret ∉ m_iterators (set_base b v)).
    { intros Hin. destruct (Hok c v Hc) as [_ Hreg].
      destruct (Hreg ret Hin) as (it & Hit & _). congruence. }
    eapply (completeRealloc_Ok bc c _ _ _ _ w1 (set_base b v)) in Hrealloc
      as (_ & Hout & _); [| by apply lookup_insert_eq | by apply (Hok c v Hc)].
    by rewrite (Hout ret Hret).
Qed.

Lemma registry_ok_erase (pos : iter) (ret : hid) (c : vid) (w w' : world T) :
  registry_ok w -> iters w !! ret = None ->
  erase bc pos ret c w = Ok w' -> registry_ok w'.
Proof.
  intros Hok Hfresh Hres. unfold erase, get_vec in Hres.
  destruct (vecs w !! c) as [v|] eqn:Hc; simpl in Hres; [|done].
  destruct (sv_erase _ _) as [b|]; simpl in Hres; [|done].
  destruct (completeRealloc _ _ _ _ _ _) as [w1|] eqn:Hrealloc; simpl in Hres; [|done].
  destruct (vecs w1 !! c) as [v1|] eqn:Hc1; simpl in Hres; [|done].
  eapply registry_ok_construct; [| | done].
  - by eapply registry_ok_mutation.
  - assert (Hret : Some ret ∉ m_iterators (set_base b v)).
    { intros Hin. destruct (Hok c v Hc) as [_ Hreg].
      destruct (Hreg ret Hin) as (it & Hit & _). congruence. }
    eapply (completeRealloc_Ok bc c _ _ _ _ w1 (set_base b v)) in Hrealloc
      as (_ & Hout & _); [| by apply lookup_insert_eq | by apply (Hok c v Hc)].
    by rewrite (Hout ret Hret).
Qed.

Lemma registry_ok_pop_back (c : vid) (w w' : world T) :
  registry_ok w -> pop_back bc c w = Ok w' -> registry_ok w'.
Proof.
  intros Hok Hres. unfold pop_back, get_vec in Hres.
  destruct (vecs w !! c) as [v|] eqn:Hc; simpl in Hres; [|done].
  destruct (assert bc _); simpl in Hres; [|done].
  destruct (sv_pop_back _) as [b|]; simpl in Hres; [|done].
  by eapply registry_ok_mutation.
Qed.

Lemma registry_ok_resize (na : ptr) (count : nat) (value : T) (c : vid)
    (w w' : world T) :
  registry_ok w -> resize bc na count value c w = Ok w' -> registry_ok w'.
Proof.
  intros Hok Hres. unfold resize, get_vec in Hres.
  destruct (vecs w !! c) as [v|] eqn:Hc; simpl in Hres; [|done].
  destruct (_ =? _)%nat; [by inversion Hres; subst|].
  by eapply registry_ok_mutation.
Qed.

Lemma registry_ok_reserve (na : ptr) (cap : nat) (c : vid) (w w' : world T) :
  registry_ok w -> reserve bc na cap c w = Ok w' -> registry_ok w'.
Proof.
  intros Hok Hres. unfold reserve, get_vec in Hres.
  destruct (vecs w !! c) as [v|] eqn:Hc; simpl in Hres; [|done].
  by eapply registry_ok_mutation.
Qed.

Lemma registry_ok_shrink_to_fit (na : ptr) (c : vid) (w w' : world T) :
  registry_ok w -> shrink_to_fit bc na c w = Ok w' -> registry_ok w'.
Proof.
  intros Hok Hres. unfold shrink_to_fit, get_vec in Hres.
  destruct (vecs w !! c) as [v|] eqn:Hc; simpl in Hres; [|done].
  by eapply registry_ok_mutation.
Qed.

Lemma registry_ok_removeIterator (h : hid) (it : iter) (w w' : world T) :
  registry_ok w -> iters w !! h = Some it ->
  removeIterator (m_vec it) h w = Ok w' ->
  registry_ok w' /\ unregistered h w' /\ iters w' = iters w.
Proof.
  intros Hok Hit Hres. unfold removeIterator, get_vec in Hres.
  destruct (vecs w !! m_vec it) as [v|] eqn:Hv; simpl in Hres; [|done].
  inversion Hres; subst w'. clear Hres. split_and!; [| | done].
  - intros c v' Hc. simpl in Hc.
    destruct (decide (m_vec it = c)) as [<-|Hne].
    + rewrite lookup_insert_eq in Hc. inversion Hc; subst v'. simpl.
      destruct (Hok _ v Hv) as [Hnodup Hreg]. split.
      * by apply removeIterator_slots_NoDup.
      * intros h' Hh'. apply removeIterator_slots_elem in Hh' as [Hh' _]. by apply Hreg.
    + rewrite lookup_insert_ne in Hc by done. by apply Hok.
  - intros c v' Hc Hin. simpl in Hc.
    destruct (decide (m_vec it = c)) as [<-|Hne].
    + rewrite lookup_insert_eq in Hc. inversion Hc; subst v'. simpl in Hin.
      by apply removeIterator_slots_elem in Hin as [_ Hne].
    + rewrite lookup_insert_ne in Hc by done.
      destruct (Hok c v' Hc) as [_ Hreg].
      destruct (Hreg h Hin) as (it' & Hit' & Hvec). congruence.
Qed.

Lemma registry_ok_put_unregistered (h : hid) (it : iter) (w : world T) :
  registry_ok w -> unregistered h w ->
  registry_ok (put_iter h it w) /\ unregistered h (put_iter h it w).
Proof.
  intros Hok Hunreg. split; [|done].
  intros c v Hc. simpl in Hc. destruct (Hok c v Hc) as [Hnodup Hreg]. split; [done|].
  intros h' Hh'. simpl. rewrite lookup_insert_ne; [by apply Hreg|].
  intros <-. by apply (Hunreg c v).
Qed.

Lemma registry_ok_addIterator (c : vid) (h : hid) (it : iter) (w w' : world T) :
  registry_ok w -> unregistered h w ->
  iters w !! h = Some it -> m_vec it = c ->
  addIterator c h w = Ok w' -> registry_ok w'.
Proof.
  intros Hok Hunreg Hit Hvec Hres. unfold addIterator, get_vec in Hres.
  destruct (vecs w !! c) as [v|] eqn:Hc; simpl in Hres; [|done].
  inversion Hres; subst w'. clear Hres.
  intros c' v' Hc'. simpl in Hc'.
  destruct (decide (c = c')) as [<-|Hne].
  - rewrite lookup_insert_eq in Hc'. inversion Hc'; subst v'. simpl.
    destruct (Hok c v Hc) as [Hnodup Hreg]. split.
    + rewrite omap_app. simpl. apply NoDup_app. split_and!; [done | | apply NoDup_singleton].
      intros x Hx Hx'. apply list_elem_of_singleton in Hx'. subst x.
      apply list_elem_of_omap in Hx as (y & Hy & Hyx). simpl in Hyx. subst y.
      by apply (Hunreg c v).
    + intros h' Hh'. apply elem_of_app in Hh' as [Hh' | Hh']; [by apply Hreg|].
      apply list_elem_of_singleton in Hh'. inversion Hh'; subst h'. by exists it.
  - rewrite lookup_insert_ne in Hc' by done. by apply Hok.
Qed.

Lemma registry_ok_assign (this other : hid) (w w' : world T) :
  registry_ok w -> assign bc this other w = Ok w' -> registry_ok w'.
Proof.
  intros Hok Hres. unfold assign, get_iter in Hres.
  destruct (iters w !! other) as [o|] eqn:Ho; simpl in Hres; [|done].
  destruct (iters w !! this) as [t|] eqn:Ht; simpl in Hres; [|done].
  assert (Hshadow : forall w2 : world T, registry_ok w2 ->
            (if bc
             then t2 ← need (iters w2 !! this);
                  Ok (put_iter this
                        (mk_iter (m_pos t2) (m_vec t2) (it_currentStart o)
                           (it_currentEnd o)) w2)
             else Ok w2) = Ok w' ->
            registry_ok w').
  { intros w2 Hok2 Hres2. destruct bc; [|by inversion Hres2; subst].
    destruct (iters w2 !! this) as [t2|] eqn:Ht2; simpl in Hres2; [|done].
    inversion Hres2; subst w'. apply registry_ok_put_iter; [done | |].
    - intros it0 Hit0. rewrite Ht2 in Hit0. by inversion Hit0.
    - intros Hnone. congruence. }
  assert (Hok0 : registry_ok
            (put_iter this
               (mk_iter (m_pos o) (m_vec t) (it_currentStart t) (it_currentEnd t)) w)).
  { apply registry_ok_put_iter; [done | |].
    - intros it0 Hit0. rewrite Ht in Hit0. by inversion Hit0.
    - intros Hnone. congruence. }
  destruct (decide (m_vec t = m_vec o)) as [Heq | Hne].
  - by apply (Hshadow _ Hok0).
  - destruct (removeIterator _ _ _) as [w1|] eqn:Hremove; simpl in Hres; [|done].
    destruct (addIterator _ _ _) as [w2|] eqn:Hadd; simpl in Hres; [|done].
    apply (Hshadow w2); [|done].
    eapply (registry_ok_removeIterator this
              (mk_iter (m_pos o) (m_vec t) (it_currentStart t) (it_currentEnd t)))
      in Hremove as (Hok1 & Hunreg1 & Hiters1); [| done | apply lookup_insert_eq].
    destruct (registry_ok_put_unregistered this
                (mk_iter (m_pos o) (m_vec o) (it_currentStart t) (it_currentEnd t))
                w1 Hok1 Hunreg1) as [Hok1' Hunreg1'].
    apply (registry_ok_addIterator (m_vec o) this
             (mk_iter (m_pos o) (m_vec o) (it_currentStart t) (it_currentEnd t))
             _ w2 Hok1' Hunreg1'); [| done | done].
    simpl. apply lookup_insert_eq.
Qed.

Lemma registry_ok_clear (c : vid) (w w' : world T) :
  registry_ok w -> clear bc c w = Ok w' -> registry_ok w'.
Proof.
  intros Hok Hres. unfold clear, get_vec in Hres.
  destruct (assert_no_iterators bc c w); simpl in Hres; [|done].
  destruct (vecs w !! c) as [v|] eqn:Hc; simpl in Hres; [|done].
  inversion Hres; subst w'. by apply registry_ok_set_base.
Qed.

(** A world of containers without handles satisfies the invariant. *)
Lemma registry_ok_no_handles (vs : gmap vid (msiv T)) :
  (forall c v, vs !! c = Some v -> m_iterators v = []) ->
  registry_ok (mk_world vs ∅).
Proof.
  intros Hempty c v Hc. simpl in Hc. rewrite (Hempty c v Hc). split.
  - apply NoDup_nil_2.
  - intros h Hh. by apply elem_of_nil in Hh.
Qed.

(** The invariant gives what the statements about the rebase broadcast
    assume of a registry. *)
Lemma registry_ok_hypotheses (c : vid) (v : msiv T) (w : world T) :
  registry_ok w -> vecs w !! c = Some v ->
  NoDup (omap id (m_iterators v))
  /\ forall h, Some h ∈ m_iterators v -> is_Some (iters w !! h).
Proof.
  intros Hok Hc. destruct (Hok c v Hc) as [Hnodup Hreg]. split; [done|].
  intros h Hh. destruct (Hreg h Hh) as (it & Hit & _). by exists it.
Qed.
End RegistryInvariant.

(** In a build without bounds checking push_back and reserve always complete
    when the registered handles are live objects. *)
Lemma push_back_completes {T : Type} (na : ptr) (x : T) (c : vid)
    (w : world T) (v : msiv T) :
  vecs w !! c = Some v ->
  (forall h, Some h ∈ m_iterators v -> is_Some (iters w !! h)) ->
  exists w', push_back false na x c w = Ok w'.
Proof.
  intros Hc Hlive. unfold push_back, get_vec. rewrite Hc. simpl.
  eapply completeRealloc_release; [by apply lookup_insert_eq | done].
Qed.

Lemma reserve_completes {T : Type} (na : ptr) (cap : nat) (c : vid)
    (w : world T) (v : msiv T) :
  vecs w !! c = Some v ->
  (forall h, Some h ∈ m_iterators v -> is_Some (iters w !! h)) ->
  exists w', reserve false na cap c w = Ok w'.
Proof.
  intros Hc Hlive. unfold reserve, get_vec. rewrite Hc. simpl.
  eapply completeRealloc_release; [by apply lookup_insert_eq | done].
Qed.

(** ** The scenarios of the specification that hold *)

(** Scenario A: insert(begin(), 0) on [10; 20; 30]; the handle on 20 follows
    it to index 2. *)
Example scenario_A_insert_keeps_handle (bc : bool) :
  let after :=
    w ← scenario_A bc;
    with_pos h_begin (fun pos => insert bc 400 pos 0 h_ret vec1) w in
  (w ← after; elements_of vec1 w) = Ok [0; 10; 20; 30]
  /\ (w ← after; position_of h_it w) = Ok (300 + 2)
  /\ (w ← after; deref bc h_it w) = Ok 20.
Proof. destruct bc; split_and!; reflexivity. Qed.

(** Scenario C: push_back on [1; 2] at capacity 2 moves the storage from 200
    to 300 and the handle on index 0 with it. *)
Example scenario_C_push_back_keeps_handle (bc : bool) :
  let after := w ← scenario_C bc; push_back bc 300 3 vec1 w in
  (w ← scenario_C bc; position_of h_it w) = Ok 200
  /\ (w ← scenario_C bc; deref bc h_it w) = Ok 1
  /\ (w ← after; data_of vec1 w) = Ok 300
  /\ (w ← after; position_of h_it w) = Ok 300
  /\ (w ← after; deref bc h_it w) = Ok 1.
Proof. destruct bc; split_and!; reflexivity. Qed.

(** erase(it) with [it] on the first element: rebase puts the handle before
    the start of the storage, which its own assertion rejects when bounds
    checking is on. *)
Example erase_first_element_fails_rebase_assertion :
  (w ← scenario_C true;
   with_pos h_it (fun pos => erase true pos h_ret vec1) w)
    = Abort AssertionFailure
  /\ (w ← scenario_C false;
      w' ← with_pos h_it (fun pos => erase false pos h_ret vec1) w;
      position_of h_it w') = Ok (200 - 1).
Proof. split; reflexivity. Qed.

(** ** Where the header departs from its contract *)

(** C1: a handle on the element 20 of [10; 20; 30] no longer dereferences to
    20 after insert(begin(), 2, 0), although 20 is still in the container:
    the handle is moved by one place while its element moves by two. *)
Theorem fill_insert_detaches_handle_from_element (bc : bool) :
  let before := scenario_A bc in
  let after :=
    w ← before;
    with_pos h_begin (fun pos => insert_fill bc 400 pos 2 0 h_ret vec1) w in
  (w ← before; elements_of vec1 w) = Ok [10; 20; 30]
  /\ (w ← before; deref bc h_it w) = Ok 20
  /\ (w ← after; elements_of vec1 w) = Ok [0; 0; 10; 20; 30]
  /\ (w ← after; deref bc h_it w) = Ok 10.
Proof. destruct bc; split_and!; reflexivity. Qed.

(** C2 as stated fails: on [1; 2; 3; 4] with a handle on 3, erase(it)
    returns an iterator on 4, but the registered handle itself ends on 2,
    the element before the erased one, with and without bounds checking. *)
Lemma erase_leaves_handle_on_previous_element :
  let after bc :=
    w ← scenario_B bc; with_pos h_it (fun pos => erase bc pos h_ret vec1) w in
  (w ← scenario_B true; elements_of vec1 w) = Ok [1; 2; 3; 4]
  /\ (w ← scenario_B true; deref true h_it w) = Ok 3
  /\ (w ← after true; elements_of vec1 w) = Ok [1; 2; 4]
  /\ (w ← after true; deref true h_ret w) = Ok 4
  /\ (w ← after true; deref true h_it w) = Ok 2
  /\ (w ← after true; deref true h_it w) <> Ok 4
  /\ (w ← after false; deref false h_it w) = Ok 2
  /\ (w ← after false; deref false h_it w) <> Ok 4.
Proof. split_and!; try reflexivity; by vm_compute. Qed.

(** C4: insert(begin(), 3, 0) on [10; 20; 30] moves the storage to 400 and
    the handle on index 1 to index 2: it is rebased with insert_size 1, not
    with the count 3 that would take it to index 4. *)
Theorem fill_insert_rebases_with_size_one (bc : bool) :
  let before := scenario_A bc in
  let after :=
    w ← before;
    with_pos h_begin (fun pos => insert_fill bc 400 pos 3 0 h_ret vec1) w in
  (w ← before; data_of vec1 w) = Ok 300
  /\ (w ← before; position_of h_it w) = Ok (300 + 1)
  /\ (w ← after; elements_of vec1 w) = Ok [0; 0; 0; 10; 20; 30]
  /\ (w ← after; data_of vec1 w) = Ok 400
  /\ (w ← after; position_of h_it w) = Ok (400 + 1 + 1).
Proof. destruct bc; split_and!; reflexivity. Qed.

(** C6: a handle copy-constructed from a registered handle is not in the
    registry, and the push_back that moves the storage from 200 to 300
    rebases the original only. *)
Theorem copy_constructed_handle_is_not_registered (bc : bool) :
  let copied := w ← scenario_C bc; copy_construct h_copy h_it w in
  let grown := w ← copied; push_back bc 300 3 vec1 w in
  (w ← copied; registry_of vec1 w) = Ok [Some h_it]
  /\ (w ← copied; position_of h_copy w) = Ok 200
  /\ (w ← grown; data_of vec1 w) = Ok 300
  /\ (w ← grown; position_of h_it w) = Ok 300
  /\ (w ← grown; position_of h_copy w) = Ok 200.
Proof. destruct bc; split_and!; reflexivity. Qed.

(** C8: on an empty container that owns storage, reserve(capacity()) does not
    reallocate and still moves the registered handle, from 100 to 0. *)
Theorem reserve_capacity_moves_handle_of_empty_container :
  let after := w ← reserved_empty; reserve false 500 4 vec1 w in
  (w ← reserved_empty; v ← get_vec vec1 w; Ok (m_base v))
    = Ok (mk_stdvector 100 [] 4)
  /\ (w ← reserved_empty; position_of h_it w) = Ok 100
  /\ (w ← after; v ← get_vec vec1 w; Ok (m_base v))
     = Ok (mk_stdvector 100 [] 4)
  /\ (w ← after; position_of h_it w) = Ok 0.
Proof. split_and!; reflexivity. Qed.

(** C10: with bounds checking, begin() and end() of a container without
    elements abort in the constructor of the handle, which subscripts the
    empty backing store. *)
Theorem begin_end_abort_on_empty_container :
  begin true h_it vec1 fresh_world = Abort SubscriptOutOfRange
  /\ end_ true h_it vec1 fresh_world = Abort SubscriptOutOfRange.
Proof. split; reflexivity. Qed.

(** * Further properties *)

(** ** The concrete worlds satisfy the invariants *)

Lemma watched_world_ok : registry_ok watched_world /\ registries_trimmed watched_world.
Proof.
  assert (Hcases : forall c v, vecs watched_world !! c = Some v ->
            (c = vec1 /\ v = watched_vector) \/ (c = vec2 /\ v = spare_vector)).
  { intros c v Hc. unfold watched_world in Hc. simpl in Hc.
    destruct (decide (c = vec1)) as [->|H1].
    - rewrite lookup_insert_eq in Hc. inversion Hc. by left.
    - rewrite lookup_insert_ne in Hc by done.
      destruct (decide (c = vec2)) as [->|H2].
      + rewrite lookup_singleton_eq in Hc. inversion Hc. by right.
      + by rewrite lookup_singleton_ne in Hc. }
  split; intros c v Hc; destruct (Hcases c v Hc) as [[-> ->] | [-> ->]].
  - split; [apply (bool_decide_unpack _); vm_compute; exact I|].
    intros h Hh. simpl in Hh.
    repeat (apply elem_of_cons in Hh as [Hh | Hh]);
      try (inversion Hh; subst h; vm_compute; eauto); try done;
      try by apply elem_of_nil in Hh.
  - split; [apply (bool_decide_unpack _); vm_compute; exact I|].
    intros h Hh. simpl in Hh.
    repeat (apply elem_of_cons in Hh as [Hh | Hh]);
      try (inversion Hh; subst h; vm_compute; eauto); try done;
      try by apply elem_of_nil in Hh.
  - done.
  - done.
Qed.

(** ** The worlds the header produces *)

Section PrimitiveSteps.
Context {T : Type}.
Variable bc : bool.

Lemma broadcastRebase_prim (offset : Z) (insert_ptr : ptr) (insert_size : Z)
    (reg : list (option hid)) (w w' : world T) :
  broadcastRebase bc offset insert_ptr insert_size reg w = Ok w' ->
  rtc (prim_step bc) w w'.
Proof.
  revert w. induction reg as [|[h|] rest IH]; intros w Hres; simpl in Hres.
  - inversion Hres. apply rtc_refl.
  - destruct (rebase bc offset insert_ptr insert_size h w) as [w1|] eqn:Hstep;
      simpl in Hres; [|done].
    apply rebase_Ok in Hstep as (it & Hit & ->).
    eapply rtc_l; [|by apply IH]. by apply (prim_move bc h it).
  - by apply IH.
Qed.

Lemma completeRealloc_prim (c : vid) (preStart : ptr) (insert_pos insert_size : Z)
    (w w' : world T) :
  completeRealloc bc c preStart insert_pos insert_size w = Ok w' ->
  rtc (prim_step bc) w w'.
Proof.
  intros Hres. unfold completeRealloc, get_vec in Hres.
  destruct (vecs w !! c) as [v|] eqn:Hc; simpl in Hres; [|done].
  destruct (_ && _); [inversion Hres; apply rtc_refl|].
  eapply rtc_l; [|by eapply broadcastRebase_prim].
  apply (prim_store bc c v); [done|].
  destruct bc; [|done]. by destruct (negb _).
Qed.

Lemma mutation_prim (c : vid) (b : stdvector T) (v : msiv T) (preStart : ptr)
    (insert_pos insert_size : Z) (w w' : world T) :
  vecs w !! c = Some v ->
  completeRealloc bc c preStart insert_pos insert_size (put_vec c (set_base b v) w)
    = Ok w' ->
  rtc (prim_step bc) w w'.
Proof.
  intros Hc Hres. eapply rtc_l; [|by eapply completeRealloc_prim].
  by apply (prim_store bc c v).
Qed.

Lemma completeRealloc_fresh (c : vid) (preStart : ptr) (insert_pos insert_size : Z)
    (h : hid) (w w' : world T) :
  iters w !! h = None ->
  completeRealloc bc c preStart insert_pos insert_size w = Ok w' ->
  iters w' !! h = None.
Proof.
  intros Hfresh Hres. unfold completeRealloc, get_vec in Hres.
  destruct (vecs w !! c) as [v|] eqn:Hc; simpl in Hres; [|done].
  destruct (_ && _); [by inversion Hres; subst|].
  remember (put_vec c _ w) as w0 eqn:Hw0.
  assert (Hfresh0 : iters w0 !! h = None) by (by subst w0).
  clear Hw0 Hc Hfresh. revert w0 Hfresh0 Hres.
  induction (m_iterators v) as [|[h0|] rest IH]; intros w0 Hfresh0 Hres; simpl in Hres.
  - by inversion Hres; subst.
  - destruct (rebase _ _ _ _ h0 w0) as [w1|] eqn:Hstep; simpl in Hres; [|done].
    apply rebase_Ok in Hstep as (it & Hit & ->).
    apply IH in Hres; [done|]. simpl. rewrite lookup_insert_ne; [done | congruence].
  - by apply (IH w0).
Qed.

Lemma api_prim (w w' : world T) :
  api_step bc w w' -> rtc (prim_step bc) w w'.
Proof.
  assert (Hins : forall na pos (xs : list T) isz ret c (w w' : world T),
            iters w !! ret = None ->
            insert_with bc na pos xs isz ret c w = Ok w' ->
            rtc (prim_step bc) w w').
  { clear w w'. intros na pos xs isz ret c w w' Hfresh Hres.
    unfold insert_with, get_vec in Hres.
    destruct (vecs w !! c) as [v|] eqn:Hc; simpl in Hres; [|done].
    destruct (sv_insert _ _ _ _) as [b|]; simpl in Hres; [|done].
    destruct (completeRealloc _ _ _ _ _ _) as [w1|] eqn:Hrealloc; simpl in Hres; [|done].
    destruct (vecs w1 !! c) as [v1|] eqn:Hc1; simpl in Hres; [|done].
    etrans; [by eapply mutation_prim|].
    apply rtc_once. eapply prim_construct; [|done].
    eapply completeRealloc_fresh; [|exact Hrealloc]. exact Hfresh. }
  destruct 1 as [c s e w Hc | ret c w w' Hfresh Hres | ret c w w' Hfresh Hres
                | h other w w' Hfresh Hres | this other w w' Hres | h w w' Hres
                | h offset w w' Hres | h w w' Hres | h w w' Hres
                | na cap c w w' Hres | na c w w' Hres | c w w' Hres
                | na pos val ret c w w' Hfresh Hres
                | na pos count value ret c w w' Hfresh Hres
                | na pos xs ret c w w' Hfresh Hres
                | pos ret c w w' Hfresh Hres | first last ret c w w' Hfresh Hres
                | na value c w w' Hres | c w w' Hres | na count value c w w' Hres
                | other other' c w w' Hres | other c w w' Hres].
  - apply rtc_once. by apply prim_new.
  - unfold begin, get_vec in Hres.
    destruct (vecs w !! c); simpl in Hres; [|done].
    apply rtc_once. by eapply prim_construct.
  - unfold end_, get_vec in Hres.
    destruct (vecs w !! c); simpl in Hres; [|done].
    apply rtc_once. by eapply prim_construct.
  - apply rtc_once. by eapply prim_copy.
  - apply rtc_once. by eapply prim_assign.
  - apply rtc_once. by eapply prim_destroy.
  - unfold advance, get_iter in Hres.
    destruct (iters w !! h) as [it|] eqn:Hit; simpl in Hres; [|done].
    assert (w' = put_iter h (mk_iter (m_pos it + offset) (m_vec it)
                               (it_currentStart it) (it_currentEnd it)) w) as ->.
    { destruct bc; [|by inversion Hres].
      destruct (assert true _); simpl in Hres; [|done].
      destruct (read_currentEnd _ _); simpl in Hres; [|done].
      destruct (assert true _); simpl in Hres; [|done]. by inversion Hres. }
    apply rtc_once. by apply (prim_move bc h it).
  - unfold increment, get_iter in Hres.
    destruct (iters w !! h) as [it|] eqn:Hit; simpl in Hres; [|done].
    destruct (if bc then _ else _); simpl in Hres; [|done]. inversion Hres.
    apply rtc_once. by apply (prim_move bc h it).
  - unfold decrement, get_iter in Hres.
    destruct (iters w !! h) as [it|] eqn:Hit; simpl in Hres; [|done].
    destruct (assert bc _); simpl in Hres; [|done]. inversion Hres.
    apply rtc_once. by apply (prim_move bc h it).
  - unfold reserve, get_vec in Hres.
    destruct (vecs w !! c) as [v|] eqn:Hc; simpl in Hres; [|done].
    by eapply mutation_prim.
  - unfold shrink_to_fit, get_vec in Hres.
    destruct (vecs w !! c) as [v|] eqn:Hc; simpl in Hres; [|done].
    by eapply mutation_prim.
  - unfold clear, get_vec in Hres.
    destruct (assert_no_iterators bc c w); simpl in Hres; [|done].
    destruct (vecs w !! c) as [v|] eqn:Hc; simpl in Hres; [|done]. inversion Hres.
    apply rtc_once. by apply (prim_store bc c v).
  - by eapply Hins.
  - by eapply Hins.
  - by eapply Hins.
  - unfold erase, get_vec in Hres.
    destruct (vecs w !! c) as [v|] eqn:Hc; simpl in Hres; [|done].
    destruct (sv_erase _ _) as [b|]; simpl in Hres; [|done].
    destruct (completeRealloc _ _ _ _ _ _) as [w1|] eqn:Hrealloc; simpl in Hres; [|done].
    destruct (vecs w1 !! c) as [v1|] eqn:Hc1; simpl in Hres; [|done].
    etrans; [by eapply mutation_prim|].
    apply rtc_once. eapply prim_construct; [|done].
    eapply completeRealloc_fresh; [|exact Hrealloc]. exact Hfresh.
  - unfold erase_range, get_vec in Hres.
    destruct (vecs w !! c) as [v|] eqn:Hc; simpl in Hres; [|done].
    destruct (sv_erase_range _ _ _) as [b|]; simpl in Hres; [|done].
    destruct (assert bc _); simpl in Hres; [|done].
    destruct (completeRealloc _ _ _ _ _ _) as [w1|] eqn:Hrealloc; simpl in Hres; [|done].
    destruct (vecs w1 !! c) as [v1|] eqn:Hc1; simpl in Hres; [|done].
    etrans; [by eapply mutation_prim|].
    apply rtc_once. eapply prim_construct; [|done].
    eapply completeRealloc_fresh; [|exact Hrealloc]. exact Hfresh.
  - unfold push_back, get_vec in Hres.
    destruct (vecs w !! c) as [v|] eqn:Hc; simpl in Hres; [|done].
    by eapply mutation_prim.
  - unfold pop_back, get_vec in Hres.
    destruct (vecs w !! c) as [v|] eqn:Hc; simpl in Hres; [|done].
    destruct (assert bc _); simpl in Hres; [|done].
    destruct (sv_pop_back _) as [b|]; simpl in Hres; [|done].
    by eapply mutation_prim.
  - unfold resize, get_vec in Hres.
    destruct (vecs w !! c) as [v|] eqn:Hc; simpl in Hres; [|done].
    destruct (_ =? _)%nat; [inversion Hres; apply rtc_refl|].
    by eapply mutation_prim.
  - unfold swap_storage, get_vec in Hres.
    destruct (assert_no_iterators bc c w); simpl in Hres; [|done].
    destruct (vecs w !! c) as [v|] eqn:Hc; simpl in Hres; [|done]. inversion Hres.
    apply rtc_once. apply (prim_store bc c v); [done|]. by destruct bc.
  - unfold swap, swap_storage, get_vec in Hres.
    destruct (assert_no_iterators bc c w); simpl in Hres; [|done].
    destruct (vecs w !! c) as [v|] eqn:Hc; simpl in Hres; [|done].
    destruct (assert_no_iterators bc other w); simpl in Hres; [|done].
    destruct (vecs w !! other) as [vo|] eqn:Ho; simpl in Hres; [|done].
    destruct (_ !! c) as [v1|] eqn:Hc1 in Hres; simpl in Hres; [|done].
    inversion Hres. eapply rtc_l; cycle 1.
    { apply rtc_once. apply (prim_store bc c v1); [exact Hc1|]. by destruct bc. }
    apply (prim_store bc other vo); [done|]. by destruct bc.
Qed.
End PrimitiveSteps.

Section Invariants.
Context {T : Type}.
Variable bc : bool.

Lemma registry_ok_store (c : vid) (v v' : msiv T) (w : world T) :
  registry_ok w -> vecs w !! c = Some v -> m_iterators v' = m_iterators v ->
  registry_ok (put_vec c v' w).
Proof.
  intros Hok Hc Hsame c' v0 Hc'. simpl in Hc'.
  destruct (decide (c = c')) as [<-|Hne].
  - rewrite lookup_insert_eq in Hc'. inversion Hc'; subst v0. rewrite Hsame.
    by apply Hok.
  - rewrite lookup_insert_ne in Hc' by done. by apply Hok.
Qed.

Lemma prim_registry_ok (w w' : world T) :
  registry_ok w -> prim_step bc w w' -> registry_ok w'.
Proof.
  intros Hok Hstep.
  destruct Hstep as [c s e w Hc | c v v' w Hc Hsame | h it it' w Hit Hvec
                    | h pos c w w' Hfresh Hres | h other w w' Hfresh Hres
                    | this other w w' Hres | h w w' Hres].
  - intros c' v0 Hc'. simpl in Hc'.
    destruct (decide (c = c')) as [<-|Hne].
    + rewrite lookup_insert_eq in Hc'. inversion Hc'; subst v0. simpl. split.
      * apply NoDup_nil_2.
      * intros h Hh. by apply elem_of_nil in Hh.
    + rewrite lookup_insert_ne in Hc' by done. by apply Hok.
  - by eapply registry_ok_store.
  - apply registry_ok_put_iter; [done | |].
    + intros it0 Hit0. rewrite Hit in Hit0. inversion Hit0; subst it0. exact Hvec.
    + intros Hnone. congruence.
  - by eapply registry_ok_construct.
  - by eapply registry_ok_copy_construct.
  - by eapply registry_ok_assign.
  - by eapply registry_ok_destroy.
Qed.

Lemma removeIterator_trimmed (c : vid) (h : hid) (w w' : world T) :
  registries_trimmed w -> removeIterator c h w = Ok w' ->
  registries_trimmed w' /\ iters w' = iters w.
Proof.
  intros Htrim Hres. unfold removeIterator, get_vec in Hres.
  destruct (vecs w !! c) as [v|] eqn:Hc; simpl in Hres; [|done].
  inversion Hres; subst w'. split; [|done].
  intros c' v' Hc'. simpl in Hc'.
  destruct (decide (c = c')) as [<-|Hne].
  - rewrite lookup_insert_eq in Hc'. inversion Hc'; subst v'. simpl.
    apply trim_trailing_last.
  - rewrite lookup_insert_ne in Hc' by done. by apply (Htrim c').
Qed.

Lemma addIterator_trimmed (c : vid) (h : hid) (w w' : world T) :
  registries_trimmed w -> addIterator c h w = Ok w' -> registries_trimmed w'.
Proof.
  intros Htrim Hres. unfold addIterator, get_vec in Hres.
  destruct (vecs w !! c) as [v|] eqn:Hc; simpl in Hres; [|done].
  inversion Hres; subst w'.
  intros c' v' Hc'. simpl in Hc'.
  destruct (decide (c = c')) as [<-|Hne].
  - rewrite lookup_insert_eq in Hc'. inversion Hc'; subst v'. simpl.
    by rewrite last_snoc.
  - rewrite lookup_insert_ne in Hc' by done. by apply (Htrim c').
Qed.

Lemma prim_trimmed (w w' : world T) :
  registries_trimmed w -> prim_step bc w w' -> registries_trimmed w'.
Proof.
  intros Htrim Hstep.
  destruct Hstep as [c s e w Hc | c v v' w Hc Hsame | h it it' w Hit Hvec
                    | h pos c w w' Hfresh Hres | h other w w' Hfresh Hres
                    | this other w w' Hres | h w w' Hres].
  - intros c' v0 Hc'. simpl in Hc'.
    destruct (decide (c = c')) as [<-|Hne].
    + rewrite lookup_insert_eq in Hc'. by inversion Hc'.
    + rewrite lookup_insert_ne in Hc' by done. by apply (Htrim c').
  - intros c' v0 Hc'. simpl in Hc'.
    destruct (decide (c = c')) as [<-|Hne].
    + rewrite lookup_insert_eq in Hc'. inversion Hc'; subst v0. rewrite Hsame.
      by apply (Htrim c).
    + rewrite lookup_insert_ne in Hc' by done. by apply (Htrim c').
  - done.
  - unfold construct, get_vec in Hres.
    destruct (vecs w !! c) as [v|]; simpl in Hres; [|done].
    destruct (if bc then _ else _); simpl in Hres; [|done].
    by eapply addIterator_trimmed in Hres.
  - unfold copy_construct, get_iter in Hres.
    destruct (iters w !! other); simpl in Hres; [|done]. by inversion Hres; subst.
  - unfold assign, get_iter in Hres.
    destruct (iters w !! other) as [o|]; simpl in Hres; [|done].
    destruct (iters w !! this) as [t|]; simpl in Hres; [|done].
    assert (Hshadow : forall w2 : world T, registries_trimmed w2 ->
              (if bc
               then t2 ← need (iters w2 !! this);
                    Ok (put_iter this
                          (mk_iter (m_pos t2) (m_vec t2) (it_currentStart o)
                             (it_currentEnd o)) w2)
               else Ok w2) = Ok w' ->
              registries_trimmed w').
    { intros w2 Htrim2 Hres2. destruct bc; [|by inversion Hres2; subst].
      destruct (iters w2 !! this); simpl in Hres2; [|done]. by inversion Hres2; subst. }
    destruct (decide (m_vec t = m_vec o)).
    + by apply (Hshadow (put_iter this
                           (mk_iter (m_pos o) (m_vec t) (it_currentStart t)
                              (it_currentEnd t)) w)).
    + destruct (removeIterator _ _ _) as [w1|] eqn:Hremove; simpl in Hres; [|done].
      destruct (addIterator _ _ _) as [w2|] eqn:Hadd; simpl in Hres; [|done].
      apply (Hshadow w2); [|done].
      apply removeIterator_trimmed in Hremove as [Htrim1 _]; [|done].
      by eapply addIterator_trimmed in Hadd.
  - unfold destroy, get_iter in Hres.
    destruct (iters w !! h) as [it|]; simpl in Hres; [|done].
    destruct (removeIterator _ _ _) as [w1|] eqn:Hremove; simpl in Hres; [|done].
    inversion Hres; subst w'.
    by apply removeIterator_trimmed in Hremove as [Htrim1 _].
Qed.

Lemma api_invariants (w w' : world T) :
  registry_ok w /\ registries_trimmed w -> rtc (api_step bc) w w' ->
  registry_ok w' /\ registries_trimmed w'.
Proof.
  intros Hinv Hrun. induction Hrun as [w | w w1 w' Hstep Hrun IH]; [done|].
  apply IH. apply api_prim in Hstep. clear IH Hrun.
  induction Hstep as [w | w w2 w1 Hprim Hrest IH]; [done|].
  apply IH. destruct Hinv as [Hok Htrim].
  split; [by eapply prim_registry_ok | by eapply prim_trimmed].
Qed.
End Invariants.

(** X1: whatever calls of the header have run on containers that started
    without handles and are never copied as a whole, every registry lists a
    handle at most once, lists only handle objects that exist and refer to
    that very container, and does not end in a tombstone.  The calls are
    those of [api_step]: the handles' registering constructor (through
    begin, end and the iterators that insert and erase return), their
    implicit copy, assignment, destructor, ++, -- and +=, and the
    containers' reserve, shrink_to_fit, clear, insert, erase, push_back,
    pop_back, resize and swap. *)
Theorem api_keeps_registries_consistent {T : Type} (bc : bool) (w0 w : world T) :
  (forall c v, vecs w0 !! c = Some v -> m_iterators v = []) ->
  rtc (api_step bc) w0 w ->
  forall c v, vecs w !! c = Some v ->
    NoDup (omap id (m_iterators v))
    /\ (forall h, Some h ∈ m_iterators v ->
          exists it, iters w !! h = Some it /\ m_vec it = c)
    /\ last (m_iterators v) <> Some None.
Proof.
  intros Hclean Hrun c v Hc.
  assert (Hinv0 : registry_ok w0 /\ registries_trimmed w0).
  { split.
    - intros c0 v0 Hc0. rewrite (Hclean c0 v0 Hc0). split; [apply NoDup_nil_2|].
      intros h Hh. by apply elem_of_nil in Hh.
    - intros c0 v0 Hc0. by rewrite (Hclean c0 v0 Hc0). }
  destruct (api_invariants bc w0 w Hinv0 Hrun) as [Hok Htrim].
  destruct (Hok c v Hc) as [Hnodup Hreg]. specialize (Htrim c v Hc).
  by split_and!.
Qed.

Lemma api_keeps_registries_consistent_witness :
  NoDup (omap id (m_iterators one_element_vector))
  /\ (forall h, Some h ∈ m_iterators one_element_vector ->
        exists it, iters one_element_world !! h = Some it /\ m_vec it = vec1)
  /\ last (m_iterators one_element_vector) <> Some None.
Proof.
  apply (api_keeps_registries_consistent true fresh_world one_element_world).
  - intros c v Hc. unfold fresh_world in Hc. simpl in Hc.
    destruct (decide (c = vec1)) as [->|Hne].
    + rewrite lookup_singleton_eq in Hc. by inversion Hc.
    + by rewrite lookup_singleton_ne in Hc.
  - eapply rtc_l; [apply (api_push_back true 100 7 vec1); reflexivity|].
    eapply rtc_l; [apply (api_begin true h_it vec1); reflexivity|].
    apply rtc_refl.
  - reflexivity.
Defined.

(** ** Where the handles are after a mutation *)

Section Positions.
Context {T : Type}.
Variable bc : bool.

Lemma handle_index_Some (w : world T) (c : vid) (h : hid) (v : msiv T) (p : Z) :
  vecs w !! c = Some v -> handle_index w c h = Some p ->
  exists it, iters w !! h = Some it /\ m_pos it = sv_data (m_base v) + p.
Proof.
  intros Hc Hidx. unfold handle_index in Hidx. rewrite Hc in Hidx. simpl in Hidx.
  destruct (iters w !! h) as [it|]; simpl in Hidx; [|done].
  exists it. split; [done|]. inversion Hidx. lia.
Qed.

(** The core of every mutation, for a handle at any index. *)
Lemma mutation_moves_handle (c : vid) (h : hid) (k : nat) (w w' : world T)
    (v : msiv T) (b' : stdvector T) (insert_pos insert_size : Z) :
  registry_ok w -> vecs w !! c = Some v -> Some h ∈ m_iterators v ->
  handle_index w c h = Some (Z.of_nat k) ->
  (0 < sv_size b')%nat ->
  completeRealloc bc c (sv_data (m_base v)) insert_pos insert_size
    (put_vec c (set_base b' v) w) = Ok w' ->
  contents w' c = Some (sv_elems b')
  /\ registry w' c = Some (m_iterators v)
  /\ handle_index w' c h
     = Some (Z.of_nat k + (if negb (insert_size =? 0) && (insert_pos <=? Z.of_nat k)
                           then insert_size else 0)).
Proof.
  intros Hok Hc Hreg Hidx Hsize Hres.
  destruct (handle_index_Some w c h v _ Hc Hidx) as (it & Hit & Hpos).
  destruct (registry_ok_hypotheses c v w Hok Hc) as [Hnodup _].
  destruct (rebase_after_mutation bc c h k w w' v it b' insert_pos insert_size
              Hc Hit Hreg Hnodup Hpos Hsize Hres)
    as (v' & it' & Hc' & Hbase & Hregs & Hit' & Hpos').
  unfold contents, registry, handle_index. rewrite Hc', Hit'. simpl.
  rewrite Hbase, Hregs, Hpos'. split_and!; try done. f_equal. lia.
Qed.

Lemma mutation_completes (c : vid) (b' : stdvector T) (v : msiv T) (preStart : ptr)
    (insert_pos insert_size : Z) (w : world T) :
  registry_ok w -> vecs w !! c = Some v ->
  exists w', completeRealloc false c preStart insert_pos insert_size
               (put_vec c (set_base b' v) w) = Ok w'
             /\ exists v', vecs w' !! c = Some v' /\ m_iterators v' = m_iterators v
                           /\ m_base v' = b'.
Proof.
  intros Hok Hc.
  destruct (registry_ok_hypotheses c v w Hok Hc) as [Hnodup Hlive].
  destruct (completeRealloc_release c preStart insert_pos insert_size
              (put_vec c (set_base b' v) w) (set_base b' v)) as [w' Hres];
    [by apply lookup_insert_eq | done |].
  exists w'. split; [done|].
  eapply (completeRealloc_Ok false c _ _ _ _ w' (set_base b' v)) in Hres
    as (_ & _ & (v' & Hv' & Hbase & Hregs) & _); [| by apply lookup_insert_eq | done].
  by exists v'.
Qed.

(** The iterator an operation returns: built last, at [pos]. *)
Lemma returned_handle (ret : hid) (pos : ptr) (c : vid) (h : hid) (w w' : world T)
    (v : msiv T) :
  vecs w !! c = Some v -> ret <> h ->
  construct bc ret pos c w = Ok w' ->
  contents w' c = contents w c
  /\ registry w' c = Some (m_iterators v ++ [Some ret])
  /\ handle_index w' c h = handle_index w c h
  /\ handle_index w' c ret = Some (pos - sv_data (m_base v)).
Proof.
  intros Hc Hne Hres. apply construct_Ok in Hres as (v0 & start & Hc0 & ->).
  rewrite Hc in Hc0. inversion Hc0; subst v0.
  unfold contents, registry, handle_index. simpl.
  rewrite !lookup_insert_eq, lookup_insert_ne, Hc by done. by simpl.
Qed.

Lemma registered_not_fresh (c : vid) (h ret : hid) (v : msiv T) (w : world T) :
  registry_ok w -> vecs w !! c = Some v -> Some h ∈ m_iterators v ->
  iters w !! ret = None -> ret <> h.
Proof.
  intros Hok Hc Hreg Hfresh ->. destruct (Hok c v Hc) as [_ Hlive].
  destruct (Hlive h Hreg) as (it & Hit & _). congruence.
Qed.
End Positions.

(** X2: push_back appends the value; every registered handle below the old
    end keeps its index, so it stays on its element even when the storage
    moves, and a handle at end() is at the new end().  Without bounds
    checking the call always completes. *)
Theorem push_back_keeps_handles_in_place {T : Type} (na : ptr) (x : T) (c : vid)
    (h : hid) (k : nat) (w : world T) (v : msiv T) :
  registry_ok w -> vecs w !! c = Some v -> Some h ∈ m_iterators v ->
  handle_index w c h = Some (Z.of_nat k) ->
  (exists w', push_back false na x c w = Ok w')
  /\ forall bc w', push_back bc na x c w = Ok w' ->
       contents w' c = Some (sv_elems (m_base v) ++ [x])
       /\ registry w' c = Some (m_iterators v)
       /\ handle_index w' c h
          = Some (Z.of_nat (if (k <? sv_size (m_base v))%nat then k else S k)).
Proof.
  intros Hok Hc Hreg Hidx. split.
  - destruct (registry_ok_hypotheses c v w Hok Hc) as [_ Hlive].
    by apply (push_back_completes na x c w v).
  - intros bc w' Hres. unfold push_back, get_vec in Hres. rewrite Hc in Hres.
    simpl in Hres.
    eapply mutation_moves_handle in Hres as (Hcont & Hregs & Hidx'); try done;
      [| unfold sv_size; simpl; rewrite length_app; simpl; lia].
    split_and!; try done. rewrite Hidx'. f_equal. simpl.
    destruct (Nat.ltb_spec k (sv_size (m_base v)));
      destruct (Z.leb_spec (Z.of_nat (sv_size (m_base v))) (Z.of_nat k)); lia.
Qed.

Lemma push_back_keeps_handles_in_place_witness :
  (exists w', push_back false 600 9 vec1 watched_world = Ok w')
  /\ forall bc w', push_back bc 600 9 vec1 watched_world = Ok w' ->
       contents w' vec1 = Some ([1; 2; 3; 4] ++ [9])
       /\ registry w' vec1 = Some [Some h_it; Some h_begin]
       /\ handle_index w' vec1 h_it = Some 2.
Proof.
  apply (push_back_keeps_handles_in_place 600 9 vec1 h_it 2 watched_world watched_vector).
  - apply watched_world_ok.
  - reflexivity.
  - apply elem_of_cons. by left.
  - reflexivity.
Defined.

Lemma construct_release_completes {T : Type} (ret : hid) (pos : ptr) (c : vid)
    (w : world T) (v : msiv T) :
  vecs w !! c = Some v -> exists w', construct false ret pos c w = Ok w'.
Proof.
  intros Hc. unfold construct, addIterator, get_vec. simpl. rewrite Hc. simpl.
  by eexists.
Qed.

Lemma state_of_container {T : Type} (w : world T) (c : vid) (l : list T)
    (reg : list (option hid)) :
  contents w c = Some l -> registry w c = Some reg ->
  exists v, vecs w !! c = Some v /\ sv_elems (m_base v) = l /\ m_iterators v = reg.
Proof.
  unfold contents, registry. destruct (vecs w !! c) as [v|]; simpl; [|done].
  intros Hl Hreg. exists v. inversion Hl. inversion Hreg. done.
Qed.

(** X3: insert(pos, start, last) and insert(pos, ilist), when the container
    is not empty afterwards (it had an element or the range has one), splice
    the range in before [pos]; a registered handle at or after [pos] moves
    on by the length of the range, so it stays on its element (or at
    end()), and a handle before [pos] keeps its index.  Without bounds
    checking the call completes.  The iterator the call returns is no part
    of this property. *)
Theorem insert_range_moves_handles_with_elements {T : Type} (na : ptr) (pos : iter)
    (xs : list T) (ret : hid) (c : vid) (h : hid) (i k : nat) (w : world T)
    (v : msiv T) :
  registry_ok w -> vecs w !! c = Some v -> Some h ∈ m_iterators v ->
  handle_index w c h = Some (Z.of_nat k) ->
  m_pos pos = sv_data (m_base v) + Z.of_nat i ->
  (i <= sv_size (m_base v))%nat ->
  iters w !! ret = None ->
  (0 < sv_size (m_base v) + length xs)%nat ->
  (exists w', insert_range false na pos xs ret c w = Ok w')
  /\ forall bc w', insert_range bc na pos xs ret c w = Ok w' ->
       contents w' c
         = Some (take i (sv_elems (m_base v)) ++ xs ++ drop i (sv_elems (m_base v)))
       /\ handle_index w' c h
          = Some (Z.of_nat (if (i <=? k)%nat then k + length xs else k)).
Proof.
  intros Hok Hc Hreg Hidx Hpos Hi Hfresh Hnonempty.
  assert (Hins : sv_insert na (Z.of_nat i) xs (m_base v)
                 = Some (mk_stdvector
                           (sv_data (sv_grow na (sv_size (m_base v) + length xs) (m_base v)))
                           (take i (sv_elems (m_base v)) ++ xs
                              ++ drop i (sv_elems (m_base v)))
                           (sv_capacity
                              (sv_grow na (sv_size (m_base v) + length xs) (m_base v))))).
  { unfold sv_insert. rewrite Nat2Z.id.
    destruct (Z.leb_spec 0 (Z.of_nat i)); [|lia].
    destruct (Z.leb_spec (Z.of_nat i) (Z.of_nat (sv_size (m_base v)))); [done | lia]. }
  assert (Hne : ret <> h) by (by eapply registered_not_fresh).
  split.
  - unfold insert_range, insert_with, get_vec. rewrite Hc. simpl.
    replace (m_pos pos - sv_data (m_base v)) with (Z.of_nat i) by lia.
    rewrite Hins. simpl.
    edestruct (mutation_completes (T:=T)) as (w1 & -> & v1 & Hc1 & _); [done | done |].
    simpl. rewrite Hc1. simpl. by eapply construct_release_completes.
  - intros bc w' Hres. unfold insert_range, insert_with, get_vec in Hres.
    rewrite Hc in Hres. simpl in Hres.
    replace (m_pos pos - sv_data (m_base v)) with (Z.of_nat i) in Hres by lia.
    rewrite Hins in Hres. simpl in Hres.
    destruct (completeRealloc _ _ _ _ _ _) as [w1|] eqn:Hrealloc; simpl in Hres; [|done].
    eapply mutation_moves_handle in Hrealloc as (Hcont & Hregs & Hidx'); try done;
      [| unfold sv_size in *; simpl; rewrite !length_app, length_take, length_drop; lia].
    destruct (state_of_container w1 c _ _ Hcont Hregs) as (v1 & Hc1 & Helems & Hreg1).
    rewrite Hc1 in Hres. simpl in Hres.
    eapply returned_handle in Hres as (Hcont' & Hregs' & Hidxh & Hidxr); [| done | done].
    rewrite Hcont', Hidxh, Hcont, Hidx'. simpl.
    split; [done|]. f_equal.
    destruct (Nat.leb_spec i k); destruct (Z.leb_spec (Z.of_nat i) (Z.of_nat k));
      try lia; destruct (Z.eqb_spec (Z.of_nat (length xs)) 0); simpl; lia.
Qed.

Lemma insert_range_moves_handles_with_elements_witness :
  (exists w', insert_range false 600 (mk_iter 301 vec1 300 vec1) [8; 9] h_ret vec1
                watched_world = Ok w')
  /\ forall bc w', insert_range bc 600 (mk_iter 301 vec1 300 vec1) [8; 9] h_ret vec1
                     watched_world = Ok w' ->
       contents w' vec1 = Some ([1] ++ [8; 9] ++ [2; 3; 4])
       /\ handle_index w' vec1 h_it = Some 4.
Proof.
  apply (insert_range_moves_handles_with_elements 600 (mk_iter 301 vec1 300 vec1)
           [8; 9] h_ret vec1 h_it 1 2 watched_world watched_vector).
  - apply watched_world_ok.
  - reflexivity.
  - apply elem_of_cons. by left.
  - reflexivity.
  - reflexivity.
  - vm_compute. first [lia | reflexivity].
  - reflexivity.
  - vm_compute. first [lia | reflexivity].
Defined.

(** X4: erase(first, last) that leaves at least one element in the
    container removes the range (the source's [last.pos] read as the member
    [m_pos]).  A registered handle before [first] keeps its index; every
    handle at or after [first] is moved back by the length of the range:
    one behind the range stays on its element, one at end() is at the new
    end(), and one on an erased element lands before [first].  Without
    bounds checking the call completes.  The iterator the call returns is
    no part of this property. *)
Theorem erase_range_moves_handles_back {T : Type} (first last : iter)
    (ret : hid) (c : vid) (h : hid) (i j k : nat) (w : world T) (v : msiv T) :
  registry_ok w -> vecs w !! c = Some v -> Some h ∈ m_iterators v ->
  handle_index w c h = Some (Z.of_nat k) ->
  m_pos first = sv_data (m_base v) + Z.of_nat i ->
  m_pos last = sv_data (m_base v) + Z.of_nat j ->
  (i <= j)%nat -> (j <= sv_size (m_base v))%nat ->
  (j - i < sv_size (m_base v))%nat ->
  iters w !! ret = None ->
  (exists w', erase_range false first last ret c w = Ok w')
  /\ forall bc w', erase_range bc first last ret c w = Ok w' ->
       contents w' c
         = Some (take i (sv_elems (m_base v)) ++ drop j (sv_elems (m_base v)))
       /\ handle_index w' c h
          = Some (if (i <=? k)%nat then Z.of_nat k - Z.of_nat (j - i) else Z.of_nat k).
Proof.
  intros Hok Hc Hreg Hidx Hfirst Hlast Hij Hj Hrest Hfresh.
  assert (Hera : sv_erase_range (Z.of_nat i) (Z.of_nat j) (m_base v)
                 = Some (mk_stdvector (sv_data (m_base v))
                           (take i (sv_elems (m_base v)) ++ drop j (sv_elems (m_base v)))
                           (sv_capacity (m_base v)))).
  { unfold sv_erase_range. rewrite !Nat2Z.id.
    destruct (Z.leb_spec 0 (Z.of_nat i)); [|lia].
    destruct (Z.leb_spec (Z.of_nat i) (Z.of_nat j)); [|lia].
    destruct (Z.leb_spec (Z.of_nat j) (Z.of_nat (sv_size (m_base v)))); [done | lia]. }
  assert (Hne : ret <> h) by (by eapply registered_not_fresh).
  split.
  - unfold erase_range, get_vec. rewrite Hc. simpl.
    replace (m_pos first - sv_data (m_base v)) with (Z.of_nat i) by lia.
    replace (m_pos last - sv_data (m_base v)) with (Z.of_nat j) by lia.
    rewrite Hera. simpl.
    edestruct (mutation_completes (T:=T)) as (w1 & -> & v1 & Hc1 & _); [done | done |].
    simpl. rewrite Hc1. simpl. by eapply construct_release_completes.
  - intros bc w' Hres. unfold erase_range, get_vec in Hres.
    rewrite Hc in Hres. simpl in Hres.
    replace (m_pos first - sv_data (m_base v)) with (Z.of_nat i) in Hres by lia.
    replace (m_pos last - sv_data (m_base v)) with (Z.of_nat j) in Hres by lia.
    replace (m_pos first - m_pos last) with (Z.of_nat i - Z.of_nat j) in Hres by lia.
    rewrite Hera in Hres. simpl in Hres.
    destruct (assert bc _); simpl in Hres; [|done].
    destruct (completeRealloc _ _ _ _ _ _) as [w1|] eqn:Hrealloc; simpl in Hres; [|done].
    eapply mutation_moves_handle in Hrealloc as (Hcont & Hregs & Hidx'); try done;
      [| unfold sv_size in *; simpl; rewrite !length_app, length_take, length_drop; lia].
    destruct (state_of_container w1 c _ _ Hcont Hregs) as (v1 & Hc1 & Helems & Hreg1).
    rewrite Hc1 in Hres. simpl in Hres.
    eapply returned_handle in Hres as (Hcont' & Hregs' & Hidxh & Hidxr); [| done | done].
    rewrite Hcont', Hidxh, Hcont, Hidx'. simpl.
    split; [done|]. f_equal.
    destruct (Nat.leb_spec i k); destruct (Z.leb_spec (Z.of_nat i) (Z.of_nat k));
      try lia; destruct (Z.eqb_spec (Z.of_nat i - Z.of_nat j) 0); simpl; lia.
Qed.

Lemma erase_range_moves_handles_back_witness :
  (exists w', erase_range false (mk_iter 301 vec1 300 vec1) (mk_iter 302 vec1 300 vec1)
                h_ret vec1 watched_world = Ok w')
  /\ forall bc w', erase_range bc (mk_iter 301 vec1 300 vec1) (mk_iter 302 vec1 300 vec1)
                     h_ret vec1 watched_world = Ok w' ->
       contents w' vec1 = Some ([1] ++ [3; 4])
       /\ handle_index w' vec1 h_it = Some 1.
Proof.
  apply (erase_range_moves_handles_back (mk_iter 301 vec1 300 vec1)
           (mk_iter 302 vec1 300 vec1) h_ret vec1 h_it 1 2 2 watched_world
           watched_vector).
  - apply watched_world_ok.
  - reflexivity.
  - apply elem_of_cons. by left.
  - reflexivity.
  - reflexivity.
  - reflexivity.
  - lia.
  - vm_compute. first [lia | reflexivity].
  - vm_compute. first [lia | reflexivity].
  - reflexivity.
Defined.

(** ** erase(it) and the handle on the erased element *)

Lemma lookup_erased {A : Type} (l : list A) (k : nat) :
  (k < length l)%nat ->
  (forall i, (i < k)%nat -> (take k l ++ drop (S k) l) !! i = l !! i)
  /\ (take k l ++ drop (S k) l) !! k = l !! S k.
Proof.
  intros Hk. split.
  - intros i Hi. rewrite lookup_app_l by (rewrite length_take; lia).
    by apply lookup_take_lt.
  - rewrite lookup_app_r by (rewrite length_take; lia).
    rewrite lookup_drop, length_take. f_equal. lia.
Qed.

(** C2, as amended: erase(it) with [it] on the element X of index k > 0
    removes X.  The registered handle that stood on X is moved back by one:
    it stands on the element before X and reads it.  The iterator erase
    returns stands on index k and reads the element that followed X, or is
    end() when X was the last element (reading there is undefined).
    Without bounds checking the call always completes. *)
Theorem erase_moves_handle_to_previous_element {T : Type} (pos : iter) (ret : hid)
    (c : vid) (h : hid) (k : nat) (w : world T) (v : msiv T) :
  registry_ok w -> vecs w !! c = Some v -> Some h ∈ m_iterators v ->
  handle_index w c h = Some (Z.of_nat k) ->
  m_pos pos = sv_data (m_base v) + Z.of_nat k ->
  (0 < k)%nat -> (k < sv_size (m_base v))%nat ->
  iters w !! ret = None ->
  (exists w', erase false pos ret c w = Ok w')
  /\ forall bc w', erase bc pos ret c w = Ok w' ->
       contents w' c
         = Some (take k (sv_elems (m_base v)) ++ drop (S k) (sv_elems (m_base v)))
       /\ handle_index w' c h = Some (Z.of_nat k - 1)
       /\ handle_index w' c ret = Some (Z.of_nat k)
       /\ deref false h w' = need (sv_elems (m_base v) !! (k - 1)%nat)
       /\ deref false ret w' = need (sv_elems (m_base v) !! S k).
Proof.
  intros Hok Hc Hreg Hidx Hpos Hk0 Hk Hfresh.
  assert (Hera : sv_erase (Z.of_nat k) (m_base v)
                 = Some (mk_stdvector (sv_data (m_base v))
                           (take k (sv_elems (m_base v))
                              ++ drop (S k) (sv_elems (m_base v)))
                           (sv_capacity (m_base v)))).
  { unfold sv_erase, sv_erase_range.
    replace (Z.of_nat k + 1) with (Z.of_nat (S k)) by lia. rewrite !Nat2Z.id.
    destruct (Z.ltb_spec (Z.of_nat k) (Z.of_nat (sv_size (m_base v)))); [|lia].
    destruct (Z.leb_spec 0 (Z.of_nat k)); [|lia].
    destruct (Z.leb_spec (Z.of_nat k) (Z.of_nat (S k))); [|lia].
    destruct (Z.leb_spec (Z.of_nat (S k)) (Z.of_nat (sv_size (m_base v)))); [done | lia]. }
  assert (Hne : ret <> h) by (by eapply registered_not_fresh).
  split.
  - unfold erase, get_vec. rewrite Hc. simpl.
    replace (m_pos pos - sv_data (m_base v)) with (Z.of_nat k) by lia.
    rewrite Hera. simpl.
    edestruct (mutation_completes (T:=T)) as (w1 & -> & v1 & Hc1 & _); [done | done |].
    simpl. rewrite Hc1. simpl. by eapply construct_release_completes.
  - intros bc w' Hres.
    assert (Hok' : registry_ok w') by (by eapply registry_ok_erase).
    unfold erase, get_vec in Hres. rewrite Hc in Hres. simpl in Hres.
    replace (m_pos pos - sv_data (m_base v)) with (Z.of_nat k) in Hres by lia.
    rewrite Hera in Hres. simpl in Hres.
    destruct (completeRealloc _ _ _ _ _ _) as [w1|] eqn:Hrealloc; simpl in Hres; [|done].
    eapply mutation_moves_handle in Hrealloc as (Hcont & Hregs & Hidx'); try done;
      [| unfold sv_size in *; simpl; rewrite !length_app, length_take, length_drop; lia].
    destruct (state_of_container w1 c _ _ Hcont Hregs) as (v1 & Hc1 & Helems & Hreg1).
    rewrite Hc1 in Hres. simpl in Hres.
    pose proof Hres as Hbuilt.
    eapply returned_handle in Hres as (Hcont' & Hregs' & Hidxh & Hidxr); [| done | done].
    assert (Hidxh' : handle_index w' c h = Some (Z.of_nat k - 1)).
    { rewrite Hidxh, Hidx'. f_equal.
      destruct (Z.leb_spec (Z.of_nat k) (Z.of_nat k)); simpl; lia. }
    assert (Hidxr' : handle_index w' c ret = Some (Z.of_nat k)).
    { rewrite Hidxr. f_equal. lia. }
    destruct (state_of_container w' c _ _ (eq_trans Hcont' Hcont) Hregs')
      as (v' & Hc' & Helems' & Hreg').
    destruct (lookup_erased (sv_elems (m_base v)) k Hk) as [Hbefore Hat].
    assert (Hread : forall g n, Some g ∈ m_iterators v' ->
              handle_index w' c g = Some (Z.of_nat n) ->
              deref false g w' = need ((take k (sv_elems (m_base v))
                                          ++ drop (S k) (sv_elems (m_base v))) !! n)).
    { intros g n Hg Hn.
      destruct (Hok' c v' Hc') as [_ Hlive].
      destruct (Hlive g Hg) as (itg & Hitg & Hvecg).
      destruct (handle_index_Some w' c g v' _ Hc' Hn) as (itg' & Hitg' & Hposg).
      rewrite Hitg in Hitg'. inversion Hitg'; subst itg'.
      unfold deref, get_iter, get_vec. rewrite Hitg. simpl. rewrite Hvecg, Hc'. simpl.
      unfold sv_load. rewrite Hposg.
      replace (sv_data (m_base v') <=? sv_data (m_base v') + Z.of_nat n) with true
        by (symmetry; apply Z.leb_le; lia).
      replace (Z.to_nat (sv_data (m_base v') + Z.of_nat n - sv_data (m_base v')))
        with n by lia.
      by rewrite Helems'. }
    split_and!; try done.
    + by rewrite Hcont', Hcont.
    + rewrite (Hread h (k - 1)%nat).
      * rewrite Hbefore by lia. done.
      * rewrite Hreg', Hreg1. apply elem_of_app. by left.
      * rewrite Hidxh'. f_equal. lia.
    + rewrite (Hread ret k).
      * by rewrite Hat.
      * rewrite Hreg'. apply elem_of_app. right. apply elem_of_cons. by left.
      * done.
Qed.

Lemma erase_moves_handle_to_previous_element_witness :
  (exists w', erase false (mk_iter 302 vec1 300 vec1) h_ret vec1 watched_world = Ok w')
  /\ forall bc w', erase bc (mk_iter 302 vec1 300 vec1) h_ret vec1 watched_world = Ok w' ->
       contents w' vec1 = Some ([1; 2] ++ [4])
       /\ handle_index w' vec1 h_it = Some 1
       /\ handle_index w' vec1 h_ret = Some 2
       /\ deref false h_it w' = Ok 2
       /\ deref false h_ret w' = Ok 4.
Proof.
  apply (erase_moves_handle_to_previous_element (mk_iter 302 vec1 300 vec1) h_ret vec1
           h_it 2 watched_world watched_vector).
  - apply watched_world_ok.
  - reflexivity.
  - apply elem_of_cons. by left.
  - reflexivity.
  - reflexivity.
  - lia.
  - vm_compute. lia.
  - reflexivity.
Defined.

Lemma difference_of_sizes (a b : nat) :
  Z.of_nat a < 2 ^ 63 -> Z.of_nat b < 2 ^ 63 ->
  to_difference_type (size_type_sub a b) = Z.of_nat a - Z.of_nat b.
Proof.
  intros Ha Hb. unfold to_difference_type, size_type_sub.
  destruct (Z.le_gt_cases 0 (Z.of_nat a - Z.of_nat b)) as [Hpos | Hneg].
  - rewrite Z.mod_small by lia.
    destruct (Z.ltb_spec (Z.of_nat a - Z.of_nat b) (2 ^ 63)); lia.
  - replace ((Z.of_nat a - Z.of_nat b) mod 2 ^ 64)
      with (Z.of_nat a - Z.of_nat b + 2 ^ 64).
    + destruct (Z.ltb_spec (Z.of_nat a - Z.of_nat b + 2 ^ 64) (2 ^ 63)); lia.
    + apply Z.mod_unique with (q := -1); lia.
Qed.

(** X5: pop_back on a container of two or more elements removes the last
    one; a registered handle on an earlier element keeps its index, and a
    handle on the removed element or at end() is moved back by one, to the
    new last element or the new end(). *)
Theorem pop_back_moves_trailing_handles_back {T : Type} (c : vid) (h : hid) (k : nat)
    (w : world T) (v : msiv T) :
  registry_ok w -> vecs w !! c = Some v -> Some h ∈ m_iterators v ->
  handle_index w c h = Some (Z.of_nat k) ->
  (2 <= sv_size (m_base v))%nat ->
  (exists w', pop_back false c w = Ok w')
  /\ forall bc w', pop_back bc c w = Ok w' ->
       contents w' c = Some (removelast (sv_elems (m_base v)))
       /\ registry w' c = Some (m_iterators v)
       /\ handle_index w' c h
          = Some (if (k <? sv_size (m_base v) - 1)%nat then Z.of_nat k
                  else Z.of_nat k - 1).
Proof.
  intros Hok Hc Hreg Hidx Hsize.
  assert (Hlen : length (removelast (sv_elems (m_base v)))
                 = (sv_size (m_base v) - 1)%nat).
  { unfold sv_size. rewrite removelast_firstn_len, length_take. lia. }
  assert (Hpop : sv_pop_back (m_base v)
                 = Some (mk_stdvector (sv_data (m_base v))
                           (removelast (sv_elems (m_base v))) (sv_capacity (m_base v)))).
  { unfold sv_pop_back, sv_size in *.
    destruct (sv_elems (m_base v)); [simpl in Hsize; lia | done]. }
  split.
  - unfold pop_back, get_vec. rewrite Hc. simpl. rewrite Hpop. simpl.
    edestruct (mutation_completes (T:=T)) as (w1 & -> & _); [done | done |].
    by eexists.
  - intros bc w' Hres. unfold pop_back, get_vec in Hres. rewrite Hc in Hres.
    simpl in Hres. destruct (assert bc _); simpl in Hres; [|done].
    rewrite Hpop in Hres. simpl in Hres.
    eapply mutation_moves_handle in Hres as (Hcont & Hregs & Hidx'); try done;
      [| unfold sv_size at 1; simpl; rewrite Hlen; lia].
    split_and!; try done. rewrite Hidx'. f_equal.
    unfold sv_size at 1. cbn [sv_elems]. rewrite Hlen. simpl.
    destruct (Nat.ltb_spec k (sv_size (m_base v) - 1));
      destruct (Z.leb_spec (Z.of_nat (sv_size (m_base v) - 1)) (Z.of_nat k)); lia.
Qed.

Lemma pop_back_moves_trailing_handles_back_witness :
  (exists w', pop_back false vec1 watched_world = Ok w')
  /\ forall bc w', pop_back bc vec1 watched_world = Ok w' ->
       contents w' vec1 = Some [1; 2; 3]
       /\ registry w' vec1 = Some [Some h_it; Some h_begin]
       /\ handle_index w' vec1 h_it = Some 2.
Proof.
  apply (pop_back_moves_trailing_handles_back vec1 h_it 2 watched_world watched_vector).
  - apply watched_world_ok.
  - reflexivity.
  - apply elem_of_cons. by left.
  - reflexivity.
  - vm_compute. first [lia | reflexivity].
Defined.

(** X6: resize(count) and resize(count, value) with count > 0, for sizes
    below 2^63: the elements are cut to [count] or padded with [value]; a
    registered handle below both the old and the new size keeps its index,
    and any other is moved by count - size(), which takes a handle at end()
    to the new end().  Below 2^63 the unsigned subtraction of the sizes,
    read back as a signed difference, is their difference as integers. *)
Theorem resize_moves_end_handles {T : Type} (na : ptr) (count : nat) (value : T)
    (c : vid) (h : hid) (k : nat) (w : world T) (v : msiv T) :
  registry_ok w -> vecs w !! c = Some v -> Some h ∈ m_iterators v ->
  handle_index w c h = Some (Z.of_nat k) ->
  (0 < count)%nat ->
  Z.of_nat count < 2 ^ 63 -> Z.of_nat (sv_size (m_base v)) < 2 ^ 63 ->
  to_difference_type (size_type_sub count (sv_size (m_base v)))
    = Z.of_nat count - Z.of_nat (sv_size (m_base v))
  /\ (exists w', resize false na count value c w = Ok w')
  /\ forall bc w', resize bc na count value c w = Ok w' ->
       contents w' c
         = Some (if (count <=? sv_size (m_base v))%nat
                 then take count (sv_elems (m_base v))
                 else sv_elems (m_base v)
                        ++ replicate (count - sv_size (m_base v)) value)
       /\ registry w' c = Some (m_iterators v)
       /\ handle_index w' c h
          = Some (if (Nat.min count (sv_size (m_base v)) <=? k)%nat
                  then Z.of_nat k + (Z.of_nat count - Z.of_nat (sv_size (m_base v)))
                  else Z.of_nat k).
Proof.
  intros Hok Hc Hreg Hidx Hcount Hcb Hsb.
  assert (Hsize : sv_size (sv_resize na count value (m_base v)) = count).
  { unfold sv_resize, sv_size in *.
    destruct (Nat.leb_spec count (length (sv_elems (m_base v)))); simpl.
    - rewrite length_take. lia.
    - rewrite length_app, length_replicate. lia. }
  assert (Helems : sv_elems (sv_resize na count value (m_base v))
                   = if (count <=? sv_size (m_base v))%nat
                     then take count (sv_elems (m_base v))
                     else sv_elems (m_base v)
                            ++ replicate (count - sv_size (m_base v)) value).
  { unfold sv_resize. by destruct (count <=? sv_size (m_base v))%nat. }
  split; [by apply difference_of_sizes|]. split.
  - unfold resize, get_vec. rewrite Hc. simpl.
    destruct (count =? sv_size (m_base v))%nat; [by eexists|].
    edestruct (mutation_completes (T:=T)) as (w1 & -> & _); [done | done |].
    by eexists.
  - intros bc w' Hres. unfold resize, get_vec in Hres. rewrite Hc in Hres.
    simpl in Hres.
    destruct (Nat.eqb_spec count (sv_size (m_base v))) as [Heq | Hne].
    + inversion Hres; subst w'. unfold contents, registry. rewrite Hc. simpl.
      rewrite Hidx, <- Heq, Nat.leb_refl, Nat.min_id.
      rewrite take_ge by (unfold sv_size in Heq; lia).
      split_and!; try done. f_equal. destruct (count <=? k)%nat; lia.
    + eapply mutation_moves_handle in Hres as (Hcont & Hregs & Hidx'); try done;
        [| rewrite Hsize; lia].
      rewrite Hcont, Helems, Hidx', Hsize, difference_of_sizes by done.
      split_and!; try done. f_equal.
      destruct (Nat.ltb_spec (sv_size (m_base v)) count);
        destruct (Nat.leb_spec (Nat.min count (sv_size (m_base v))) k);
        destruct (Z.eqb_spec (Z.of_nat count - Z.of_nat (sv_size (m_base v))) 0);
        simpl;
        try (destruct (Z.leb_spec (Z.of_nat (sv_size (m_base v))) (Z.of_nat k)); lia);
        try (destruct (Z.leb_spec (Z.of_nat count) (Z.of_nat k)); lia).
Qed.

Lemma resize_moves_end_handles_witness :
  to_difference_type (size_type_sub 2 4) = -2
  /\ (exists w', resize false 600 2 0 vec1 watched_world = Ok w')
  /\ forall bc w', resize bc 600 2 0 vec1 watched_world = Ok w' ->
       contents w' vec1 = Some [1; 2]
       /\ registry w' vec1 = Some [Some h_it; Some h_begin]
       /\ handle_index w' vec1 h_it = Some 0.
Proof.
  apply (resize_moves_end_handles 600 2 0 vec1 h_it 2 watched_world watched_vector).
  - apply watched_world_ok.
  - reflexivity.
  - apply elem_of_cons. by left.
  - reflexivity.
  - lia.
  - vm_compute. first [lia | reflexivity].
  - vm_compute. first [lia | reflexivity].
Defined.

(** X7: reserve and shrink_to_fit on a container that has elements change
    neither the elements nor the index of any registered handle, whether
    the storage is moved or not; reserve moves it to the new block exactly
    when the request exceeds the capacity. *)
Theorem reserve_and_shrink_keep_indices {T : Type} (na : ptr) (cap : nat) (c : vid)
    (h : hid) (k : nat) (w : world T) (v : msiv T) :
  registry_ok w -> vecs w !! c = Some v -> Some h ∈ m_iterators v ->
  handle_index w c h = Some (Z.of_nat k) ->
  (0 < sv_size (m_base v))%nat ->
  (exists w', reserve false na cap c w = Ok w')
  /\ (exists w', shrink_to_fit false na c w = Ok w')
  /\ (forall bc w', reserve bc na cap c w = Ok w' ->
        contents w' c = Some (sv_elems (m_base v))
        /\ registry w' c = Some (m_iterators v)
        /\ handle_index w' c h = Some (Z.of_nat k)
        /\ data c w' = Ok (if (cap <=? sv_capacity (m_base v))%nat
                           then sv_data (m_base v) else na)
        /\ capacity c w' = Ok (Nat.max cap (sv_capacity (m_base v))))
  /\ (forall bc w', shrink_to_fit bc na c w = Ok w' ->
        contents w' c = Some (sv_elems (m_base v))
        /\ registry w' c = Some (m_iterators v)
        /\ handle_index w' c h = Some (Z.of_nat k)).
Proof.
  intros Hok Hc Hreg Hidx Hsize.
  assert (Hres_elems : sv_elems (sv_reserve na cap (m_base v)) = sv_elems (m_base v)).
  { unfold sv_reserve. by destruct (_ <=? _)%nat. }
  assert (Hshr_elems : sv_elems (sv_shrink_to_fit na (m_base v)) = sv_elems (m_base v)).
  { unfold sv_shrink_to_fit. by destruct (_ <=? _)%nat. }
  split_and!.
  - unfold reserve, get_vec. rewrite Hc. simpl.
    edestruct (mutation_completes (T:=T)) as (w1 & -> & _); [done | done |].
    by eexists.
  - unfold shrink_to_fit, get_vec. rewrite Hc. simpl.
    edestruct (mutation_completes (T:=T)) as (w1 & -> & _); [done | done |].
    by eexists.
  - intros bc w' Hres. unfold reserve, get_vec in Hres. rewrite Hc in Hres.
    simpl in Hres.
    pose proof Hres as Hres'.
    eapply mutation_moves_handle in Hres as (Hcont & Hregs & Hidx'); try done;
      [| unfold sv_size in *; rewrite Hres_elems; lia].
    rewrite Hcont, Hres_elems, Hidx'. simpl. rewrite Z.add_0_r.
    split_and!; try done.
    + destruct (registry_ok_hypotheses c v w Hok Hc) as [Hnodup _].
      eapply (completeRealloc_Ok bc c _ _ _ _ w' (set_base _ v)) in Hres'
        as (_ & _ & (v' & Hv' & Hbase & _) & _); [| by apply lookup_insert_eq | done].
      unfold data, get_vec. rewrite Hv'. simpl. rewrite Hbase. simpl.
      unfold sv_reserve. by destruct (cap <=? sv_capacity (m_base v))%nat.
    + destruct (registry_ok_hypotheses c v w Hok Hc) as [Hnodup _].
      eapply (completeRealloc_Ok bc c _ _ _ _ w' (set_base _ v)) in Hres'
        as (_ & _ & (v' & Hv' & Hbase & _) & _); [| by apply lookup_insert_eq | done].
      unfold capacity, get_vec. rewrite Hv'. simpl. rewrite Hbase. simpl.
      unfold sv_reserve. f_equal.
      destruct (Nat.leb_spec cap (sv_capacity (m_base v))); simpl; lia.
  - intros bc w' Hres. unfold shrink_to_fit, get_vec in Hres. rewrite Hc in Hres.
    simpl in Hres.
    eapply mutation_moves_handle in Hres as (Hcont & Hregs & Hidx'); try done;
      [| unfold sv_size in *; rewrite Hshr_elems; lia].
    rewrite Hcont, Hshr_elems, Hidx'. simpl. rewrite Z.add_0_r. done.
Qed.

Lemma reserve_and_shrink_keep_indices_witness :
  (exists w', reserve false 600 8 vec1 watched_world = Ok w')
  /\ (exists w', shrink_to_fit false 600 vec1 watched_world = Ok w')
  /\ (forall bc w', reserve bc 600 8 vec1 watched_world = Ok w' ->
        contents w' vec1 = Some [1; 2; 3; 4]
        /\ registry w' vec1 = Some [Some h_it; Some h_begin]
        /\ handle_index w' vec1 h_it = Some 2
        /\ data vec1 w' = Ok 600
        /\ capacity vec1 w' = Ok 8%nat)
  /\ (forall bc w', shrink_to_fit bc 600 vec1 watched_world = Ok w' ->
        contents w' vec1 = Some [1; 2; 3; 4]
        /\ registry w' vec1 = Some [Some h_it; Some h_begin]
        /\ handle_index w' vec1 h_it = Some 2).
Proof.
  apply (reserve_and_shrink_keep_indices 600 8 vec1 h_it 2 watched_world watched_vector).
  - apply watched_world_ok.
  - reflexivity.
  - apply elem_of_cons. by left.
  - reflexivity.
  - vm_compute. first [lia | reflexivity].
Defined.

(** ** Handles that come and go *)

Lemma removeIterator_slots_snoc (h : hid) (reg : list (option hid)) :
  Some h ∉ reg -> last reg <> Some None ->
  removeIterator_slots h (reg ++ [Some h]) = reg.
Proof.
  intros Habs Hlast. unfold removeIterator_slots.
  rewrite map_app, tombstone_absent by done. simpl.
  unfold tombstone at 1. rewrite decide_True by done.
  rewrite trim_trailing_snoc_None. by apply trim_trailing_fixed.
Qed.

Lemma world_restored {T : Type} (c : vid) (h : hid) (v v' : msiv T) (it : iter)
    (w : world T) :
  vecs w !! c = Some v -> iters w !! h = None ->
  mk_world (<[c := v]> (<[c := v']> (vecs w))) (delete h (<[h := it]> (iters w))) = w.
Proof.
  intros Hc Hfresh. destruct w as [vs its]. simpl in *.
  by rewrite insert_insert_eq, insert_id, delete_insert_id.
Qed.

Lemma set_iterators_back {T : Type} (reg reg' : list (option hid)) (v : msiv T) :
  m_iterators v = reg -> set_iterators reg (set_iterators reg' v) = v.
Proof. intros <-. by destruct v. Qed.

(** X8: a handle made by begin() or end() and destroyed again leaves the
    world exactly as it was: the constructor appends the handle to the
    registry and the destructor's tombstone is trimmed at once.  begin()
    and end() complete unless bounds checking meets an empty container. *)
Theorem begin_end_then_destroy_restore_the_world {T : Type} (bc : bool) (h : hid)
    (c : vid) (w : world T) (v : msiv T) :
  registry_ok w -> registries_trimmed w ->
  vecs w !! c = Some v -> iters w !! h = None ->
  (bc = true -> (0 < sv_size (m_base v))%nat) ->
  exists w1 w2,
    begin bc h c w = Ok w1 /\ registry w1 c = Some (m_iterators v ++ [Some h])
    /\ destroy h w1 = Ok w
    /\ end_ bc h c w = Ok w2 /\ registry w2 c = Some (m_iterators v ++ [Some h])
    /\ destroy h w2 = Ok w.
Proof.
  intros Hok Htrim Hc Hfresh Hnonempty.
  assert (Habs : Some h ∉ m_iterators v).
  { intros Hin. destruct (Hok c v Hc) as [_ Hlive].
    destruct (Hlive h Hin) as (it & Hit & _). congruence. }
  specialize (Htrim c v Hc).
  assert (Hstart : exists start,
            (if bc then sv_subscript 0 (m_base v) else Ok nullptr) = Ok start).
  { destruct bc; [|by eexists]. unfold sv_subscript.
    specialize (Hnonempty eq_refl). apply Nat.ltb_lt in Hnonempty.
    rewrite Hnonempty. by eexists. }
  destruct Hstart as [start Hstart].
  assert (Hround : forall pos,
            exists w1, construct bc h pos c w = Ok w1
                       /\ registry w1 c = Some (m_iterators v ++ [Some h])
                       /\ destroy h w1 = Ok w).
  { intros pos. unfold construct, addIterator, get_vec. rewrite Hc. simpl.
    rewrite Hstart. simpl. rewrite Hc. simpl. eexists. split; [done|].
    unfold registry, destroy, removeIterator, get_iter, get_vec. simpl.
    rewrite !lookup_insert_eq. simpl. rewrite lookup_insert_eq. simpl.
    split; [done|]. f_equal.
    rewrite removeIterator_slots_snoc by done.
    rewrite set_iterators_back by done. by apply world_restored. }
  destruct (Hround (sv_data (m_base v))) as (w1 & Hb & Hr1 & Hd1).
  destruct (Hround (sv_data (m_base v) + Z.of_nat (sv_size (m_base v))))
    as (w2 & He & Hr2 & Hd2).
  exists w1, w2. unfold begin, end_, get_vec. rewrite Hc. simpl. by split_and!.
Qed.

Lemma begin_end_then_destroy_restore_the_world_witness :
  exists w1 w2,
    begin true h_ret vec1 watched_world = Ok w1
    /\ registry w1 vec1 = Some ([Some h_it; Some h_begin] ++ [Some h_ret])
    /\ destroy h_ret w1 = Ok watched_world
    /\ end_ true h_ret vec1 watched_world = Ok w2
    /\ registry w2 vec1 = Some ([Some h_it; Some h_begin] ++ [Some h_ret])
    /\ destroy h_ret w2 = Ok watched_world.
Proof.
  apply (begin_end_then_destroy_restore_the_world true h_ret vec1 watched_world
           watched_vector).
  - apply watched_world_ok.
  - apply watched_world_ok.
  - reflexivity.
  - reflexivity.
  - intros _. vm_compute. first [lia | reflexivity].
Defined.

(** X9: a handle copied from another (as for every iterator passed by
    value) is in no registry, and destroying the copy leaves the world
    exactly as it was before the copy. *)
Theorem copy_then_destroy_restores_the_world {T : Type} (h other : hid)
    (w : world T) (o : iter) (v : msiv T) :
  registry_ok w -> registries_trimmed w ->
  iters w !! other = Some o -> vecs w !! m_vec o = Some v ->
  iters w !! h = None ->
  exists w1,
    copy_construct h other w = Ok w1
    /\ vecs w1 = vecs w
    /\ iters w1 !! h = Some o
    /\ unregistered h w1
    /\ destroy h w1 = Ok w.
Proof.
  intros Hok Htrim Ho Hv Hfresh.
  assert (Hunreg : unregistered h w).
  { intros c v' Hc Hin. destruct (Hok c v' Hc) as [_ Hlive].
    destruct (Hlive h Hin) as (it & Hit & _). congruence. }
  unfold copy_construct, get_iter. rewrite Ho. simpl.
  eexists. split; [done|]. simpl. rewrite lookup_insert_eq.
  split_and!; try done.
  unfold destroy, removeIterator, get_iter, get_vec. simpl.
  rewrite lookup_insert_eq. simpl. rewrite Hv. simpl. f_equal.
  rewrite removeIterator_slots_absent; [| by apply (Hunreg (m_vec o)) | by apply (Htrim (m_vec o))].
  replace (set_iterators (m_iterators v) v) with v by (by destruct v).
  destruct w as [vs its]. simpl in *.
  by rewrite insert_id, delete_insert_id.
Qed.

Lemma copy_then_destroy_restores_the_world_witness :
  exists w1,
    copy_construct h_copy h_it watched_world = Ok w1
    /\ vecs w1 = vecs watched_world
    /\ iters w1 !! h_copy = Some (mk_iter 302 vec1 300 vec1)
    /\ unregistered h_copy w1
    /\ destroy h_copy w1 = Ok watched_world.
Proof.
  apply (copy_then_destroy_restores_the_world h_copy h_it watched_world
           (mk_iter 302 vec1 300 vec1) watched_vector).
  - apply watched_world_ok.
  - apply watched_world_ok.
  - reflexivity.
  - reflexivity.
  - reflexivity.
Defined.

(** X10: copy assignment [this = other] always completes on live handles.
    Afterwards [this] is at the position of [other] and compares equal to
    it, no other handle has changed, and the registry invariant still
    holds.  Between handles of one container no registry changes; otherwise
    [this] is removed from the registry of its old container and appended
    to that of the container of [other]. *)
Theorem assign_follows_the_source {T : Type} (bc : bool) (this other : hid)
    (w : world T) (t o : iter) (vt vo : msiv T) :
  registry_ok w ->
  iters w !! this = Some t -> iters w !! other = Some o ->
  vecs w !! m_vec t = Some vt -> vecs w !! m_vec o = Some vo ->
  exists w',
    assign bc this other w = Ok w'
    /\ registry_ok w'
    /\ position_of this w' = Ok (m_pos o)
    /\ iter_eq bc this other w' = Ok true
    /\ (forall h, h <> this -> iters w' !! h = iters w !! h)
    /\ (if decide (m_vec t = m_vec o) then vecs w' = vecs w
        else registry w' (m_vec t) = Some (removeIterator_slots this (m_iterators vt))
             /\ registry w' (m_vec o) = Some (m_iterators vo ++ [Some this])
             /\ forall c, c <> m_vec t -> c <> m_vec o -> vecs w' !! c = vecs w !! c).
Proof.
  intros Hok Ht Ho Hvt Hvo.
  assert (Hrun : exists w' t',
            assign bc this other w = Ok w'
            /\ iters w' = <[this := t']> (iters w)
            /\ m_pos t' = m_pos o /\ m_vec t' = m_vec o
            /\ (if decide (m_vec t = m_vec o) then vecs w' = vecs w
                else vecs w'
                     = <[m_vec o := set_iterators (m_iterators vo ++ [Some this]) vo]>
                         (<[m_vec t := set_iterators
                                         (removeIterator_slots this (m_iterators vt)) vt]>
                            (vecs w)))).
  { unfold assign, get_iter. rewrite Ho, Ht. simpl.
    destruct (decide (m_vec t = m_vec o)) as [Heq | Hne]; simpl.
    - destruct bc; simpl.
      + unfold get_iter. simpl. rewrite lookup_insert_eq. simpl.
        eexists _, _. split; [done|]. simpl. rewrite insert_insert_eq.
        by split_and!.
      + eexists _, _. split; [done|]. simpl. by split_and!.
    - unfold removeIterator, addIterator, get_vec. simpl. rewrite Hvt. simpl.
      rewrite lookup_insert_ne, Hvo by done. simpl.
      destruct bc; simpl.
      + unfold get_iter. simpl. rewrite lookup_insert_eq. simpl.
        eexists _, _. split; [done|]. simpl. rewrite !insert_insert_eq.
        by split_and!.
      + eexists _, _. split; [done|]. simpl. rewrite !insert_insert_eq.
        by split_and!. }
  destruct Hrun as (w' & t' & Hres & Hiters & Hpos & Hvec & Hvecs).
  exists w'. split; [done|]. split; [by eapply registry_ok_assign|].
  split_and!.
  - unfold position_of, get_iter. rewrite Hiters, lookup_insert_eq. simpl. by rewrite Hpos.
  - unfold iter_eq, get_iter. rewrite Hiters, lookup_insert_eq. simpl.
    destruct (decide (this = other)) as [<-|Hneq].
    + rewrite lookup_insert_eq. simpl. unfold assert.
      rewrite bool_decide_eq_true_2 by done. rewrite andb_false_r. simpl.
      by rewrite Z.eqb_refl.
    + rewrite lookup_insert_ne, Ho by done. simpl. unfold assert.
      rewrite bool_decide_eq_true_2 by done. rewrite andb_false_r. simpl.
      by rewrite Hpos, Z.eqb_refl.
  - intros h Hh. rewrite Hiters. by rewrite lookup_insert_ne.
  - destruct (decide (m_vec t = m_vec o)) as [Heq | Hne]; [done|].
    unfold registry. rewrite Hvecs. split_and!.
    + rewrite lookup_insert_ne, lookup_insert_eq by done. done.
    + by rewrite lookup_insert_eq.
    + intros c Hct Hco. by rewrite !lookup_insert_ne.
Qed.

Lemma assign_follows_the_source_witness :
  exists w',
    assign true h_it h5 watched_world = Ok w'
    /\ registry_ok w'
    /\ position_of h_it w' = Ok 500
    /\ iter_eq true h_it h5 w' = Ok true
    /\ (forall h, h <> h_it -> iters w' !! h = iters watched_world !! h)
    /\ (registry w' vec1 = Some [None; Some h_begin]
        /\ registry w' vec2 = Some ([Some h5] ++ [Some h_it])
        /\ forall c, c <> vec1 -> c <> vec2 -> vecs w' !! c = vecs watched_world !! c).
Proof.
  apply (assign_follows_the_source true h_it h5 watched_world
           (mk_iter 302 vec1 300 vec1) (mk_iter 500 vec2 500 vec2)
           watched_vector spare_vector).
  - apply watched_world_ok.
  - reflexivity.
  - reflexivity.
  - reflexivity.
  - reflexivity.
Defined.

(** ** Comparing handles *)

(** X11: two handles of one container compare as their indices do: ==, !=,
    <, >, <= and the difference all complete, in both builds.  Only >=
    differs: with bounds checking it asserts that the two positions are
    equal, so it completes only for handles at the same index. *)
Theorem comparisons_follow_the_indices {T : Type} (bc : bool) (a b : hid) (c : vid)
    (w : world T) (xa xb : iter) (ka kb : Z) :
  iters w !! a = Some xa -> iters w !! b = Some xb ->
  m_vec xa = c -> m_vec xb = c ->
  handle_index w c a = Some ka -> handle_index w c b = Some kb ->
  iter_eq bc a b w = Ok (ka =? kb)
  /\ iter_ne bc a b w = Ok (negb (ka =? kb))
  /\ iter_lt bc a b w = Ok (ka <? kb)
  /\ iter_gt bc a b w = Ok (kb <? ka)
  /\ iter_le bc a b w = Ok (ka <=? kb)
  /\ iter_diff bc a b w = Ok (ka - kb)
  /\ iter_ge bc a b w
     = if bc && negb (ka =? kb) then Abort AssertionFailure else Ok (kb <=? ka).
Proof.
  intros Ha Hb Hva Hvb Hka Hkb. unfold handle_index in Hka, Hkb.
  destruct (vecs w !! c) as [v|]; simpl in Hka, Hkb; [|done].
  rewrite Ha in Hka. rewrite Hb in Hkb. simpl in Hka, Hkb.
  inversion Hka as [Hka']. inversion Hkb as [Hkb'].
  unfold iter_eq, iter_ne, iter_lt, iter_gt, iter_le, iter_diff, iter_ge, get_iter.
  rewrite Ha, Hb. simpl. unfold assert.
  rewrite bool_decide_eq_true_2 by congruence. rewrite andb_false_r. simpl.
  assert (Heqb : (m_pos xa =? m_pos xb)
                 = (m_pos xa - sv_data (m_base v) =? m_pos xb - sv_data (m_base v))).
  { destruct (Z.eqb_spec (m_pos xa) (m_pos xb));
      destruct (Z.eqb_spec (m_pos xa - sv_data (m_base v))
                           (m_pos xb - sv_data (m_base v))); lia. }
  assert (Heqb' : (m_pos xb =? m_pos xa) = (m_pos xa =? m_pos xb)) by apply Z.eqb_sym.
  split_and!.
  - by rewrite Heqb.
  - by rewrite Heqb.
  - f_equal. destruct (Z.ltb_spec (m_pos xa) (m_pos xb));
      destruct (Z.ltb_spec (m_pos xa - sv_data (m_base v))
                           (m_pos xb - sv_data (m_base v))); lia.
  - f_equal. destruct (Z.ltb_spec (m_pos xb) (m_pos xa));
      destruct (Z.ltb_spec (m_pos xb - sv_data (m_base v))
                           (m_pos xa - sv_data (m_base v))); lia.
  - f_equal. destruct (Z.leb_spec (m_pos xa) (m_pos xb));
      destruct (Z.leb_spec (m_pos xa - sv_data (m_base v))
                           (m_pos xb - sv_data (m_base v))); lia.
  - f_equal. lia.
  - rewrite Heqb', Heqb.
    destruct (m_pos xa - sv_data (m_base v) =? m_pos xb - sv_data (m_base v)) eqn:Hsame;
      destruct bc; simpl; try done; f_equal;
      destruct (Z.leb_spec (m_pos xb) (m_pos xa));
      destruct (Z.leb_spec (m_pos xb - sv_data (m_base v))
                           (m_pos xa - sv_data (m_base v))); lia.
Qed.

Lemma comparisons_follow_the_indices_witness :
  iter_eq true h_it h_begin watched_world = Ok false
  /\ iter_ne true h_it h_begin watched_world = Ok true
  /\ iter_lt true h_it h_begin watched_world = Ok false
  /\ iter_gt true h_it h_begin watched_world = Ok true
  /\ iter_le true h_it h_begin watched_world = Ok false
  /\ iter_diff true h_it h_begin watched_world = Ok 2
  /\ iter_ge true h_it h_begin watched_world = Abort AssertionFailure.
Proof.
  apply (comparisons_follow_the_indices true h_it h_begin vec1 watched_world
           (mk_iter 302 vec1 300 vec1) (mk_iter 300 vec1 300 vec1) 2 0);
    reflexivity.
Defined.

(** X12: with bounds checking, comparing or subtracting handles of two
    different containers fails the assertion for ==, !=, <, >, <= and the
    difference; without it the raw addresses are compared.  >= does not
    look at the containers at all. *)
Theorem comparisons_across_containers_are_flagged {T : Type} (a b : hid)
    (w : world T) (xa xb : iter) :
  iters w !! a = Some xa -> iters w !! b = Some xb ->
  m_vec xa <> m_vec xb ->
  iter_eq true a b w = Abort AssertionFailure
  /\ iter_ne true a b w = Abort AssertionFailure
  /\ iter_lt true a b w = Abort AssertionFailure
  /\ iter_gt true a b w = Abort AssertionFailure
  /\ iter_le true a b w = Abort AssertionFailure
  /\ iter_diff true a b w = Abort AssertionFailure
  /\ iter_eq false a b w = Ok (m_pos xa =? m_pos xb)
  /\ iter_diff false a b w = Ok (m_pos xa - m_pos xb)
  /\ iter_ge true a b w
     = if m_pos xb =? m_pos xa then Ok true else Abort AssertionFailure.
Proof.
  intros Ha Hb Hne.
  unfold iter_eq, iter_ne, iter_lt, iter_gt, iter_le, iter_diff, iter_ge, get_iter.
  rewrite Ha, Hb. simpl. unfold assert.
  rewrite bool_decide_eq_false_2 by congruence. simpl.
  split_and!; try done.
  destruct (Z.eqb_spec (m_pos xb) (m_pos xa)) as [Heq | Hneq]; simpl; [|done].
  f_equal. apply Z.leb_le. lia.
Qed.

Lemma comparisons_across_containers_are_flagged_witness :
  iter_eq true h_it h5 watched_world = Abort AssertionFailure
  /\ iter_ne true h_it h5 watched_world = Abort AssertionFailure
  /\ iter_lt true h_it h5 watched_world = Abort AssertionFailure
  /\ iter_gt true h_it h5 watched_world = Abort AssertionFailure
  /\ iter_le true h_it h5 watched_world = Abort AssertionFailure
  /\ iter_diff true h_it h5 watched_world = Abort AssertionFailure
  /\ iter_eq false h_it h5 watched_world = Ok false
  /\ iter_diff false h_it h5 watched_world = Ok (-198)
  /\ iter_ge true h_it h5 watched_world = Abort AssertionFailure.
Proof.
  apply (comparisons_across_containers_are_flagged h_it h5 watched_world
           (mk_iter 302 vec1 300 vec1) (mk_iter 500 vec2 500 vec2)).
  - reflexivity.
  - reflexivity.
  - simpl. unfold vec1, vec2. lia.
Defined.

(** ** Walking over the container *)

Section Iteration.
Context {T : Type}.
Variable bc : bool.

Lemma collect_turn (fuel : nat) (it e : hid) (out : list T) (w : world T) :
  collect bc (S fuel) it e out w
  = match iter_ne bc it e w with
    | Abort f => Some (Abort f)
    | Ok false => Some (Ok (out, w))
    | Ok true =>
        match deref bc it w with
        | Abort f => Some (Abort f)
        | Ok x =>
            match increment bc it w with
            | Abort f => Some (Abort f)
            | Ok w' => collect bc fuel it e (out ++ [x]) w'
            end
        end
    end.
Proof. reflexivity. Qed.

Lemma collect_from (it e : hid) (c : vid) (v : msiv T) (n : nat) :
  forall (i : nat) (out : list T) (w : world T) (x y : iter),
    vecs w !! c = Some v -> it <> e ->
    iters w !! it = Some x -> iters w !! e = Some y ->
    m_vec x = c -> m_vec y = c ->
    m_pos x = sv_data (m_base v) + Z.of_nat i ->
    m_pos y = sv_data (m_base v) + Z.of_nat (sv_size (m_base v)) ->
    (i + n = sv_size (m_base v))%nat ->
    (bc = true ->
       it_currentStart x <= sv_data (m_base v) /\ it_currentEnd x = c
       /\ sv_data (m_base v) + Z.of_nat (sv_size (m_base v)) <= m_currentEnd v) ->
    exists w',
      collect bc (S n) it e out w = Some (Ok (out ++ drop i (sv_elems (m_base v)), w'))
      /\ vecs w' = vecs w
      /\ position_of it w' = Ok (m_pos y)
      /\ (forall h, h <> it -> iters w' !! h = iters w !! h).
Proof.
  induction n as [|n IH]; intros i out w x y Hc Hne Hx Hy Hvx Hvy Hpx Hpy Hin Hshadow.
  - exists w. rewrite collect_turn. unfold iter_ne, get_iter. rewrite Hx, Hy. simpl.
    unfold assert. rewrite bool_decide_eq_true_2 by congruence.
    rewrite andb_false_r. simpl.
    replace (m_pos x =? m_pos y) with true by (symmetry; apply Z.eqb_eq; lia).
    simpl. rewrite drop_ge by (unfold sv_size in *; lia). rewrite app_nil_r.
    split_and!; try done. unfold position_of, get_iter. rewrite Hx. simpl.
    f_equal. lia.
  - assert (Hlt : (i < length (sv_elems (m_base v)))%nat) by (unfold sv_size in *; lia).
    destruct (lookup_lt_is_Some_2 _ _ Hlt) as [a Ha].
    pose (x' := mk_iter (m_pos x + 1) (m_vec x) (it_currentStart x) (it_currentEnd x)).
    destruct (IH (S i) (out ++ [a]) (put_iter it x' w) x' y) as (w' & Hrun & Hvecs & Hpos & Hothers);
      try done.
    + simpl. apply lookup_insert_eq.
    + simpl. by rewrite lookup_insert_ne.
    + simpl. lia.
    + lia.
    + exists w'. split_and!; try done.
      * rewrite collect_turn.
        assert (Hcmp : iter_ne bc it e w = Ok true).
        { unfold iter_ne, get_iter. rewrite Hx, Hy. simpl.
          unfold assert. rewrite bool_decide_eq_true_2 by congruence.
          rewrite andb_false_r. simpl.
          replace (m_pos x =? m_pos y) with false
            by (symmetry; apply Z.eqb_neq; unfold sv_size in *; lia).
          done. }
        rewrite Hcmp.
        assert (Hderef : deref bc it w = Ok a).
        { unfold deref, get_iter, get_vec. rewrite Hx. simpl.
          assert (Hchecks : (if bc
                             then _ ← assert bc (it_currentStart x <=? m_pos x);
                                  e0 ← read_currentEnd x w;
                                  assert bc (m_pos x <? e0)
                             else Ok ()) = Ok ()).
          { destruct bc; [|done]. destruct (Hshadow eq_refl) as (Hs & He & Hend).
            unfold assert, read_currentEnd, get_vec. rewrite He, Hc. simpl.
            destruct (Z.leb_spec (it_currentStart x) (m_pos x)); [|lia]. simpl.
            destruct (Z.ltb_spec (m_pos x) (m_currentEnd v)); [done|].
            unfold sv_size in *. lia. }
          rewrite Hchecks. simpl. rewrite Hvx, Hc. simpl.
          unfold sv_load. destruct (Z.leb_spec (sv_data (m_base v)) (m_pos x)); [|lia].
          replace (Z.to_nat (m_pos x - sv_data (m_base v))) with i by lia.
          by rewrite Ha. }
        rewrite Hderef.
        assert (Hinc : increment bc it w = Ok (put_iter it x' w)).
        { unfold increment, get_iter. rewrite Hx. simpl.
          assert (Hcheck : (if bc
                            then e0 ← read_currentEnd x w; assert bc (m_pos x <? e0)
                            else Ok ()) = Ok ()).
          { destruct bc; [|done]. destruct (Hshadow eq_refl) as (Hs & He & Hend).
            unfold assert, read_currentEnd, get_vec. rewrite He, Hc. simpl.
            destruct (Z.ltb_spec (m_pos x) (m_currentEnd v)); [done|].
            unfold sv_size in *. lia. }
          by rewrite Hcheck. }
        rewrite Hinc, Hrun. do 2 f_equal. f_equal.
        rewrite <- app_assoc. simpl. by rewrite (drop_S _ _ _ Ha).
      * intros h Hh. rewrite (Hothers h Hh). simpl. by rewrite lookup_insert_ne.
Qed.
End Iteration.

(** X13: the loop [for (it = begin(); it != end(); ++it)] that reads [*it]
    visits the elements of the container in order and stops with [it] at
    end(), after exactly size() turns.  This holds without bounds checking,
    and with it when the container has an element and its end bound is not
    below the real end. *)
Theorem iteration_visits_every_element {T : Type} (bc : bool) (b e : hid) (c : vid)
    (w : world T) (v : msiv T) :
  vecs w !! c = Some v ->
  iters w !! b = None -> iters w !! e = None -> b <> e ->
  (bc = true ->
     (0 < sv_size (m_base v))%nat
     /\ sv_data (m_base v) + Z.of_nat (sv_size (m_base v)) <= m_currentEnd v) ->
  exists w1 w2 w3,
    begin bc b c w = Ok w1
    /\ end_ bc e c w1 = Ok w2
    /\ collect bc (S (sv_size (m_base v))) b e [] w2
       = Some (Ok (sv_elems (m_base v), w3))
    /\ position_of b w3
       = Ok (sv_data (m_base v) + Z.of_nat (sv_size (m_base v)))
    /\ position_of e w3
       = Ok (sv_data (m_base v) + Z.of_nat (sv_size (m_base v)))
    /\ vecs w3 = vecs w2.
Proof.
  intros Hc Hb He Hne Hshadow.
  assert (Hstart : (if bc then sv_subscript 0 (m_base v) else Ok nullptr)
                   = Ok (if bc then sv_data (m_base v) else nullptr)).
  { destruct bc; [|done]. destruct (Hshadow eq_refl) as [Hsize _].
    unfold sv_subscript. apply Nat.ltb_lt in Hsize. rewrite Hsize. f_equal. lia. }
  set (start := if bc then sv_data (m_base v) else nullptr) in *.
  set (v1 := set_iterators (m_iterators v ++ [Some b]) v).
  set (w1 := put_vec c v1 (put_iter b (mk_iter (sv_data (m_base v)) c start c) w)).
  set (v2 := set_iterators (m_iterators v1 ++ [Some e]) v1).
  set (w2 := put_vec c v2
               (put_iter e (mk_iter (sv_data (m_base v) + Z.of_nat (sv_size (m_base v)))
                              c start c) w1)).
  assert (Hbegin : begin bc b c w = Ok w1).
  { unfold begin, construct, addIterator, get_vec. rewrite Hc. simpl.
    rewrite Hstart. simpl. by rewrite Hc. }
  assert (Hc1 : vecs w1 !! c = Some v1) by apply lookup_insert_eq.
  assert (Hend : end_ bc e c w1 = Ok w2).
  { unfold end_, construct, addIterator, get_vec. rewrite Hc1. simpl.
    rewrite Hstart. by rewrite lookup_insert_eq. }
  assert (Hc2 : vecs w2 !! c = Some v2) by apply lookup_insert_eq.
  destruct (collect_from bc b e c v2 (sv_size (m_base v)) 0 [] w2
              (mk_iter (sv_data (m_base v)) c start c)
              (mk_iter (sv_data (m_base v) + Z.of_nat (sv_size (m_base v))) c start c))
    as (w3 & Hrun & Hvecs & Hpos & Hothers); try done.
  - simpl. rewrite lookup_insert_ne by congruence. apply lookup_insert_eq.
  - simpl. apply lookup_insert_eq.
  - simpl. lia.
  - intros Hbc. destruct (Hshadow Hbc) as [Hsize Hend']. subst bc. simpl.
    split_and!; [lia | done | done].
  - exists w1, w2, w3. split_and!; try done.
    unfold position_of, get_iter.
    rewrite (Hothers e) by congruence. simpl. by rewrite lookup_insert_eq.
Qed.

Lemma iteration_visits_every_element_witness :
  exists w1 w2 w3,
    begin true h6 vec1 watched_world = Ok w1
    /\ end_ true h7 vec1 w1 = Ok w2
    /\ collect true 5 h6 h7 [] w2 = Some (Ok ([1; 2; 3; 4], w3))
    /\ position_of h6 w3 = Ok 304
    /\ position_of h7 w3 = Ok 304
    /\ vecs w3 = vecs w2.
Proof.
  apply (iteration_visits_every_element true h6 h7 vec1 watched_world watched_vector).
  - reflexivity.
  - reflexivity.
  - reflexivity.
  - unfold h6, h7. lia.
  - intros _. unfold watched_vector, sv_size. simpl. lia.
Defined.

(** ** Reading the elements *)

(** X14: what push_back appended is what back() and operator[] at the old
    size return, the size grows by one and every earlier element reads as
    before; operator[] at the new size fails, by the assertion with bounds
    checking and as undefined behaviour of the backing store without. *)
Theorem push_back_is_read_back {T : Type} (bc : bool) (na : ptr) (x : T) (c : vid)
    (w : world T) (v : msiv T) :
  registry_ok w -> vecs w !! c = Some v ->
  (exists w', push_back false na x c w = Ok w')
  /\ forall w', push_back bc na x c w = Ok w' ->
       size c w' = Ok (S (sv_size (m_base v)))
       /\ back c w' = Ok x
       /\ subscript bc (sv_size (m_base v)) c w' = Ok x
       /\ (forall i, (i < sv_size (m_base v))%nat ->
             subscript bc i c w' = subscript bc i c w)
       /\ subscript bc (S (sv_size (m_base v))) c w'
          = Abort (if bc then AssertionFailure else UndefinedBehaviour).
Proof.
  intros Hok Hc.
  destruct (registry_ok_hypotheses c v w Hok Hc) as [Hnodup Hlive].
  split; [by apply (push_back_completes na x c w v)|].
  intros w' Hres. unfold push_back, get_vec in Hres. rewrite Hc in Hres. simpl in Hres.
  eapply (completeRealloc_Ok bc c _ _ _ _ w' (set_base _ v)) in Hres
    as (_ & _ & (v' & Hv' & Hbase & _) & _); [| by apply lookup_insert_eq | done].
  simpl in Hbase.
  assert (Helems : sv_elems (m_base v') = sv_elems (m_base v) ++ [x]) by (by rewrite Hbase).
  assert (Hsize : sv_size (m_base v') = S (sv_size (m_base v))).
  { unfold sv_size. rewrite Helems, length_app. simpl. lia. }
  unfold size, back, subscript, get_vec. rewrite Hv', Hc. simpl.
  rewrite Hsize, Helems, last_snoc. unfold assert.
  split_and!; try done.
  - replace (sv_size (m_base v) <? S (sv_size (m_base v)))%nat with true
      by (symmetry; apply Nat.ltb_lt; lia).
    rewrite andb_false_r. simpl.
    unfold sv_size. by rewrite lookup_app_r, Nat.sub_diag by lia.
  - intros i Hi.
    replace (i <? S (sv_size (m_base v)))%nat with true
      by (symmetry; apply Nat.ltb_lt; lia).
    replace (i <? sv_size (m_base v))%nat with true
      by (symmetry; apply Nat.ltb_lt; lia).
    rewrite andb_false_r. simpl. by rewrite lookup_app_l.
  - rewrite Nat.ltb_irrefl. destruct bc; simpl; [done|].
    rewrite lookup_ge_None_2; [done|]. rewrite length_app. unfold sv_size. simpl. lia.
Qed.

Lemma push_back_is_read_back_witness :
  (exists w', push_back false 600 9 vec1 watched_world = Ok w')
  /\ forall w', push_back true 600 9 vec1 watched_world = Ok w' ->
       size vec1 w' = Ok 5%nat
       /\ back vec1 w' = Ok 9
       /\ subscript true 4 vec1 w' = Ok 9
       /\ (forall i, (i < 4)%nat ->
             subscript true i vec1 w' = subscript true i vec1 watched_world)
       /\ subscript true 5 vec1 w' = Abort AssertionFailure.
Proof.
  apply (push_back_is_read_back true 600 9 vec1 watched_world watched_vector).
  - apply watched_world_ok.
  - reflexivity.
Defined.

(** X15: swap(other) exchanges the backing stores of the two containers and
    touches neither registry nor any handle, so it never rebases; swapping
    a second time puts both stores back.  This holds without bounds
    checking, and with it when both registries are empty, so that the loop
    of iteratorCount has no slot to test. *)
Theorem swap_exchanges_the_storage {T : Type} (bc : bool) (a b : vid)
    (w : world T) (va vb : msiv T) :
  vecs w !! a = Some va -> vecs w !! b = Some vb -> a <> b ->
  (bc = true -> m_iterators va = [] /\ m_iterators vb = []) ->
  exists w' w'',
    swap bc b a w = Ok w'
    /\ m_base <$> vecs w' !! a = Some (m_base vb)
    /\ m_base <$> vecs w' !! b = Some (m_base va)
    /\ registry w' a = Some (m_iterators va)
    /\ registry w' b = Some (m_iterators vb)
    /\ iters w' = iters w
    /\ (forall c, c <> a -> c <> b -> vecs w' !! c = vecs w !! c)
    /\ swap bc b a w' = Ok w''
    /\ m_base <$> vecs w'' !! a = Some (m_base va)
    /\ m_base <$> vecs w'' !! b = Some (m_base vb).
Proof.
  intros Ha Hb Hne Hfree.
  assert (Hcheck : forall (w0 : world T) (c0 : vid) (x : msiv T),
            vecs w0 !! c0 = Some x -> (bc = true -> m_iterators x = []) ->
            assert_no_iterators bc c0 w0 = Ok tt).
  { intros w0 c0 x Hx Hempty. unfold assert_no_iterators. destruct bc; [|done].
    unfold iteratorCount, get_vec. rewrite Hx. simpl. by rewrite (Hempty eq_refl). }
  assert (Hswap : forall (w0 : world T) (xa xb : msiv T),
            vecs w0 !! a = Some xa -> vecs w0 !! b = Some xb ->
            m_iterators xa = m_iterators va -> m_iterators xb = m_iterators vb ->
            exists w1 ya yb,
              swap bc b a w0 = Ok w1
              /\ vecs w1 = <[a := ya]> (<[b := yb]> (vecs w0))
              /\ iters w1 = iters w0
              /\ m_base ya = m_base xb /\ m_base yb = m_base xa
              /\ m_iterators ya = m_iterators va /\ m_iterators yb = m_iterators vb).
  { intros w0 xa xb Hxa Hxb Hra Hrb.
    unfold swap, swap_storage, get_vec.
    rewrite (Hcheck w0 a xa Hxa) by (intros Hbc; rewrite Hra; by apply Hfree).
    simpl. rewrite Hxa. simpl.
    rewrite (Hcheck w0 b xb Hxb) by (intros Hbc; rewrite Hrb; by apply Hfree).
    simpl. rewrite Hxb. simpl.
    rewrite lookup_insert_ne, Hxa by done. simpl.
    eexists _, _, _. split; [done|]. simpl. split; [done|]. split; [done|].
    destruct bc; simpl; by split_and!. }
  destruct (Hswap w va vb Ha Hb eq_refl eq_refl)
    as (w' & ya & yb & Hres & Hvecs & Hiters & Hya & Hyb & Hra & Hrb).
  assert (Ha' : vecs w' !! a = Some ya) by (rewrite Hvecs; apply lookup_insert_eq).
  assert (Hb' : vecs w' !! b = Some yb).
  { rewrite Hvecs, lookup_insert_ne by done. apply lookup_insert_eq. }
  destruct (Hswap w' ya yb Ha' Hb' Hra Hrb)
    as (w'' & za & zb & Hres' & Hvecs' & _ & Hza & Hzb & _).
  exists w', w''. unfold registry. rewrite Ha', Hb'. simpl.
  rewrite Hya, Hyb, Hra, Hrb. split_and!; try done.
  - intros c Hca Hcb. by rewrite Hvecs, !lookup_insert_ne.
  - rewrite Hvecs', lookup_insert_eq. simpl. by rewrite Hza, Hyb.
  - rewrite Hvecs', lookup_insert_ne, lookup_insert_eq by done. simpl.
    by rewrite Hzb, Hya.
Qed.

Lemma swap_exchanges_the_storage_witness :
  exists w' w'',
    swap true vec2 vec1 unwatched_pair = Ok w'
    /\ m_base <$> vecs w' !! vec1 = Some (mk_stdvector 500 [5] 1)
    /\ m_base <$> vecs w' !! vec2 = Some (mk_stdvector 100 [1; 2] 2)
    /\ registry w' vec1 = Some []
    /\ registry w' vec2 = Some []
    /\ iters w' = iters unwatched_pair
    /\ (forall c, c <> vec1 -> c <> vec2 -> vecs w' !! c = vecs unwatched_pair !! c)
    /\ swap true vec2 vec1 w' = Ok w''
    /\ m_base <$> vecs w'' !! vec1 = Some (mk_stdvector 100 [1; 2] 2)
    /\ m_base <$> vecs w'' !! vec2 = Some (mk_stdvector 500 [5] 1).
Proof.
  apply (swap_exchanges_the_storage true vec1 vec2 unwatched_pair
           pair_vector_a pair_vector_b).
  - reflexivity.
  - reflexivity.
  - unfold vec1, vec2. lia.
  - intros _. split; reflexivity.
Defined.

(** X16: [it[n]] of the const iterator is [*(it += n)] with the same
    failures, and the mutable iterator's [it[n]] differs from it in one
    case: with bounds checking it fails the assertion when [it + n] is the
    handle's start bound, the first element. *)
Theorem subscript_is_advance_then_dereference {T : Type} (bc : bool) (h : hid) (n : Z)
    (w : world T) (it : iter) :
  iters w !! h = Some it ->
  iter_subscript bc h n w = (w' ← advance bc h n w; deref bc h w')
  /\ iter_subscript_mutable bc h n w
     = if bc && (m_pos it + n =? it_currentStart it)
       then Abort AssertionFailure
       else iter_subscript bc h n w.
Proof.
  intros Hit. split.
  - unfold iter_subscript, advance, deref, get_iter, get_vec. rewrite Hit. simpl.
    destruct bc; simpl.
    + unfold assert, read_currentEnd, get_vec. simpl.
      destruct (Z.leb_spec (it_currentStart it) (m_pos it + n)) as [Hs | Hs];
        simpl; [|done].
      destruct (vecs w !! it_currentEnd it) as [ve|] eqn:Hve; simpl; [|done].
      assert (Hstart : (it_currentStart it <=? m_pos it + n) = true)
        by (apply Z.leb_le; lia).
      destruct (Z.ltb_spec (m_pos it + n) (m_currentEnd ve)) as [Hlt | Hge];
        destruct (Z.leb_spec (m_pos it + n) (m_currentEnd ve)) as [Hle | Hgt];
        simpl; try lia; try done.
      * rewrite lookup_insert_eq. simpl. rewrite Hstart, Hve. simpl.
        by replace (m_pos it + n <? m_currentEnd ve) with true
          by (symmetry; apply Z.ltb_lt; lia).
      * rewrite lookup_insert_eq. simpl. rewrite Hstart, Hve. simpl.
        by replace (m_pos it + n <? m_currentEnd ve) with false
          by (symmetry; apply Z.ltb_ge; lia).
    + by rewrite lookup_insert_eq.
  - unfold iter_subscript_mutable, iter_subscript, get_iter. rewrite Hit. simpl.
    destruct bc; simpl; [|done].
    unfold assert. simpl.
    destruct (Z.eqb_spec (m_pos it + n) (it_currentStart it)) as [Heq | Hneq].
    + rewrite Heq, Z.ltb_irrefl. done.
    + destruct (Z.ltb_spec (it_currentStart it) (m_pos it + n));
        destruct (Z.leb_spec (it_currentStart it) (m_pos it + n)); try lia; done.
Qed.

Lemma subscript_is_advance_then_dereference_witness :
  iter_subscript true h_it (-2) watched_world
    = (w' ← advance true h_it (-2) watched_world; deref true h_it w')
  /\ iter_subscript_mutable true h_it (-2) watched_world = Abort AssertionFailure.
Proof.
  apply (subscript_is_advance_then_dereference true h_it (-2) watched_world
           (mk_iter 302 vec1 300 vec1)).
  reflexivity.
Defined.

(** ** The cache across lookups and flushes *)

Section CacheRuns.
Context {NModel : Type}.
Variable LoadModel : list string -> string -> option NModel.

Lemma cached_from_loader_step (st : ModelCache NModel) (call : cache_call) :
  cached_from_loader LoadModel st -> cached_from_loader LoadModel (cache_step LoadModel st call).
Proof.
  intros Hinv. destruct call as [n|]; simpl; [|by intros name m Hm].
  unfold FindModel. destruct (m_models st !! n) as [m'|] eqn:Hn; simpl; [done|].
  destruct (LoadModel (loaded st) n) as [m'|] eqn:Hload; simpl.
  - intros name m Hm. simpl in Hm. destruct (decide (name = n)) as [->|Hne].
    + rewrite lookup_insert_eq in Hm. inversion Hm; subst m'.
      by exists (loaded st), [].
    + rewrite lookup_insert_ne in Hm by done.
      destruct (Hinv name m Hm) as (earlier & later & Htrace & Hm').
      exists earlier, (later ++ [n]). simpl. split; [|done].
      by rewrite Htrace, <- app_assoc.
  - intros name m Hm. simpl in Hm.
    destruct (Hinv name m Hm) as (earlier & later & Htrace & Hm').
    exists earlier, (later ++ [n]). simpl. split; [|done].
    by rewrite Htrace, <- app_assoc.
Qed.

Lemma cached_from_loader_run (calls : list cache_call) (st : ModelCache NModel) :
  cached_from_loader LoadModel st -> cached_from_loader LoadModel (cache_run LoadModel calls st).
Proof.
  revert st. induction calls as [|call calls IH]; intros st Hinv; simpl; [done|].
  apply IH. by apply cached_from_loader_step.
Qed.

Lemma loaded_grows_step (st : ModelCache NModel) (call : cache_call) :
  exists more, loaded (cache_step LoadModel st call) = loaded st ++ more.
Proof.
  destruct call as [n|]; simpl; [|exists []; by rewrite app_nil_r].
  unfold FindModel. destruct (m_models st !! n); simpl.
  - exists []. by rewrite app_nil_r.
  - destruct (LoadModel (loaded st) n); simpl; by exists [n].
Qed.

Lemma loaded_grows_run (calls : list cache_call) (st : ModelCache NModel) :
  exists more, loaded (cache_run LoadModel calls st) = loaded st ++ more.
Proof.
  revert st. induction calls as [|call calls IH]; intros st; simpl.
  - exists []. by rewrite app_nil_r.
  - destruct (loaded_grows_step st call) as (m1 & H1).
    destruct (IH (cache_step LoadModel st call)) as (m2 & H2).
    exists (m1 ++ m2). unfold cache_run in *. simpl. by rewrite H2, H1, app_assoc.
Qed.
End CacheRuns.

(** X17: Flush (and so the destructor) deletes exactly the cached instances,
    one deletion per cached name, and leaves the map empty without calling
    the loader; a second Flush deletes nothing; a lookup after a Flush asks
    the loader again, also for a name that was cached before. *)
Theorem Flush_deletes_every_cached_instance {NModel : Type}
    (LoadModel : list string -> string -> option NModel) (st : ModelCache NModel) :
  m_models (snd (Flush st)) = ∅
  /\ loaded (snd (Flush st)) = loaded st
  /\ length (fst (Flush st)) = base.size (m_models st)
  /\ (forall m, m ∈ fst (Flush st) <-> exists name, m_models st !! name = Some m)
  /\ Flush (snd (Flush st)) = ([], snd (Flush st))
  /\ forall name,
       FindModel LoadModel name (snd (Flush st))
       = match LoadModel (loaded st) name with
         | Some m => (Ok m, mk_ModelCache {[name := m]} (loaded st ++ [name]))
         | None => (Abort ModelNotFoundException,
                    mk_ModelCache ∅ (loaded st ++ [name]))
         end.
Proof.
  unfold Flush. simpl. split_and!; try done.
  - by rewrite length_fmap, length_map_to_list.
  - intros m. rewrite list_elem_of_fmap. split.
    + intros ([name m'] & -> & Hin). exists name. by apply elem_of_map_to_list in Hin.
    + intros (name & Hm). exists (name, m). split; [done|].
      by apply elem_of_map_to_list.
Qed.

(** X18: over any run of lookups and flushes that starts from the empty
    cache, an instance found cached under a name is one the loader returned
    for that name earlier in the run; the loader's trace only grows as the
    run goes on; and a flush at any later point leaves nothing cached. *)
Theorem cached_instances_come_from_the_loader {NModel : Type}
    (LoadModel : list string -> string -> option NModel)
    (calls : list cache_call) (name : string) (m : NModel) :
  m_models (cache_run LoadModel calls (mk_ModelCache ∅ [])) !! name = Some m ->
  (exists earlier later,
     loaded (cache_run LoadModel calls (mk_ModelCache ∅ [])) = earlier ++ name :: later
     /\ LoadModel earlier name = Some m)
  /\ (forall more, exists extra,
        loaded (cache_run LoadModel (calls ++ more) (mk_ModelCache ∅ []))
        = loaded (cache_run LoadModel calls (mk_ModelCache ∅ [])) ++ extra)
  /\ (forall more,
        m_models (cache_run LoadModel (calls ++ more ++ [CallFlush]) (mk_ModelCache ∅ []))
        = ∅).
Proof.
  intros Hm. split_and!.
  - apply (cached_from_loader_run LoadModel calls (mk_ModelCache ∅ [])); [|done].
    intros n m' Hn. simpl in Hn. by rewrite lookup_empty in Hn.
  - intros more. unfold cache_run. rewrite foldl_app.
    apply (loaded_grows_run LoadModel more).
  - intros more. unfold cache_run. by rewrite !foldl_app.
Qed.

Lemma cached_instances_come_from_the_loader_witness :
  let calls := [CallFind "ship"; CallFlush; CallFind "ship"] in
  (exists earlier later,
     loaded (cache_run length_loader calls (mk_ModelCache ∅ [])) = earlier ++ "ship" :: later
     /\ length_loader earlier "ship" = Some 4%nat)
  /\ (forall more, exists extra,
        loaded (cache_run length_loader (calls ++ more) (mk_ModelCache ∅ []))
        = loaded (cache_run length_loader calls (mk_ModelCache ∅ [])) ++ extra)
  /\ (forall more,
        m_models (cache_run length_loader (calls ++ more ++ [CallFlush]) (mk_ModelCache ∅ []))
        = ∅).
Proof.
  apply (cached_instances_come_from_the_loader length_loader
           [CallFind "ship"; CallFlush; CallFind "ship"] "ship" 4%nat).
  vm_compute. reflexivity.
Defined.

(** ** Stepping a handle *)

Lemma put_iter_back {T : Type} (h : hid) (it it' : iter) (w : world T) :
  iters w !! h = Some it -> put_iter h it (put_iter h it' w) = w.
Proof.
  intros Hit. destruct w as [vs its]. unfold put_iter. simpl in *.
  by rewrite insert_insert_eq, insert_id.
Qed.

(** X19: for a handle inside its bounds, [++it] is [it += 1] and [--it] is
    [it += -1], each undoes the other and puts the world back as it was;
    with bounds checking [++it] is refused exactly at the end bound and
    [--it] exactly at the start bound. *)
Theorem increment_and_decrement_undo_each_other {T : Type} (bc : bool) (h : hid)
    (w : world T) (it : iter) (ve : msiv T) :
  iters w !! h = Some it -> vecs w !! it_currentEnd it = Some ve ->
  (bc = true -> it_currentStart it <= m_pos it <= m_currentEnd ve) ->
  increment bc h w = advance bc h 1 w
  /\ decrement bc h w = advance bc h (-1) w
  /\ (forall w', increment bc h w = Ok w' -> decrement bc h w' = Ok w)
  /\ (forall w', decrement bc h w = Ok w' -> increment bc h w' = Ok w)
  /\ (bc = true ->
        (increment bc h w = Abort AssertionFailure <-> m_pos it = m_currentEnd ve)
        /\ (decrement bc h w = Abort AssertionFailure
            <-> m_pos it = it_currentStart it)).
Proof.
  intros Hit Hve Hin.
  assert (Hback1 : put_iter h (mk_iter (m_pos it + 1 - 1) (m_vec it) (it_currentStart it)
                                 (it_currentEnd it))
                     (put_iter h (mk_iter (m_pos it + 1) (m_vec it) (it_currentStart it)
                                    (it_currentEnd it)) w) = w).
  { replace (m_pos it + 1 - 1) with (m_pos it) by lia.
    replace (mk_iter (m_pos it) (m_vec it) (it_currentStart it) (it_currentEnd it))
      with it by (by destruct it).
    by apply put_iter_back. }
  assert (Hback2 : put_iter h (mk_iter (m_pos it - 1 + 1) (m_vec it) (it_currentStart it)
                                 (it_currentEnd it))
                     (put_iter h (mk_iter (m_pos it - 1) (m_vec it) (it_currentStart it)
                                    (it_currentEnd it)) w) = w).
  { replace (m_pos it - 1 + 1) with (m_pos it) by lia.
    replace (mk_iter (m_pos it) (m_vec it) (it_currentStart it) (it_currentEnd it))
      with it by (by destruct it).
    by apply put_iter_back. }
  unfold increment, decrement, advance, get_iter, read_currentEnd, get_vec, assert.
  rewrite Hit. simpl. rewrite ?Hve. simpl.
  destruct bc; simpl.
  - destruct (Hin eq_refl) as [Hlo Hhi].
    destruct (Z.ltb_spec (m_pos it) (m_currentEnd ve)) as [Hlt | Hge];
      destruct (Z.ltb_spec (it_currentStart it) (m_pos it)) as [Hgt | Hle]; simpl;
      replace (it_currentStart it <=? m_pos it + 1) with true
        by (symmetry; apply Z.leb_le; lia); simpl;
      repeat match goal with
      | |- context [?a <=? ?b] => destruct (Z.leb_spec a b); simpl; try lia
      | |- context [?a <? ?b] => destruct (Z.ltb_spec a b); simpl; try lia
      end;
      split_and!; try done; try (intros w' Hw'; inversion Hw'; subst w'; simpl);
      try (intros _; split; split; intros; first [done | lia]).
    all: rewrite ?lookup_insert_eq; simpl; rewrite ?Hve; simpl.
    all: repeat match goal with
      | |- context [?a <=? ?b] => destruct (Z.leb_spec a b); simpl; try lia
      | |- context [?a <? ?b] => destruct (Z.ltb_spec a b); simpl; try lia
      end.
    all: try (f_equal; first [exact Hback1 | exact Hback2]).
  - split_and!; try done.
    + intros w' Hw'. inversion Hw'; subst w'. simpl. rewrite lookup_insert_eq. simpl.
      f_equal. exact Hback1.
    + intros w' Hw'. inversion Hw'; subst w'. simpl. rewrite lookup_insert_eq. simpl.
      f_equal. exact Hback2.
Qed.

Lemma increment_and_decrement_undo_each_other_witness :
  increment true h_it watched_world = advance true h_it 1 watched_world
  /\ decrement true h_it watched_world = advance true h_it (-1) watched_world
  /\ (forall w', increment true h_it watched_world = Ok w' ->
        decrement true h_it w' = Ok watched_world)
  /\ (forall w', decrement true h_it watched_world = Ok w' ->
        increment true h_it w' = Ok watched_world)
  /\ (true = true ->
        (increment true h_it watched_world = Abort AssertionFailure <-> 302 = 305)
        /\ (decrement true h_it watched_world = Abort AssertionFailure <-> 302 = 300)).
Proof.
  apply (increment_and_decrement_undo_each_other true h_it watched_world
           (mk_iter 302 vec1 300 vec1) watched_vector).
  - reflexivity.
  - reflexivity.
  - intros _. unfold watched_vector. simpl. lia.
Defined.

(** ** Element access and handles *)

Lemma iter_subscript_mutable_strict {T : Type} (bc : bool) (h : hid) (n : Z)
    (w : world T) (it : iter) :
  iters w !! h = Some it ->
  iter_subscript_mutable bc h n w
  = if bc && (m_pos it + n =? it_currentStart it) then Abort AssertionFailure
    else iter_subscript bc h n w.
Proof.
  intros Hit. unfold iter_subscript_mutable, iter_subscript, get_iter.
  rewrite Hit. simpl. destruct bc; simpl; [|done]. unfold assert. simpl.
  destruct (Z.eqb_spec (m_pos it + n) (it_currentStart it)) as [Heq | Hneq].
  - by rewrite Heq, Z.ltb_irrefl.
  - destruct (Z.ltb_spec (it_currentStart it) (m_pos it + n));
      destruct (Z.leb_spec (it_currentStart it) (m_pos it + n));
      simpl; try lia; done.
Qed.

(** X20: on a container with elements, front() is what [*begin()] reads,
    back() is what [*--end()] reads, data() is the address [begin()] stands
    on, and empty() is false.  [c[i]] is what [begin()[i]] reads through the
    const iterator; through the mutable iterator, which begin() of a
    non-const container returns, that holds for every index but 0 with
    bounds checking, where [begin()[0]] fails the assertion on the start
    bound while [c[0]] reads the first element.  With bounds checking all
    this needs the end bound not to be below the real end. *)
Theorem element_access_agrees_with_handles {T : Type} (bc : bool) (b e : hid) (c : vid)
    (w : world T) (v : msiv T) :
  vecs w !! c = Some v ->
  iters w !! b = None -> iters w !! e = None -> b <> e ->
  (0 < sv_size (m_base v))%nat ->
  (bc = true ->
     sv_data (m_base v) + Z.of_nat (sv_size (m_base v)) <= m_currentEnd v) ->
  exists w1 w2 w3,
    begin bc b c w = Ok w1
    /\ end_ bc e c w1 = Ok w2
    /\ decrement bc e w2 = Ok w3
    /\ deref bc b w3 = front c w
    /\ deref bc e w3 = back c w
    /\ (forall i, (i < sv_size (m_base v))%nat ->
          iter_subscript bc b (Z.of_nat i) w3 = subscript bc i c w
          /\ iter_subscript_mutable bc b (Z.of_nat i) w3
             = if bc && (i =? 0)%nat then Abort AssertionFailure
               else subscript bc i c w)
    /\ arrow bc b w3 = data c w
    /\ empty c w = Ok false.
Proof.
  intros Hc Hb He Hne Hsize Hshadow.
  assert (Hstart : (if bc then sv_subscript 0 (m_base v) else Ok nullptr)
                   = Ok (if bc then sv_data (m_base v) else nullptr)).
  { destruct bc; [|done].
    unfold sv_subscript. apply Nat.ltb_lt in Hsize. rewrite Hsize. f_equal. lia. }
  set (start := if bc then sv_data (m_base v) else nullptr) in *.
  set (v1 := set_iterators (m_iterators v ++ [Some b]) v).
  set (w1 := put_vec c v1 (put_iter b (mk_iter (sv_data (m_base v)) c start c) w)).
  set (v2 := set_iterators (m_iterators v1 ++ [Some e]) v1).
  set (pe := sv_data (m_base v) + Z.of_nat (sv_size (m_base v))).
  set (w2 := put_vec c v2 (put_iter e (mk_iter pe c start c) w1)).
  set (w3 := put_iter e (mk_iter (pe - 1) c start c) w2).
  assert (Hbegin : begin bc b c w = Ok w1).
  { unfold begin, construct, addIterator, get_vec. rewrite Hc. simpl.
    rewrite Hstart. simpl. by rewrite Hc. }
  assert (Hc1 : vecs w1 !! c = Some v1) by apply lookup_insert_eq.
  assert (Hend : end_ bc e c w1 = Ok w2).
  { unfold end_, construct, addIterator, get_vec. rewrite Hc1. simpl.
    rewrite Hstart. by rewrite lookup_insert_eq. }
  assert (Hc3 : vecs w3 !! c = Some v2) by apply lookup_insert_eq.
  assert (He2 : iters w2 !! e = Some (mk_iter pe c start c)) by apply lookup_insert_eq.
  assert (Hb3 : iters w3 !! b = Some (mk_iter (sv_data (m_base v)) c start c)).
  { simpl. rewrite !(lookup_insert_ne _ e b) by done. apply lookup_insert_eq. }
  assert (He3 : iters w3 !! e = Some (mk_iter (pe - 1) c start c))
    by apply lookup_insert_eq.
  assert (Hlo : bc = true -> start = sv_data (m_base v)) by (by intros ->).
  assert (Hchk : forall p q, sv_data (m_base v) <= p < pe ->
            (if bc then
               _ ← assert bc (start <=? p);
               en ← read_currentEnd (mk_iter q c start c) w3;
               assert bc (p <? en)
             else Ok tt) = Ok tt).
  { intros p q Hp. destruct bc; [|done].
    unfold assert, read_currentEnd, get_vec. cbn [it_currentEnd]. rewrite Hc3. simpl.
    rewrite (Hlo eq_refl).
    replace (sv_data (m_base v) <=? p) with true by (symmetry; apply Z.leb_le; lia).
    simpl.
    replace (p <? m_currentEnd v) with true
      by (symmetry; apply Z.ltb_lt; specialize (Hshadow eq_refl); lia).
    done. }
  assert (Hload : forall i, (i < sv_size (m_base v))%nat ->
            sv_load (sv_data (m_base v) + Z.of_nat i) (m_base v2)
            = sv_elems (m_base v) !! i).
  { intros i Hi. unfold sv_load. simpl.
    replace (sv_data (m_base v) <=? sv_data (m_base v) + Z.of_nat i) with true
      by (symmetry; apply Z.leb_le; lia).
    f_equal. lia. }
  exists w1, w2, w3. split_and!; try done.
  - unfold decrement, get_iter. rewrite He2. simpl. unfold assert.
    destruct bc; simpl; [|done].
    rewrite (Hlo eq_refl).
    by replace (sv_data (m_base v) <? pe) with true
      by (symmetry; apply Z.ltb_lt; unfold pe; lia).
  - unfold deref, front, get_iter, get_vec. rewrite Hb3, Hc. simpl.
    rewrite (Hchk (sv_data (m_base v)) (sv_data (m_base v))) by (unfold pe; lia). simpl.
    rewrite lookup_insert_eq. simpl.
    replace (sv_data (m_base v)) with (sv_data (m_base v) + Z.of_nat 0) at 1 by lia.
    rewrite Hload by done. by rewrite head_lookup.
  - unfold deref, back, get_iter, get_vec. rewrite He3, Hc. simpl.
    rewrite (Hchk (pe - 1) (pe - 1)) by (unfold pe; lia). simpl.
    rewrite lookup_insert_eq. simpl.
    replace (pe - 1) with (sv_data (m_base v) + Z.of_nat (pred (sv_size (m_base v))))
      by (unfold pe; lia).
    rewrite Hload by lia. by rewrite last_lookup.
  - intros i Hi.
    assert (Hconst : iter_subscript bc b (Z.of_nat i) w3 = subscript bc i c w).
    { unfold iter_subscript, subscript, get_iter, get_vec.
      rewrite Hb3, Hc. simpl.
      rewrite (Hchk (sv_data (m_base v) + Z.of_nat i) (sv_data (m_base v)))
        by (unfold pe; lia).
      simpl. rewrite lookup_insert_eq. simpl. rewrite Hload by done.
      unfold assert. apply Nat.ltb_lt in Hi. rewrite Hi.
      by rewrite andb_false_r. }
    split; [done|].
    rewrite (iter_subscript_mutable_strict bc b (Z.of_nat i) w3 _ Hb3), Hconst.
    simpl. unfold start. destruct bc; simpl; [|done].
    destruct (Nat.eqb_spec i 0) as [-> | Hnz].
    + by rewrite Z.add_0_r, Z.eqb_refl.
    + by replace (sv_data (m_base v) + Z.of_nat i =? sv_data (m_base v)) with false
        by (symmetry; apply Z.eqb_neq; lia).
  - unfold arrow, data, get_iter, get_vec. rewrite Hb3, Hc. simpl.
    by rewrite (Hchk (sv_data (m_base v)) (sv_data (m_base v))) by (unfold pe; lia).
  - unfold empty, get_vec. rewrite Hc. simpl. f_equal.
    apply Nat.eqb_neq. lia.
Qed.

Lemma element_access_agrees_with_handles_witness :
  exists w1 w2 w3,
    begin true h6 vec1 watched_world = Ok w1
    /\ end_ true h7 vec1 w1 = Ok w2
    /\ decrement true h7 w2 = Ok w3
    /\ deref true h6 w3 = front vec1 watched_world
    /\ deref true h7 w3 = back vec1 watched_world
    /\ (forall i, (i < 4)%nat ->
          iter_subscript true h6 (Z.of_nat i) w3 = subscript true i vec1 watched_world
          /\ iter_subscript_mutable true h6 (Z.of_nat i) w3
             = if true && (i =? 0)%nat then Abort AssertionFailure
               else subscript true i vec1 watched_world)
    /\ arrow true h6 w3 = data vec1 watched_world
    /\ empty vec1 watched_world = Ok false.
Proof.
  apply (element_access_agrees_with_handles true h6 h7 vec1 watched_world
           watched_vector).
  - reflexivity.
  - reflexivity.
  - reflexivity.
  - unfold h6, h7. lia.
  - unfold watched_vector, sv_size. simpl. lia.
  - intros _. unfold watched_vector, sv_size. simpl. lia.
Defined.

(** X21: at(pos) and operator[] return the same element for a position
    below size().  At or beyond size() both fail the assertion when bounds
    checking is compiled in; without it at(pos) throws where operator[] is
    undefined behaviour.  Neither changes the world, so neither rebases nor
    registers anything. *)
Theorem at_and_subscript_differ_out_of_range {T : Type} (bc : bool) (pos : nat)
    (c : vid) (w : world T) (v : msiv T) :
  vecs w !! c = Some v ->
  ((pos < sv_size (m_base v))%nat ->
     exists x, sv_elems (m_base v) !! pos = Some x
               /\ at_ bc pos c w = Ok x /\ subscript bc pos c w = Ok x)
  /\ ((sv_size (m_base v) <= pos)%nat ->
        at_ bc pos c w = Abort (if bc then AssertionFailure else SubscriptOutOfRange)
        /\ subscript bc pos c w
           = Abort (if bc then AssertionFailure else UndefinedBehaviour)).
Proof.
  intros Hc. unfold at_, subscript, get_vec, assert. rewrite Hc. simpl. split.
  - intros Hlt. destruct (lookup_lt_is_Some_2 (sv_elems (m_base v)) pos Hlt) as [x Hx].
    exists x. apply Nat.ltb_lt in Hlt. rewrite Hlt, Hx, andb_false_r. simpl. done.
  - intros Hge. rewrite (lookup_ge_None_2 (sv_elems (m_base v)) pos Hge).
    apply Nat.ltb_ge in Hge. rewrite Hge. by destruct bc.
Qed.

Lemma at_and_subscript_differ_out_of_range_witness :
  ((4 < 4)%nat ->
     exists x, [1; 2; 3; 4] !! 4%nat = Some x
               /\ at_ false 4 vec1 watched_world = Ok x
               /\ subscript false 4 vec1 watched_world = Ok x)
  /\ ((4 <= 4)%nat ->
        at_ false 4 vec1 watched_world = Abort SubscriptOutOfRange
        /\ subscript false 4 vec1 watched_world = Abort UndefinedBehaviour).
Proof.
  apply (at_and_subscript_differ_out_of_range false 4 vec1 watched_world watched_vector).
  reflexivity.
Defined.
